(** * Blender excerpt: the asset library layer and the pixel drawing utilities

    A shallow embedding of

    - [source/blender/editors/screen/glutil.c]: the cached work texture and
      the [immDrawPixelsTex*] family, with the [glaDrawPixelsTex*] family that
      the file keeps under [#if 0]; the arc, circle, cylinder and packed
      colour helpers; and the [glaDrawImBuf_glsl*] family;
    - [source/blender/asset_system/intern/asset_library.cc] together with the
      class declaration in [AS_asset_representation.hh].

    C [int] is a 32-bit two's complement integer carried in [Z]; C [float] is
    IEEE-754 binary32, carried in [spec_float] with precision 24 and maximal
    exponent 128.  OpenGL and immediate-mode calls are recorded, in program
    order, as a list of commands.  Asset representations live in a heap of
    [shared_ptr] control blocks; the calls an operation of the asset layer
    makes on the asset library service, on a mutex or on the callback system
    are recorded as a trace.

    The modules [CArith], [Glutil], [GlutilDraw] and [AssetSystem] hold the
    embedding, [AssetSpec], [GlutilSpec] and [AssetStorageSpec] the notions
    the statements are written in, [GlutilFacts], [AssetFacts],
    [TilingFacts], [GlutilDrawFacts] and [AssetStorageFacts] the lemmas and
    theorems. *)

From Stdlib Require Import ZArith List Lia Bool Ascii Sorted.
From Stdlib Require Import Floats.SpecFloat.
From stdpp Require Import base gmap strings list.

(* ===================================================================== *)
(** * Machine arithmetic *)
(* ===================================================================== *)

Module CArith.
Local Open Scope Z_scope.

Definition INT_MIN : Z := - 2 ^ 31.
Definition INT_MAX : Z := 2 ^ 31 - 1.

(** Two's complement reduction to 32 bits. *)
Definition wrap_int (z : Z) : Z := (z + 2 ^ 31) mod 2 ^ 32 - 2 ^ 31.

Definition int_add (a b : Z) : Z := wrap_int (a + b).
Definition int_sub (a b : Z) : Z := wrap_int (a - b).
Definition int_mul (a b : Z) : Z := wrap_int (a * b).
(** C division truncates towards zero. *)
Definition int_div (a b : Z) : Z := wrap_int (Z.quot a b).

(** [size_t] is 64 bits wide; conversion from [int] reduces modulo 2^64. *)
Definition wrap_size (z : Z) : Z := z mod 2 ^ 64.
Definition size_add (a b : Z) : Z := wrap_size (a + b).
Definition size_sub (a b : Z) : Z := wrap_size (a - b).
Definition size_mul (a b : Z) : Z := wrap_size (a * b).

Definition in_int (z : Z) : Prop := INT_MIN <= z <= INT_MAX.

(** binary32 *)
Definition float : Type := spec_float.
Definition f_prec : Z := 24.
Definition f_emax : Z := 128.

Definition fadd (a b : float) : float := SFadd f_prec f_emax a b.
Definition fmul (a b : float) : float := SFmul f_prec f_emax a b.
Definition fdiv (a b : float) : float := SFdiv f_prec f_emax a b.
Definition flt (a b : float) : bool := SFltb a b.
Definition fgt (a b : float) : bool := SFltb b a.
(** [(float)n] for an [int] n, rounded to nearest even. *)
Definition float_of_int (n : Z) : float := binary_normalize f_prec f_emax n 0 false.

Definition f_zero : float := float_of_int 0.
Definition f_one : float := float_of_int 1.

End CArith.

(* ===================================================================== *)
(** * editors/screen/glutil.c *)
(* ===================================================================== *)

Module Glutil.
Import CArith.
Local Open Scope Z_scope.

(** OpenGL enumerants used by the routines below. *)
Definition GL_TEXTURE_2D : Z := 0x0DE1.
Definition GL_TEXTURE_MAG_FILTER : Z := 0x2800.
Definition GL_TEXTURE_MIN_FILTER : Z := 0x2801.
Definition GL_TEXTURE_WRAP_S : Z := 0x2802.
Definition GL_TEXTURE_WRAP_T : Z := 0x2803.
Definition GL_CLAMP_TO_EDGE : Z := 0x812F.
Definition GL_LINEAR : Z := 0x2601.
Definition GL_UNPACK_ROW_LENGTH : Z := 0x0CF2.
Definition GL_RED : Z := 0x1903.
Definition GL_ALPHA : Z := 0x1906.
Definition GL_RGB : Z := 0x1907.
Definition GL_RGBA : Z := 0x1908.
Definition GL_LUMINANCE : Z := 0x1909.
Definition GL_RGBA8 : Z := 0x8058.
Definition GL_RGBA16F_ARB : Z := 0x881A.
Definition GL_UNSIGNED_BYTE : Z := 0x1401.
Definition GL_FLOAT : Z := 0x1406.
Definition GL_TRIANGLE_FAN : Z := 0x0006.
Definition GL_QUADS : Z := 0x0007.

(** Built-in shader and basic-shader options, as opaque tags. *)
Inductive builtin_shader := GPU_SHADER_2D_IMAGE_COLOR.
Inductive basic_shader_option := GPU_SHADER_USE_COLOR | GPU_SHADER_TEXTURE_2D.

Definition float4 : Type := float * float * float * float.

(** One recorded call.  A pixel pointer [&rect[i]] is recorded as the element
    index [i]; [None] stands for a [NULL] data pointer. *)
Inductive gl_cmd :=
| glGenTextures (n : Z) (name : Z)
| glBindTexture (target texture : Z)
| glTexParameteri (target pname param : Z)
| glPixelStorei (pname param : Z)
| glTexImage2D (target level internalformat width height border format type : Z)
               (data : option Z)
| glTexSubImage2D (target level xoffset yoffset width height format type : Z)
                  (data : Z)
| immVertexFormat
| add_attrib (name : string) (comp_type comp_ct : Z)
| immBindProgram (program : Z)
| immBindBuiltinProgram (shader : builtin_shader)
| immUniform1i (name : string) (v : Z)
| immUniform4fv (name : string) (v : float4)
| immBegin (prim vertex_ct : Z)
| immAttrib2f (attrib : Z) (u v : float)
| immVertex2f (attrib : Z) (x y : float)
| immEnd
| immUnbindProgram
| GPU_basic_shader_bind (options : list basic_shader_option)
| glBegin (mode : Z)
| glTexCoord2f (s t : float)
| glVertex2f (x y : float)
| glEnd.

(** What the routines read back from the GL context. *)
Record gl_context := {
  fresh_texture : Z;            (* the name [glGenTextures] hands out *)
  current_program : Z;          (* [glaGetOneInt(GL_CURRENT_PROGRAM)] *)
  color_uniform_location : Z;   (* [glGetUniformLocation(program, "color")] *)
  zoom_x : float;               (* [glaGetOneFloat(GL_ZOOM_X)] *)
  zoom_y : float                (* [glaGetOneFloat(GL_ZOOM_Y)] *)
}.

(** The function-local statics of [get_cached_work_texture].  [tex_w] and
    [tex_h] are initialised to 256 and never assigned; [texid] starts at -1
    and is the only one that changes, so it is the state threaded through. *)
Definition tex_w : Z := 256.
Definition tex_h : Z := 256.
Definition texid_init : Z := -1.

(** [get_cached_work_texture]: returns the static [texid] after the call, the
    commands issued and [(texid, *r_w, *r_h)]. *)
Definition get_cached_work_texture (ctx : gl_context) (texid : Z)
  : Z * list gl_cmd * (Z * Z * Z) :=
  if texid =? -1 then
    let texid' := fresh_texture ctx in
    (texid',
     [ glGenTextures 1 texid';
       glBindTexture GL_TEXTURE_2D texid';
       glTexParameteri GL_TEXTURE_2D GL_TEXTURE_MIN_FILTER GL_LINEAR;
       glTexParameteri GL_TEXTURE_2D GL_TEXTURE_MAG_FILTER GL_LINEAR;
       glTexImage2D GL_TEXTURE_2D 0 GL_RGBA8 tex_w tex_h 0
                    GL_RGBA GL_UNSIGNED_BYTE None;
       glBindTexture GL_TEXTURE_2D 0 ],
     (texid', tex_w, tex_h))
  else
    (texid, [], (texid, tex_w, tex_h)).

(** The arguments of [immDrawPixelsTexScaled_clipping]. [rect] itself is
    not dereferenced by the routine, only offset. *)
Record draw_args := {
  x : float; y : float;
  img_w : Z; img_h : Z;
  format : Z; type : Z; zoomfilter : Z;
  scaleX : float; scaleY : float;
  clip_min_x : float; clip_min_y : float;
  clip_max_x : float; clip_max_y : float;
  xzoom : float; yzoom : float;
  color : option float4
}.

(** [for (i = 0; i < n; i++)]: the values [i] takes. *)
Definition for_range (n : Z) : list Z := map Z.of_nat (seq 0 (Z.to_nat n)).

(** The locals computed before the loops. *)
Record tiling := {
  seamless : Z;
  offset_x : Z; offset_y : Z;
  nsubparts_x : Z; nsubparts_y : Z
}.

Definition tiling_of (tw th w h : Z) : tiling :=
  let seamless := if ((tw <? w) || (th <? h)) && (2 <? tw) && (2 <? th) then 2 else 0 in
  let offset_x := int_sub tw seamless in
  let offset_y := int_sub th seamless in
  {| seamless := seamless;
     offset_x := offset_x; offset_y := offset_y;
     nsubparts_x := int_div (int_add w (int_sub offset_x 1)) offset_x;
     nsubparts_y := int_div (int_add h (int_sub offset_y 1)) offset_y |}.

Definition components_of (format : Z) : option Z :=
  if format =? GL_RGBA then Some 4
  else if format =? GL_RGB then Some 3
  else if format =? GL_RED then Some 1
  else None.

Definition use_clipping (a : draw_args) : bool :=
  flt (clip_min_x a) (clip_max_x a) && flt (clip_min_y a) (clip_max_y a).

(** The locals of one iteration of the inner loop. *)
Record subpart := {
  remainder_x : Z; remainder_y : Z;
  subpart_w : Z; subpart_h : Z;
  offset_left : Z; offset_bot : Z; offset_right : Z; offset_top : Z;
  rast_x : float; rast_y : float
}.

Definition c_true (z : Z) : bool := negb (z =? 0).

Definition subpart_of (a : draw_args) (tw th : Z) (t : tiling) (sx sy : Z) : subpart :=
  let remainder_x := int_sub (img_w a) (int_mul sx (offset_x t)) in
  let remainder_y := int_sub (img_h a) (int_mul sy (offset_y t)) in
  {| remainder_x := remainder_x;
     remainder_y := remainder_y;
     subpart_w := if remainder_x <? tw then remainder_x else tw;
     subpart_h := if remainder_y <? th then remainder_y else th;
     offset_left := if c_true (seamless t) && negb (sx =? 0) then 1 else 0;
     offset_bot := if c_true (seamless t) && negb (sy =? 0) then 1 else 0;
     offset_right := if c_true (seamless t) && (tw <? remainder_x) then 1 else 0;
     offset_top := if c_true (seamless t) && (th <? remainder_y) then 1 else 0;
     rast_x := fadd (x a) (fmul (float_of_int (int_mul sx (offset_x t))) (xzoom a));
     rast_y := fadd (y a) (fmul (float_of_int (int_mul sy (offset_y t))) (yzoom a)) |}.

(** The two [continue] tests guarded by [use_clipping]. *)
Definition clipped_out (a : draw_args) (s : subpart) : bool :=
  use_clipping a &&
  ((flt (fadd (rast_x s)
              (fmul (fmul (float_of_int (int_sub (subpart_w s) (offset_right s))) (xzoom a))
                    (scaleX a)))
        (clip_min_x a)
    || flt (fadd (rast_y s)
                 (fmul (fmul (float_of_int (int_sub (subpart_h s) (offset_top s))) (yzoom a))
                       (scaleY a)))
           (clip_min_y a))
   || (fgt (fadd (rast_x s) (fmul (float_of_int (offset_left s)) (xzoom a))) (clip_max_x a)
       || fgt (fadd (rast_y s) (fmul (float_of_int (offset_bot s)) (yzoom a))) (clip_max_y a))).

(** Element indices into [rect] of the four uploads of a sub-part:
    [((size_t)subpart_y) * offset_y * img_w * components + ...]. *)
Definition row_base (a : draw_args) (t : tiling) (comps sy : Z) : Z :=
  size_mul (size_mul (size_mul (wrap_size sy) (wrap_size (offset_y t))) (wrap_size (img_w a)))
           (wrap_size comps).
Definition last_row_base (a : draw_args) (t : tiling) (comps sy : Z) (s : subpart) : Z :=
  size_mul (size_mul (size_sub (size_add (size_mul (wrap_size sy) (wrap_size (offset_y t)))
                                         (wrap_size (subpart_h s)))
                               1)
                     (wrap_size (img_w a)))
           (wrap_size comps).
Definition col_first (t : tiling) (comps sx : Z) : Z :=
  wrap_size (int_mul (int_mul sx (offset_x t)) comps).
Definition col_last (t : tiling) (comps sx : Z) (s : subpart) : Z :=
  wrap_size (int_mul (int_sub (int_add (int_mul sx (offset_x t)) (subpart_w s)) 1) comps).

(** The [glTexSubImage2D] calls of one sub-part; both branches of
    [if (type == GL_FLOAT)] issue the same four calls with their own [type]. *)
Definition upload_subpart (a : draw_args) (tw th : Z) (t : tiling) (comps sx sy : Z)
           (s : subpart) : list gl_cmd :=
  let ty := if type a =? GL_FLOAT then GL_FLOAT else GL_UNSIGNED_BYTE in
  [ glTexSubImage2D GL_TEXTURE_2D 0 0 0 (subpart_w s) (subpart_h s) (format a) ty
      (size_add (row_base a t comps sy) (col_first t comps sx)) ]
  ++ (if subpart_w s <? tw then
        [ glTexSubImage2D GL_TEXTURE_2D 0 (subpart_w s) 0 1 (subpart_h s) (format a) ty
            (size_add (row_base a t comps sy) (col_last t comps sx s)) ]
      else [])
  ++ (if subpart_h s <? th then
        [ glTexSubImage2D GL_TEXTURE_2D 0 0 (subpart_h s) (subpart_w s) 1 (format a) ty
            (size_add (last_row_base a t comps sy s) (col_first t comps sx)) ]
      else [])
  ++ (if (subpart_w s <? tw) && (subpart_h s <? th) then
        [ glTexSubImage2D GL_TEXTURE_2D 0 (subpart_w s) (subpart_h s) 1 1 (format a) ty
            (size_add (last_row_base a t comps sy s) (col_last t comps sx s)) ]
      else []).

(** Texture coordinates and positions of the quad of one sub-part. *)
Definition tex_left (tw : Z) (s : subpart) : float :=
  fdiv (float_of_int (int_add 0 (offset_left s))) (float_of_int tw).
Definition tex_bot (th : Z) (s : subpart) : float :=
  fdiv (float_of_int (int_add 0 (offset_bot s))) (float_of_int th).
Definition tex_right (tw : Z) (s : subpart) : float :=
  fdiv (float_of_int (int_sub (subpart_w s) (offset_right s))) (float_of_int tw).
Definition tex_top (th : Z) (s : subpart) : float :=
  fdiv (float_of_int (int_sub (subpart_h s) (offset_top s))) (float_of_int th).
Definition pos_left (a : draw_args) (s : subpart) : float :=
  fadd (rast_x s) (fmul (float_of_int (offset_left s)) (xzoom a)).
Definition pos_bot (a : draw_args) (s : subpart) : float :=
  fadd (rast_y s) (fmul (float_of_int (offset_bot s)) (yzoom a)).
Definition pos_right (a : draw_args) (s : subpart) : float :=
  fadd (rast_x s)
       (fmul (fmul (float_of_int (int_sub (subpart_w s) (offset_right s))) (xzoom a)) (scaleX a)).
Definition pos_top (a : draw_args) (s : subpart) : float :=
  fadd (rast_y s)
       (fmul (fmul (float_of_int (int_sub (subpart_h s) (offset_top s))) (yzoom a)) (scaleY a)).

(** Attribute ids handed out by [add_attrib] on a fresh vertex format. *)
Definition attr_pos : Z := 0.
Definition attr_texco : Z := 1.

Definition imm_quad (a : draw_args) (tw th : Z) (s : subpart) : list gl_cmd :=
  [ immBegin GL_TRIANGLE_FAN 4;
    immAttrib2f attr_texco (tex_left tw s) (tex_bot th s);
    immVertex2f attr_pos (pos_left a s) (pos_bot a s);
    immAttrib2f attr_texco (tex_right tw s) (tex_bot th s);
    immVertex2f attr_pos (pos_right a s) (pos_bot a s);
    immAttrib2f attr_texco (tex_right tw s) (tex_top th s);
    immVertex2f attr_pos (pos_right a s) (pos_top a s);
    immAttrib2f attr_texco (tex_left tw s) (tex_top th s);
    immVertex2f attr_pos (pos_left a s) (pos_top a s);
    immEnd ].

(** One iteration of the inner loop of [immDrawPixelsTexScaled_clipping]. *)
Definition imm_subpart (a : draw_args) (tw th : Z) (t : tiling) (comps sx sy : Z)
  : list gl_cmd :=
  let s := subpart_of a tw th t sx sy in
  if (subpart_w s <=? seamless t) || (subpart_h s <=? seamless t) then []
  else if clipped_out a s then []
  else upload_subpart a tw th t comps sx sy s ++ imm_quad a tw th s.

Definition white : float4 := (f_one, f_one, f_one, f_one).

Definition imm_bind (ctx : gl_context) (a : draw_args) : list gl_cmd :=
  let col := match color a with Some c => c | None => white end in
  if c_true (current_program ctx) then
    immBindProgram (current_program ctx)
    :: (if negb (color_uniform_location ctx =? -1)
        then [ immUniform4fv "color" col ] else [])
  else
    [ immBindBuiltinProgram GPU_SHADER_2D_IMAGE_COLOR;
      immUniform1i "image" 0;
      immUniform4fv "color" col ].

Definition immDrawPixelsTexScaled_clipping (ctx : gl_context) (texid : Z)
           (a : draw_args) : Z * list gl_cmd :=
  let '(texid', cached, (id, tw, th)) := get_cached_work_texture ctx texid in
  let t := tiling_of tw th (img_w a) (img_h a) in
  let setup :=
    cached ++
    [ glPixelStorei GL_UNPACK_ROW_LENGTH (img_w a);
      glBindTexture GL_TEXTURE_2D id;
      glTexParameteri GL_TEXTURE_2D GL_TEXTURE_WRAP_S GL_CLAMP_TO_EDGE;
      glTexParameteri GL_TEXTURE_2D GL_TEXTURE_WRAP_T GL_CLAMP_TO_EDGE;
      glTexParameteri GL_TEXTURE_2D GL_TEXTURE_MAG_FILTER (zoomfilter a) ] in
  match components_of (format a) with
  | None => (texid', setup)
  | Some comps =>
    (texid',
     setup ++
     [ if type a =? GL_FLOAT
       then glTexImage2D GL_TEXTURE_2D 0 GL_RGBA16F_ARB tw th 0 (format a) GL_FLOAT None
       else glTexImage2D GL_TEXTURE_2D 0 GL_RGBA8 tw th 0 (format a) GL_UNSIGNED_BYTE None;
       immVertexFormat;
       add_attrib "pos" GL_FLOAT 2;
       add_attrib "texCoord" GL_FLOAT 2 ] ++
     imm_bind ctx a ++
     flat_map (fun sy => flat_map (fun sx => imm_subpart a tw th t comps sx sy)
                                  (for_range (nsubparts_x t)))
              (for_range (nsubparts_y t)) ++
     [ immUnbindProgram;
       glBindTexture GL_TEXTURE_2D 0;
       glPixelStorei GL_UNPACK_ROW_LENGTH 0 ])
  end.

Definition immDrawPixelsTexScaled (ctx : gl_context) (texid : Z)
           (x y : float) (img_w img_h format type zoomfilter : Z)
           (scaleX scaleY xzoom yzoom : float) (color : option float4) :=
  immDrawPixelsTexScaled_clipping ctx texid
    {| x := x; y := y; img_w := img_w; img_h := img_h;
       format := format; type := type; zoomfilter := zoomfilter;
       scaleX := scaleX; scaleY := scaleY;
       clip_min_x := f_zero; clip_min_y := f_zero;
       clip_max_x := f_zero; clip_max_y := f_zero;
       xzoom := xzoom; yzoom := yzoom; color := color |}.

Definition immDrawPixelsTex (ctx : gl_context) (texid : Z)
           (x y : float) (img_w img_h format type zoomfilter : Z)
           (xzoom yzoom : float) (color : option float4) :=
  immDrawPixelsTexScaled_clipping ctx texid
    {| x := x; y := y; img_w := img_w; img_h := img_h;
       format := format; type := type; zoomfilter := zoomfilter;
       scaleX := f_one; scaleY := f_one;
       clip_min_x := f_zero; clip_min_y := f_zero;
       clip_max_x := f_zero; clip_max_y := f_zero;
       xzoom := xzoom; yzoom := yzoom; color := color |}.

Definition immDrawPixelsTex_clipping (ctx : gl_context) (texid : Z)
           (x y : float) (img_w img_h format type zoomfilter : Z)
           (clip_min_x clip_min_y clip_max_x clip_max_y xzoom yzoom : float)
           (color : option float4) :=
  immDrawPixelsTexScaled_clipping ctx texid
    {| x := x; y := y; img_w := img_w; img_h := img_h;
       format := format; type := type; zoomfilter := zoomfilter;
       scaleX := f_one; scaleY := f_one;
       clip_min_x := clip_min_x; clip_min_y := clip_min_y;
       clip_max_x := clip_max_x; clip_max_y := clip_max_y;
       xzoom := xzoom; yzoom := yzoom; color := color |}.

(** ** The block under [#if 0  /* Obsolete / unused */]

    [glaDrawPixelsTexScaled_clipping] and its wrappers are not compiled.  They
    are transcribed here from their own text, so that the live routine can be
    compared with the one it replaced. *)

Module Obsolete.

Record gla_args := {
  g_x : float; g_y : float;
  g_img_w : Z; g_img_h : Z;
  g_format : Z; g_type : Z; g_zoomfilter : Z;
  g_scaleX : float; g_scaleY : float;
  g_clip_min_x : float; g_clip_min_y : float;
  g_clip_max_x : float; g_clip_max_y : float
}.

Definition gla_components_of (format : Z) : option Z :=
  if format =? GL_RGBA then Some 4
  else if format =? GL_RGB then Some 3
  else if (format =? GL_LUMINANCE) || (format =? GL_ALPHA) then Some 1
  else None.

(** One iteration of the inner loop of [glaDrawPixelsTexScaled_clipping]. *)
Definition gla_subpart (ctx : gl_context) (a : gla_args) (tw th seamless offset_x offset_y : Z)
           (components subpart_x subpart_y : Z) : list gl_cmd :=
  let xzoom := zoom_x ctx in
  let yzoom := zoom_y ctx in
  let use_clipping := flt (g_clip_min_x a) (g_clip_max_x a)
                      && flt (g_clip_min_y a) (g_clip_max_y a) in
  let remainder_x := int_sub (g_img_w a) (int_mul subpart_x offset_x) in
  let remainder_y := int_sub (g_img_h a) (int_mul subpart_y offset_y) in
  let subpart_w := if remainder_x <? tw then remainder_x else tw in
  let subpart_h := if remainder_y <? th then remainder_y else th in
  let offset_left := if c_true seamless && negb (subpart_x =? 0) then 1 else 0 in
  let offset_bot := if c_true seamless && negb (subpart_y =? 0) then 1 else 0 in
  let offset_right := if c_true seamless && (tw <? remainder_x) then 1 else 0 in
  let offset_top := if c_true seamless && (th <? remainder_y) then 1 else 0 in
  let rast_x := fadd (g_x a) (fmul (float_of_int (int_mul subpart_x offset_x)) xzoom) in
  let rast_y := fadd (g_y a) (fmul (float_of_int (int_mul subpart_y offset_y)) yzoom) in
  let right := fadd rast_x (fmul (fmul (float_of_int (int_sub subpart_w offset_right)) xzoom)
                                 (g_scaleX a)) in
  let top := fadd rast_y (fmul (fmul (float_of_int (int_sub subpart_h offset_top)) yzoom)
                               (g_scaleY a)) in
  let left := fadd rast_x (fmul (float_of_int offset_left) xzoom) in
  let bot := fadd rast_y (fmul (float_of_int offset_bot) yzoom) in
  if (subpart_w <=? seamless) || (subpart_h <=? seamless) then []
  else if use_clipping && (flt right (g_clip_min_x a) || flt top (g_clip_min_y a)) then []
  else if use_clipping && (fgt left (g_clip_max_x a) || fgt bot (g_clip_max_y a)) then []
  else
    let ty := if g_type a =? GL_FLOAT then GL_FLOAT else GL_UNSIGNED_BYTE in
    let row := size_mul (size_mul (size_mul (wrap_size subpart_y) (wrap_size offset_y))
                                  (wrap_size (g_img_w a)))
                        (wrap_size components) in
    let row_last := size_mul (size_mul (size_sub (size_add (size_mul (wrap_size subpart_y)
                                                                     (wrap_size offset_y))
                                                           (wrap_size subpart_h))
                                                 1)
                                       (wrap_size (g_img_w a)))
                             (wrap_size components) in
    let col := wrap_size (int_mul (int_mul subpart_x offset_x) components) in
    let col_last := wrap_size (int_mul (int_sub (int_add (int_mul subpart_x offset_x) subpart_w) 1)
                                       components) in
    [ glTexSubImage2D GL_TEXTURE_2D 0 0 0 subpart_w subpart_h (g_format a) ty
                      (size_add row col) ]
    ++ (if subpart_w <? tw then
          [ glTexSubImage2D GL_TEXTURE_2D 0 subpart_w 0 1 subpart_h (g_format a) ty
                            (size_add row col_last) ]
        else [])
    ++ (if subpart_h <? th then
          [ glTexSubImage2D GL_TEXTURE_2D 0 0 subpart_h subpart_w 1 (g_format a) ty
                            (size_add row_last col) ]
        else [])
    ++ (if (subpart_w <? tw) && (subpart_h <? th) then
          [ glTexSubImage2D GL_TEXTURE_2D 0 subpart_w subpart_h 1 1 (g_format a) ty
                            (size_add row_last col_last) ]
        else [])
    ++ [ GPU_basic_shader_bind [GPU_SHADER_TEXTURE_2D; GPU_SHADER_USE_COLOR];
         glBegin GL_QUADS;
         glTexCoord2f (fdiv (float_of_int (int_add 0 offset_left)) (float_of_int tw))
                      (fdiv (float_of_int (int_add 0 offset_bot)) (float_of_int th));
         glVertex2f left bot;
         glTexCoord2f (fdiv (float_of_int (int_sub subpart_w offset_right)) (float_of_int tw))
                      (fdiv (float_of_int (int_add 0 offset_bot)) (float_of_int th));
         glVertex2f right bot;
         glTexCoord2f (fdiv (float_of_int (int_sub subpart_w offset_right)) (float_of_int tw))
                      (fdiv (float_of_int (int_sub subpart_h offset_top)) (float_of_int th));
         glVertex2f right top;
         glTexCoord2f (fdiv (float_of_int (int_add 0 offset_left)) (float_of_int tw))
                      (fdiv (float_of_int (int_sub subpart_h offset_top)) (float_of_int th));
         glVertex2f left top;
         glEnd;
         GPU_basic_shader_bind [GPU_SHADER_USE_COLOR] ].

Definition glaDrawPixelsTexScaled_clipping (ctx : gl_context) (texid : Z)
           (a : gla_args) : Z * list gl_cmd :=
  let '(texid', cached, (id, tw, th)) := get_cached_work_texture ctx texid in
  let setup :=
    cached ++
    [ glPixelStorei GL_UNPACK_ROW_LENGTH (g_img_w a);
      glBindTexture GL_TEXTURE_2D id;
      glTexParameteri GL_TEXTURE_2D GL_TEXTURE_WRAP_S GL_CLAMP_TO_EDGE;
      glTexParameteri GL_TEXTURE_2D GL_TEXTURE_WRAP_T GL_CLAMP_TO_EDGE;
      glTexParameteri GL_TEXTURE_2D GL_TEXTURE_MAG_FILTER (g_zoomfilter a) ] in
  let seamless :=
    if ((tw <? g_img_w a) || (th <? g_img_h a)) && (2 <? tw) && (2 <? th) then 2 else 0 in
  let offset_x := int_sub tw seamless in
  let offset_y := int_sub th seamless in
  let nsubparts_x := int_div (int_add (g_img_w a) (int_sub offset_x 1)) offset_x in
  let nsubparts_y := int_div (int_add (g_img_h a) (int_sub offset_y 1)) offset_y in
  match gla_components_of (g_format a) with
  | None => (texid', setup)
  | Some components =>
    (texid',
     setup ++
     [ if g_type a =? GL_FLOAT
       then glTexImage2D GL_TEXTURE_2D 0 GL_RGBA16F_ARB tw th 0 (g_format a) GL_FLOAT None
       else glTexImage2D GL_TEXTURE_2D 0 GL_RGBA8 tw th 0 (g_format a) GL_UNSIGNED_BYTE None ] ++
     flat_map (fun subpart_y =>
                 flat_map (fun subpart_x =>
                             gla_subpart ctx a tw th seamless offset_x offset_y
                                         components subpart_x subpart_y)
                          (for_range nsubparts_x))
              (for_range nsubparts_y) ++
     [ glBindTexture GL_TEXTURE_2D 0;
       glPixelStorei GL_UNPACK_ROW_LENGTH 0 ])
  end.

Definition glaDrawPixelsTex (ctx : gl_context) (texid : Z)
           (x y : float) (img_w img_h format type zoomfilter : Z) :=
  glaDrawPixelsTexScaled_clipping ctx texid
    {| g_x := x; g_y := y; g_img_w := img_w; g_img_h := img_h;
       g_format := format; g_type := type; g_zoomfilter := zoomfilter;
       g_scaleX := f_one; g_scaleY := f_one;
       g_clip_min_x := f_zero; g_clip_min_y := f_zero;
       g_clip_max_x := f_zero; g_clip_max_y := f_zero |}.

End Obsolete.

(** ** Observations on a command list *)

(** The commands of a list that [f] recognises, in order. *)
Fixpoint pick {A B} (f : A -> option B) (l : list A) : list B :=
  match l with
  | [] => []
  | c :: l' => match f c with Some b => b :: pick f l' | None => pick f l' end
  end.

(** A texture upload: [(xoffset, yoffset, width, height, data)]. *)
Definition upload_of (c : gl_cmd) : option (Z * Z * Z * Z * Z) :=
  match c with
  | glTexSubImage2D _ _ xo yo w h _ _ d => Some (xo, yo, w, h, d)
  | _ => None
  end.

Definition uploads (cmds : list gl_cmd) : list (Z * Z * Z * Z * Z) :=
  pick upload_of cmds.

(** A tile is an upload at the origin of the work texture (the remaining
    uploads repeat its last column, last row and corner one texel further):
    [(width, height, data)]. *)
Definition tile_of (c : gl_cmd) : option (Z * Z * Z) :=
  match c with
  | glTexSubImage2D _ _ 0 0 w h _ _ d => Some (w, h, d)
  | _ => None
  end.

Definition tiles (cmds : list gl_cmd) : list (Z * Z * Z) := pick tile_of cmds.

Definition tile_sizes (cmds : list gl_cmd) : list (Z * Z) :=
  map (fun t : Z * Z * Z => (fst (fst t), snd (fst t))) (tiles cmds).

(** Mathematical ceiling of [a / b] for positive [b]. *)
Definition ceil_div (a b : Z) : Z := - ((- a) / b).

(** [img_w > tex_w || img_h > tex_h] *)
Definition oversized (a : draw_args) : bool := (tex_w <? img_w a) || (tex_h <? img_h a).

(** The dimensions for which [img + (offset - 1)] stays inside [int]. *)
Definition dims_in_range (a : draw_args) : Prop :=
  0 <= img_w a <= INT_MAX - 255 /\ 0 <= img_h a <= INT_MAX - 255.

(** The sub-part at grid position [(sx, sy)], in unbounded arithmetic: its
    size when it is uploaded, nothing when the loop body skips it. *)
Definition grid_cell (a : draw_args) (sx sy : Z) : list (Z * Z) :=
  let t := tiling_of tex_w tex_h (img_w a) (img_h a) in
  let w := Z.min (img_w a - sx * (tex_w - seamless t)) tex_w in
  let h := Z.min (img_h a - sy * (tex_h - seamless t)) tex_h in
  if (seamless t <? w) && (seamless t <? h)
     && negb (clipped_out a (subpart_of a tex_w tex_h t sx sy))
  then [(w, h)] else [].

Definition grid (a : draw_args) (nx ny : Z) : list (Z * Z) :=
  flat_map (fun sy => flat_map (fun sx => grid_cell a sx sy) (for_range nx)) (for_range ny).

Definition fits_work_texture (u : Z * Z * Z * Z * Z) : Prop :=
  let '(xo, yo, w, h, _) := u in
  0 <= xo /\ 0 <= yo /\ 1 <= w /\ 1 <= h /\ xo + w <= tex_w /\ yo + h <= tex_h.

(** ** Concrete calls *)

Definition ctx0 : gl_context :=
  {| fresh_texture := 1; current_program := 0; color_uniform_location := -1;
     zoom_x := f_one; zoom_y := f_one |}.

(** An unclipped RGBA byte image of [w] by [h] pixels drawn at the origin. *)
Definition plain_call (w h : Z) : draw_args :=
  {| x := f_zero; y := f_zero; img_w := w; img_h := h;
     format := GL_RGBA; type := GL_UNSIGNED_BYTE; zoomfilter := GL_LINEAR;
     scaleX := f_one; scaleY := f_one;
     clip_min_x := f_zero; clip_min_y := f_zero;
     clip_max_x := f_zero; clip_max_y := f_zero;
     xzoom := f_one; yzoom := f_one; color := None |}.

(** A 16 by 16 image drawn at the origin while the clip rectangle is
    [100, 200] x [100, 200]. *)
Definition clipped_call : draw_args :=
  {| x := f_zero; y := f_zero; img_w := 16; img_h := 16;
     format := GL_RGBA; type := GL_UNSIGNED_BYTE; zoomfilter := GL_LINEAR;
     scaleX := f_one; scaleY := f_one;
     clip_min_x := float_of_int 100; clip_min_y := float_of_int 100;
     clip_max_x := float_of_int 200; clip_max_y := float_of_int 200;
     xzoom := f_one; yzoom := f_one; color := None |}.

(** The arguments the two routines share. *)
Definition gla_args_of (a : draw_args) : Obsolete.gla_args :=
  {| Obsolete.g_x := x a; Obsolete.g_y := y a;
     Obsolete.g_img_w := img_w a; Obsolete.g_img_h := img_h a;
     Obsolete.g_format := format a; Obsolete.g_type := type a;
     Obsolete.g_zoomfilter := zoomfilter a;
     Obsolete.g_scaleX := scaleX a; Obsolete.g_scaleY := scaleY a;
     Obsolete.g_clip_min_x := clip_min_x a; Obsolete.g_clip_min_y := clip_min_y a;
     Obsolete.g_clip_max_x := clip_max_x a; Obsolete.g_clip_max_y := clip_max_y a |}.

End Glutil.

(* ===================================================================== *)
(** * asset_system: AS_asset_representation.hh, intern/asset_library.cc *)
(* ===================================================================== *)

Module AssetSystem.
Import CArith.

(** ** Characters, C strings and character arrays *)

Definition NUL : ascii := Ascii.zero.

(** What a [const char *] pointing at the first element of [s] denotes: the
    characters before the first NUL.  For a [std::string] this is [c_str()]. *)
Fixpoint c_str (s : list ascii) : list ascii :=
  match s with
  | [] => []
  | c :: s' => if Ascii.eqb c NUL then [] else c :: c_str s'
  end.

(** The C string found at offset [p] of a character array. *)
Definition cstr_at (buf : list ascii) (p : nat) : list ascii := c_str (drop p buf).

(** [buf[i] = c] on a character array; [None] when [i] is outside it. *)
Definition store (buf : list ascii) (i : nat) (c : ascii) : option (list ascii) :=
  if decide (i < length buf) then Some (<[i := c]> buf) else None.

(** Modelled from the spec: [BLI_strncpy] (BLI_string.h) is not among the
    sources.  It copies at most [dst_maxncpy - 1] characters of the C string
    [src] to the start of [dst] and always writes the terminating NUL; the
    rest of [dst] is left as it was. *)
Definition BLI_strncpy (dst src : list ascii) (dst_maxncpy : nat) : list ascii :=
  let srclen := Nat.min (length (c_str src)) (dst_maxncpy - 1) in
  take srclen (c_str src) ++ NUL :: drop (S srclen) dst.

(** Modelled from the spec: [STRNCPY] (BLI_string.h) is not among the
    sources; it is [BLI_strncpy] with the size of the destination array. *)
Definition STRNCPY (dst src : list ascii) : list ascii := BLI_strncpy dst src (length dst).

(** ** DNA types (DNA_asset_types.h, DNA_userdef_types.h, DNA_ID.h) *)

(** A pointer to an [ID]; [None] is [nullptr]. *)
Definition ID_ptr : Type := option positive.

(** [bUUID], a 128-bit identifier, as a number; the nil UUID is all zero. *)
Definition bUUID : Type := N.

(** Modelled from the spec: [BLI_uuid_is_nil] (BLI_uuid.h) is not among the
    sources; it tells whether the UUID is the nil UUID. *)
Definition BLI_uuid_is_nil (uuid : bUUID) : bool := N.eqb uuid 0.

Inductive eAssetLibraryType :=
| ASSET_LIBRARY_LOCAL
| ASSET_LIBRARY_ALL
| ASSET_LIBRARY_ESSENTIALS
| ASSET_LIBRARY_CUSTOM.

Record AssetLibraryReference := {
  type : eAssetLibraryType;
  custom_library_index : Z
}.

Record bUserAssetLibrary := {
  ual_name : list ascii;
  dirpath : list ascii
}.

(** The user preferences [U], as far as this file reads them. *)
Record UserDef := {
  asset_libraries : list bUserAssetLibrary
}.

Record Main := {
  filepath : list ascii
}.

Record AssetWeakReference := {
  asset_library_type : eAssetLibraryType;
  asset_library_identifier : list ascii;
  relative_asset_identifier : list ascii
}.

(** [AssetMetaData]: the two members this file touches, and the remaining
    members of the struct gathered in [md_other]. *)
Record AssetMetaData {Other : Type} := {
  catalog_id : bUUID;
  catalog_simple_name : list ascii;      (* a [char] array *)
  md_other : Other
}.
Arguments AssetMetaData : clear implicits.

(** ** Catalogs *)

Record AssetCatalog := {
  cat_id : bUUID;
  simple_name : list ascii                (* [std::string] *)
}.

(** ** [AssetLibraryService::ExplodedPath] *)

(** The components are [StringRef]s; only their sizes are read here. *)
Record ExplodedPath := {
  full_path : list ascii;                 (* [*full_path], a [std::string] *)
  dir_component : list ascii;
  group_component : list ascii;
  name_component : list ascii
}.

(** ** What the file calls but does not define *)

(** An [AssetLibrary *] handed out by the service; [None] is [nullptr]. *)
Definition AssetLibrary_ptr : Type := option positive.

(** The functions of other translation units that the file calls.  Their
    results are what the theorems are stated against; nothing is assumed
    about them. *)
Class External := {
  (* utils.hh, BLI_fileops.h, BLI_path_util.h, BKE_preferences.h *)
  normalize_directory_path : list ascii -> list ascii;
  BLI_is_dir : list ascii -> bool;
  BLI_path_split_dir_part : list ascii -> nat -> list ascii;
  BKE_preferences_asset_library_containing_path :
    UserDef -> list ascii -> option bUserAssetLibrary;
  (* AssetCatalogService *)
  AssetCatalogService : Type;
  catalog_service_new : AssetCatalogService;
  catalog_service_at : list ascii -> AssetCatalogService;
  load_from_disk : AssetCatalogService -> AssetCatalogService;
  write_to_disk : AssetCatalogService -> list ascii -> AssetCatalogService;
  find_catalog : AssetCatalogService -> bUUID -> option AssetCatalog;
  (* AssetLibraryService *)
  get_asset_library : Main -> AssetLibraryReference -> AssetLibrary_ptr;
  get_asset_library_current_file : AssetLibrary_ptr;
  get_asset_library_on_disk_custom : option (list ascii) -> list ascii -> AssetLibrary_ptr;
  has_any_unsaved_catalogs : bool;
  root_path_from_library_ref : AssetLibraryReference -> list ascii;
  resolve_asset_weak_reference_to_exploded_path : AssetWeakReference -> option ExplodedPath;
  resolve_asset_weak_reference_to_full_path : AssetWeakReference -> list ascii
}.

(** ** AS_asset_representation.hh *)

Section Representation.
Context {Other : Type}.

Record ExternalAsset := {
  ea_name : list ascii;
  id_type : Z;
  metadata_ : option (AssetMetaData Other)      (* [std::unique_ptr] *)
}.

(** The anonymous union of the class. *)
Inductive asset_union :=
| external_asset_ (e : ExternalAsset)
| local_asset_id_ (id : ID_ptr).

Record AssetRepresentation := {
  owner_asset_library_ : positive;        (* the library referred to *)
  relative_identifier_ : list ascii;
  is_local_id_ : bool;                    (* [const bool] *)
  asset_ : asset_union
}.

(** Modelled from the spec: the constructor for an external asset is declared
    in the header and defined in asset_representation.cc, which is not among
    the sources.  An external asset holds a name, an id type and metadata;
    [is_local_id_] keeps its default [false]. *)
Definition AssetRepresentation_external (relative_asset_path name : list ascii) (id_type : Z)
           (metadata : option (AssetMetaData Other)) (owner : positive) : AssetRepresentation :=
  {| owner_asset_library_ := owner;
     relative_identifier_ := relative_asset_path;
     is_local_id_ := false;
     asset_ := external_asset_ {| ea_name := name; id_type := id_type; metadata_ := metadata |} |}.

(** Modelled from the spec: the constructor for an ID of the current file,
    declared in the header and defined in asset_representation.cc.  A local
    asset wraps the pointer to the ID; [is_local_id_] is [true]. *)
Definition AssetRepresentation_local (relative_asset_path : list ascii) (id : positive)
           (owner : positive) : AssetRepresentation :=
  {| owner_asset_library_ := owner;
     relative_identifier_ := relative_asset_path;
     is_local_id_ := true;
     asset_ := local_asset_id_ (Some id) |}.

(** Modelled from the spec: [is_local_id()] is declared in the header and
    defined in asset_representation.cc; it returns whether the asset is
    stored inside the current file, which is what [is_local_id_] indicates. *)
Definition is_local_id (r : AssetRepresentation) : bool := is_local_id_ r.

(** Modelled from the spec: [local_id()] is declared in the header and
    defined in asset_representation.cc; "if this asset is stored inside this
    current file ([is_local_id()] is true), this returns the ID's pointer,
    otherwise null". *)
Definition local_id (r : AssetRepresentation) : ID_ptr :=
  if is_local_id_ r then
    match asset_ r with
    | local_asset_id_ id => id
    | external_asset_ _ => None
    end
  else None.

(** The flag names the active member of the union. *)
Definition union_matches_flag (r : AssetRepresentation) : Prop :=
  match asset_ r with
  | local_asset_id_ _ => is_local_id_ r = true
  | external_asset_ _ => is_local_id_ r = false
  end.

(** The pointer a local asset wraps. *)
Definition wrapped_id (r : AssetRepresentation) : ID_ptr :=
  match asset_ r with
  | local_asset_id_ id => id
  | external_asset_ _ => None
  end.

(** [asset.local_asset_id_ = id]: a store to the union member; the [const]
    flag is not written. *)
Definition set_local_asset_id (r : AssetRepresentation) (id : ID_ptr) : AssetRepresentation :=
  {| owner_asset_library_ := owner_asset_library_ r;
     relative_identifier_ := relative_identifier_ r;
     is_local_id_ := is_local_id_ r;
     asset_ := local_asset_id_ id |}.

End Representation.
Arguments ExternalAsset : clear implicits.
Arguments asset_union : clear implicits.
Arguments AssetRepresentation : clear implicits.

(** ** Effects *)

Inductive service_call :=
| Call_get_asset_library (bmain : Main) (library_reference : AssetLibraryReference)
| Call_get_asset_library_current_file
| Call_get_asset_library_on_disk_custom (name : option (list ascii)) (dirpath : list ascii)
| Call_has_any_unsaved_catalogs
| Call_root_path_from_library_ref (library_reference : AssetLibraryReference)
| Call_resolve_asset_weak_reference_to_exploded_path (r : AssetWeakReference)
| Call_resolve_asset_weak_reference_to_full_path (r : AssetWeakReference)
| Call_foreach_loaded_asset_library (include_all_library : bool)
| Call_reload_all_library_catalogs_if_dirty.

(** The only mutex of the file: the member [catalog_service_mutex_] of the
    library at the given address. *)
Inductive mutex := catalog_service_mutex_ (library : positive).

(** The calls that leave the file, in program order. *)
Inductive event :=
| E_service_get                                   (* [AssetLibraryService::get()] *)
| E_service_destroy                               (* [AssetLibraryService::destroy()] *)
| E_service (call : service_call)                 (* a method of the service *)
| E_catalog_load_from_disk (root : list ascii)
| E_catalog_write_to_disk (blend_path : list ascii)
| E_mutex_lock (m : mutex)
| E_mutex_unlock (m : mutex)
| E_callback_add (library : positive)
| E_callback_remove (library : positive).

Section Library.
Context {Other : Type} `{External}.

(** The control block of a [std::shared_ptr<AssetRepresentation>]; the
    object is gone once [use_count] has dropped to zero. *)
Record control_block := {
  use_count : nat;
  weak_count : nat;
  object : option (AssetRepresentation Other)
}.

(** Addresses of asset representations. *)
Definition ptr : Type := positive.

(** [AssetStorage]: each member of a set is one [shared_ptr], compared and
    hashed by the address it holds. *)
Record AssetStorage := {
  external_assets : gset ptr;
  local_id_assets : gset ptr
}.

Inductive callback_func := asset_library_on_save_post.

Record bCallbackFuncStore := {
  func : option callback_func;
  arg : option positive;
  alloc : bool
}.

Record AssetLibrary := {
  self : positive;                                (* the address [this] *)
  library_type_ : eAssetLibraryType;
  name_ : list ascii;
  root_path_ : list ascii;
  catalog_service_ : AssetCatalogService;
  storage_ : AssetStorage;
  on_save_callback_store_ : bCallbackFuncStore
}.

(** What the process holds besides the library at hand. *)
Record World := {
  heap : gmap ptr control_block;
  save_catalogs_when_file_is_saved : bool;        (* static member, initially [true] *)
  loaded_libraries : list AssetLibrary;           (* held by the service *)
  all_library : option AssetLibrary               (* the "all" library, if loaded *)
}.

(** A computation returns a value, the world after it and the calls made. *)
Definition M (A : Type) : Type := World -> A * World * list event.

Definition ret {A} (a : A) : M A := fun w => (a, w, []).

Definition bind {A B} (m : M A) (f : A -> M B) : M B :=
  fun w => let '(a, w1, t1) := m w in
           let '(b, w2, t2) := f a w1 in
           (b, w2, t1 ++ t2).

Definition emit (e : event) : M unit := fun w => (tt, w, [e]).

Definition get_heap : M (gmap ptr control_block) := fun w => (heap w, w, []).

Definition with_heap (w : World) (h : gmap ptr control_block) : World :=
  {| heap := h;
     save_catalogs_when_file_is_saved := save_catalogs_when_file_is_saved w;
     loaded_libraries := loaded_libraries w;
     all_library := all_library w |}.

Definition put_heap (h : gmap ptr control_block) : M unit :=
  fun w => (tt, with_heap w h, []).

Definition result {A} (r : A * World * list event) : A := fst (fst r).
Definition world {A} (r : A * World * list event) : World := snd (fst r).
Definition trace {A} (r : A * World * list event) : list event := snd r.

End Library.
Arguments control_block : clear implicits.
Arguments World Other {_}.
Arguments M Other {_} A.

Notation "x <- c1 ;; c2" := (bind c1 (fun x => c2))
  (at level 100, c1 at next level, right associativity).
Notation "c1 ;; c2" := (bind c1 (fun _ => c2))
  (at level 100, right associativity).

(** ** intern/asset_library.cc *)

Section Operations.
Context {Other : Type} `{External}.

Definition set_heap_at (p : ptr) (b : option (control_block Other)) : M Other unit :=
  h <- get_heap ;;
  put_heap (match b with Some b' => <[p := b']> h | None => delete p h end).

(** [std::make_shared<AssetRepresentation>(...)]: a new object at an unused
    address, held by one [shared_ptr]. *)
Definition make_shared (r : AssetRepresentation Other) : M Other ptr :=
  h <- get_heap ;;
  let p := fresh (dom h) in
  put_heap (<[p := {| use_count := 1; weak_count := 0; object := Some r |}]> h) ;;
  ret p.

(** Destruction of one [shared_ptr] holding [p]: the last one destroys the
    object, and the control block lives on while weak pointers remain. *)
Definition release_block (b : control_block Other) : option (control_block Other) :=
  match use_count b with
  | S (S n) => Some {| use_count := S n; weak_count := weak_count b; object := object b |}
  | _ => match weak_count b with
         | O => None
         | S _ => Some {| use_count := 0; weak_count := weak_count b; object := None |}
         end
  end.

Definition shared_ptr_destroy (p : ptr) : M Other unit :=
  h <- get_heap ;;
  match h !! p with
  | Some b => set_heap_at p (release_block b)
  | None => ret tt
  end.

(** Conversion of a [shared_ptr] to the [std::weak_ptr] that is returned. *)
Definition weak_ptr_from (p : ptr) : M Other ptr :=
  h <- get_heap ;;
  match h !! p with
  | Some b =>
    set_heap_at p (Some {| use_count := use_count b; weak_count := S (weak_count b);
                           object := object b |}) ;;
    ret p
  | None => ret p
  end.

(** [std::weak_ptr::lock()]: the object, unless it has expired. *)
Definition weak_ptr_lock (w : World Other) (p : ptr) : option (AssetRepresentation Other) :=
  match heap w !! p with
  | Some b => match use_count b with O => None | S _ => object b end
  | None => None
  end.

(** Modelled from the spec: [Set::lookup_key_or_add] (BLI_set.hh) is not
    among the sources.  It returns the key already stored that equals [key],
    adding [key] when there is none; a [key] that is not stored is
    destroyed. *)
Definition lookup_key_or_add (s : gset ptr) (key : ptr) : M Other (ptr * gset ptr) :=
  if decide (key ∈ s) then shared_ptr_destroy key ;; ret (key, s)
  else ret (key, {[key]} ∪ s).

(** Modelled from the spec: [Set::remove_as] (BLI_set.hh) is not among the
    sources.  It removes the stored key that equals [key], destroying it, and
    returns whether there was one. *)
Definition remove_as (s : gset ptr) (key : ptr) : M Other (bool * gset ptr) :=
  if decide (key ∈ s) then shared_ptr_destroy key ;; ret (true, s ∖ {[key]})
  else ret (false, s).

Definition set_storage (lib : AssetLibrary) (st : AssetStorage) : AssetLibrary :=
  {| self := self lib; library_type_ := library_type_ lib; name_ := name_ lib;
     root_path_ := root_path_ lib; catalog_service_ := catalog_service_ lib;
     storage_ := st; on_save_callback_store_ := on_save_callback_store_ lib |}.

Definition set_catalog_service (lib : AssetLibrary) (cs : AssetCatalogService) : AssetLibrary :=
  {| self := self lib; library_type_ := library_type_ lib; name_ := name_ lib;
     root_path_ := root_path_ lib; catalog_service_ := cs;
     storage_ := storage_ lib; on_save_callback_store_ := on_save_callback_store_ lib |}.

Definition set_on_save_callback_store (lib : AssetLibrary) (cb : bCallbackFuncStore)
  : AssetLibrary :=
  {| self := self lib; library_type_ := library_type_ lib; name_ := name_ lib;
     root_path_ := root_path_ lib; catalog_service_ := catalog_service_ lib;
     storage_ := storage_ lib; on_save_callback_store_ := cb |}.

(** *** The C entry points *)

Definition AssetLibraryService_get : M Other unit := emit E_service_get.

Definition AS_asset_libraries_exit : M Other unit := emit E_service_destroy.

(** [AS_asset_library_load(const Main *, const AssetLibraryReference &)] *)
Definition AS_asset_library_load_reference (bmain : Main)
           (library_reference : AssetLibraryReference) : M Other AssetLibrary_ptr :=
  AssetLibraryService_get ;;
  emit (E_service (Call_get_asset_library bmain library_reference)) ;;
  ret (get_asset_library bmain library_reference).

(** [AS_asset_library_load(const char *name, const char *library_dirpath)].
    A [const char *] argument is [None] when null and otherwise the
    characters found at it. *)
Definition AS_asset_library_load (name library_dirpath : option (list ascii))
  : M Other AssetLibrary_ptr :=
  AssetLibraryService_get ;;
  match library_dirpath with
  | None =>
    emit (E_service Call_get_asset_library_current_file) ;;
    ret get_asset_library_current_file
  | Some d =>
    match c_str d with
    | [] =>
      emit (E_service Call_get_asset_library_current_file) ;;
      ret get_asset_library_current_file
    | _ :: _ =>
      emit (E_service (Call_get_asset_library_on_disk_custom (c_str <$> name) (c_str d))) ;;
      ret (get_asset_library_on_disk_custom (c_str <$> name) (c_str d))
    end
  end.

Definition AS_asset_library_has_any_unsaved_catalogs : M Other bool :=
  AssetLibraryService_get ;;
  emit (E_service Call_has_any_unsaved_catalogs) ;;
  ret has_any_unsaved_catalogs.

Definition AS_asset_library_root_path_from_library_ref
           (library_reference : AssetLibraryReference) : M Other (list ascii) :=
  emit (E_service (Call_root_path_from_library_ref library_reference)) ;;
  ret (root_path_from_library_ref library_reference).

Definition FILE_MAXDIR : nat := 768.

Definition AS_asset_library_find_suitable_root_path_from_path (U : UserDef)
           (input_path : list ascii) : list ascii :=
  match BKE_preferences_asset_library_containing_path U (c_str input_path) with
  | Some preferences_lib => c_str (dirpath preferences_lib)
  | None => c_str (BLI_path_split_dir_part (c_str input_path) FILE_MAXDIR)
  end.

Definition AS_asset_library_find_suitable_root_path_from_main (U : UserDef) (bmain : Main)
  : list ascii :=
  AS_asset_library_find_suitable_root_path_from_path U (filepath bmain).

(** An output parameter [char **r]: [None] when the caller passed null,
    otherwise the pointer currently stored in [*r], itself null or an offset
    into [r_path_buffer]. *)
Definition out_ptr : Type := option (option nat).

(** [if (r) { *r = v; }] *)
Definition assign (r : out_ptr) (v : option nat) : out_ptr :=
  match r with
  | Some _ => Some v
  | None => None
  end.

Record exploded_out := {
  r_path_buffer : list ascii;
  r_dir : out_ptr;
  r_group : out_ptr;
  r_name : out_ptr
}.

Definition FILE_MAX_LIBEXTRA : nat := 1090.

(** [AS_asset_full_path_explode_from_weak_ref].  The result is [None] when a
    store falls outside [r_path_buffer].  The two [BLI_assert]s on the group
    and name components are compiled out of release builds and have no
    effect here. *)
Definition AS_asset_full_path_explode_from_weak_ref (asset_reference : AssetWeakReference)
           (r_path_buffer : list ascii) (r_dir r_group r_name : out_ptr)
  : M Other (option exploded_out) :=
  AssetLibraryService_get ;;
  emit (E_service (Call_resolve_asset_weak_reference_to_exploded_path asset_reference)) ;;
  match resolve_asset_weak_reference_to_exploded_path asset_reference with
  | None =>
    ret (buf ← store r_path_buffer 0 NUL;
         Some {| r_path_buffer := buf;
                 r_dir := assign r_dir None;
                 r_group := assign r_group None;
                 r_name := assign r_name None |})
  | Some exploded =>
    let dir_size := length (dir_component exploded) in
    let group_size := length (group_component exploded) in
    let buf := BLI_strncpy r_path_buffer (full_path exploded) FILE_MAX_LIBEXTRA in
    match dir_component exploded with
    | _ :: _ =>
      ret (buf ← store buf dir_size NUL;
           buf ← store buf (dir_size + 1 + group_size) NUL;
           Some {| r_path_buffer := buf;
                   r_dir := assign r_dir (Some 0);
                   r_group := assign r_group (Some (dir_size + 1));
                   r_name := assign r_name (Some (dir_size + 1 + group_size + 1)) |})
    | [] =>
      ret (buf ← store buf group_size NUL;
           Some {| r_path_buffer := buf;
                   r_dir := assign r_dir None;
                   r_group := assign r_group (Some 0);
                   r_name := assign r_name (Some (group_size + 1)) |})
    end
  end.

(** *** [AssetLibrary] *)

Definition AssetLibrary_new (this : positive) (library_type : eAssetLibraryType)
           (name root_path : list ascii) : AssetLibrary :=
  {| self := this;
     library_type_ := library_type;
     name_ := name;
     root_path_ := normalize_directory_path root_path;
     catalog_service_ := catalog_service_new;
     storage_ := {| external_assets := ∅; local_id_assets := ∅ |};
     on_save_callback_store_ := {| func := None; arg := None; alloc := false |} |}.

Definition library_type (lib : AssetLibrary) : eAssetLibraryType := library_type_ lib.
Definition name (lib : AssetLibrary) : list ascii := name_ lib.
Definition root_path (lib : AssetLibrary) : list ascii := root_path_ lib.
Definition catalog_service (lib : AssetLibrary) : AssetCatalogService := catalog_service_ lib.

Definition on_blend_save_handler_register (lib : AssetLibrary) : M Other AssetLibrary :=
  let lib := set_on_save_callback_store lib
               {| func := Some asset_library_on_save_post; arg := Some (self lib);
                  alloc := false |} in
  emit (E_callback_add (self lib)) ;;
  ret lib.

Definition on_blend_save_handler_unregister (lib : AssetLibrary) : M Other AssetLibrary :=
  emit (E_callback_remove (self lib)) ;;
  ret (set_on_save_callback_store lib
         {| func := None; arg := None; alloc := alloc (on_save_callback_store_ lib) |}).

(** Destruction of a [Set] of [std::shared_ptr<AssetRepresentation>]: every
    pointer the set holds is destroyed. *)
Fixpoint destroy_all (ps : list ptr) : M Other unit :=
  match ps with
  | [] => ret tt
  | p :: ps' => shared_ptr_destroy p ;; destroy_all ps'
  end.

(** [~AssetLibrary()]: the body, and then the destruction of the members that
    C++ performs when the body is left.  The destruction of [storage_]
    destroys the pointers its two sets hold, which releases every asset of
    the library; the other members (the strings, the catalog service, the
    mutex and the callback store) hold nothing of the heap carried here.  The
    library does not exist afterwards. *)
Definition AssetLibrary_delete (lib : AssetLibrary) : M Other unit :=
  lib <- match func (on_save_callback_store_ lib) with
         | Some _ => on_blend_save_handler_unregister lib
         | None => ret lib
         end ;;
  destroy_all (elements (local_id_assets (storage_ lib))) ;;
  destroy_all (elements (external_assets (storage_ lib))).

Definition load_catalogs (lib : AssetLibrary) : M Other AssetLibrary :=
  let catalog_service := catalog_service_at (root_path lib) in
  emit (E_catalog_load_from_disk (root_path lib)) ;;
  let catalog_service := load_from_disk catalog_service in
  (* std::lock_guard lock{catalog_service_mutex_}; *)
  emit (E_mutex_lock (catalog_service_mutex_ (self lib))) ;;
  let lib := set_catalog_service lib catalog_service in
  (* the guard goes out of scope *)
  emit (E_mutex_unlock (catalog_service_mutex_ (self lib))) ;;
  ret lib.

Definition refresh_catalogs (lib : AssetLibrary) : M Other AssetLibrary := ret lib.

Definition add_external_asset (lib : AssetLibrary) (relative_asset_path name : list ascii)
           (id_type : Z) (metadata : option (AssetMetaData Other))
  : M Other (ptr * AssetLibrary) :=
  p <- make_shared (AssetRepresentation_external relative_asset_path name id_type metadata
                                                 (self lib)) ;;
  ks <- lookup_key_or_add (external_assets (storage_ lib)) p ;;
  w <- weak_ptr_from (fst ks) ;;
  ret (w, set_storage lib {| external_assets := snd ks;
                             local_id_assets := local_id_assets (storage_ lib) |}).

Definition add_local_id_asset (lib : AssetLibrary) (relative_asset_path : list ascii)
           (id : positive) : M Other (ptr * AssetLibrary) :=
  p <- make_shared (AssetRepresentation_local relative_asset_path id (self lib)) ;;
  ks <- lookup_key_or_add (local_id_assets (storage_ lib)) p ;;
  w <- weak_ptr_from (fst ks) ;;
  ret (w, set_storage lib {| external_assets := external_assets (storage_ lib);
                             local_id_assets := snd ks |}).

Definition remove_asset (lib : AssetLibrary) (asset : ptr) : M Other (bool * AssetLibrary) :=
  rl <- remove_as (local_id_assets (storage_ lib)) asset ;;
  if fst rl then
    ret (true, set_storage lib {| external_assets := external_assets (storage_ lib);
                                  local_id_assets := snd rl |})
  else
    re <- remove_as (external_assets (storage_ lib)) asset ;;
    ret (fst re, set_storage lib {| external_assets := snd re;
                                    local_id_assets := local_id_assets (storage_ lib) |}).

Inductive IDRemapperApplyResult :=
| ID_REMAP_RESULT_SOURCE_UNAVAILABLE
| ID_REMAP_RESULT_SOURCE_NOT_MAPPABLE
| ID_REMAP_RESULT_SOURCE_REMAPPED
| ID_REMAP_RESULT_SOURCE_UNASSIGNED.

(** [IDRemapper::apply(&id, ID_REMAP_APPLY_DEFAULT)] (BKE_lib_remap.hh): the
    result code and the pointer left in [id]. *)
Definition IDRemapper : Type := ID_ptr -> IDRemapperApplyResult * ID_ptr.

(** The body of the first loop of [remap_ids_and_remove_invalid] for one
    asset; returns whether the asset goes into [removed_assets]. *)
Definition remap_one (mappings : IDRemapper) (p : ptr) : M Other bool :=
  h <- get_heap ;;
  match h !! p with
  | Some b =>
    match object b with
    | Some asset =>
      let '(res, id) := mappings (wrapped_id asset) in
      set_heap_at p (Some {| use_count := use_count b; weak_count := weak_count b;
                             object := Some (set_local_asset_id asset id) |}) ;;
      ret (match res with ID_REMAP_RESULT_SOURCE_UNASSIGNED => true | _ => false end)
    | None => ret false
    end
  | None => ret false
  end.

Fixpoint remap_all (mappings : IDRemapper) (ps : list ptr) : M Other (list ptr) :=
  match ps with
  | [] => ret []
  | p :: ps' =>
    unassigned <- remap_one mappings p ;;
    removed <- remap_all mappings ps' ;;
    ret (if unassigned : bool then p :: removed else removed)
  end.

Fixpoint remove_all (lib : AssetLibrary) (ps : list ptr) : M Other AssetLibrary :=
  match ps with
  | [] => ret lib
  | p :: ps' =>
    r <- remove_asset lib p ;;
    remove_all (snd r) ps'
  end.

Definition remap_ids_and_remove_invalid (lib : AssetLibrary) (mappings : IDRemapper)
  : M Other AssetLibrary :=
  removed_assets <- remap_all mappings (elements (local_id_assets (storage_ lib))) ;;
  remove_all lib removed_assets.

Definition on_blend_save_post (lib : AssetLibrary) (main : Main) : M Other AssetLibrary :=
  fun w =>
    if save_catalogs_when_file_is_saved w then
      (emit (E_catalog_write_to_disk (filepath main)) ;;
       ret (set_catalog_service lib (write_to_disk (catalog_service lib) (filepath main)))) w
    else ret lib w.

Definition resolve_asset_weak_reference_to_full_path_static
           (asset_reference : AssetWeakReference) : M Other (list ascii) :=
  AssetLibraryService_get ;;
  emit (E_service (Call_resolve_asset_weak_reference_to_full_path asset_reference)) ;;
  ret (resolve_asset_weak_reference_to_full_path asset_reference).

Definition set_catalog_simple_name (d : AssetMetaData Other) (n : list ascii)
  : AssetMetaData Other :=
  {| catalog_id := catalog_id d; catalog_simple_name := n; md_other := md_other d |}.

(** [refresh_catalog_simplename]: the value of [*asset_data] on return. *)
Definition refresh_catalog_simplename (lib : AssetLibrary) (asset_data : AssetMetaData Other)
  : AssetMetaData Other :=
  if BLI_uuid_is_nil (catalog_id asset_data) then
    set_catalog_simple_name asset_data (<[0 := NUL]> (catalog_simple_name asset_data))
  else
    match find_catalog (catalog_service lib) (catalog_id asset_data) with
    | None => asset_data
    | Some catalog =>
      set_catalog_simple_name asset_data
        (STRNCPY (catalog_simple_name asset_data) (simple_name catalog))
    end.

(** Modelled from the spec: the macro [LISTBASE_FOREACH_INDEX] (BLI_listbase.h)
    is not among the sources.  It runs [body] on the elements of the list in
    order; the index variable starts at 0 and is incremented after every
    element, so that it is the element's position in the list, also after a
    [continue] in the body.  Here it is started at [i] with the state [s]. *)
Fixpoint LISTBASE_FOREACH_INDEX {A S : Type} (body : A -> Z -> S -> S) (l : list A) (i : Z)
         (s : S) : S :=
  match l with
  | [] => s
  | a :: l' => LISTBASE_FOREACH_INDEX body l' (int_add i 1) (body a i s)
  end.

Definition all_valid_asset_library_refs (U : UserDef) : list AssetLibraryReference :=
  let result := [] in
  let result :=
    result ++ [ {| type := ASSET_LIBRARY_ESSENTIALS; custom_library_index := -1 |} ] in
  let result :=
    LISTBASE_FOREACH_INDEX
      (fun asset_library i result =>
         if negb (BLI_is_dir (dirpath asset_library)) then result (* continue *)
         else result ++ [ {| type := ASSET_LIBRARY_CUSTOM; custom_library_index := i |} ])
      (asset_libraries U) 0 result in
  result ++ [ {| type := ASSET_LIBRARY_LOCAL; custom_library_index := -1 |} ].

Definition all_library_reference : AssetLibraryReference :=
  {| type := ASSET_LIBRARY_ALL; custom_library_index := -1 |}.

Definition all_library_reload_catalogs_if_dirty : M Other unit :=
  AssetLibraryService_get ;;
  emit (E_service Call_reload_all_library_catalogs_if_dirty).

Fixpoint for_each (fn : AssetLibrary -> M Other AssetLibrary) (libs : list AssetLibrary)
  : M Other (list AssetLibrary) :=
  match libs with
  | [] => ret []
  | lib :: rest =>
    lib' <- fn lib ;;
    rest' <- for_each fn rest ;;
    ret (lib' :: rest')
  end.

Definition put_libraries (all : option AssetLibrary) (loaded : list AssetLibrary)
  : M Other unit :=
  fun w => (tt,
            {| heap := heap w;
               save_catalogs_when_file_is_saved := save_catalogs_when_file_is_saved w;
               loaded_libraries := loaded;
               all_library := all |},
            []).

(** Modelled from the spec: [AssetLibraryService::foreach_loaded_asset_library]
    is not among the sources.  It calls [fn] on every library the service
    has loaded, and on the "all" library first when [include_all_library]
    is set. *)
Definition foreach_loaded_asset_library (fn : AssetLibrary -> M Other AssetLibrary)
           (include_all_library : bool) : M Other unit :=
  emit (E_service (Call_foreach_loaded_asset_library include_all_library)) ;;
  fun w =>
    (all' <- match all_library w with
             | Some lib => if include_all_library
                           then lib' <- fn lib ;; ret (Some lib')
                           else ret (Some lib)
             | None => ret None
             end ;;
     loaded' <- for_each fn (loaded_libraries w) ;;
     put_libraries all' loaded') w.

(** [AssetLibrary::foreach_loaded] *)
Definition foreach_loaded (fn : AssetLibrary -> M Other AssetLibrary)
           (include_all_library : bool) : M Other unit :=
  AssetLibraryService_get ;;
  foreach_loaded_asset_library fn include_all_library.

Definition AS_asset_library_remap_ids (mappings : IDRemapper) : M Other unit :=
  AssetLibraryService_get ;;
  foreach_loaded_asset_library (fun library => remap_ids_and_remove_invalid library mappings)
                               true.

End Operations.

End AssetSystem.

(* ===================================================================== *)
(** * Notions the statements about the asset layer are written in *)
(* ===================================================================== *)

Module AssetSpec.
Import CArith AssetSystem.

(** The layout [ExplodedPath] promises: the components are the pieces of
    [full_path], one separator character apart, and no character is NUL. *)
Definition exploded_layout (e : ExplodedPath) : Prop :=
  (NUL ∉ full_path e)
  /\ match dir_component e with
     | [] => exists sep, full_path e = group_component e ++ sep :: name_component e
     | _ :: _ => exists sep1 sep2,
         full_path e = dir_component e ++ sep1 :: group_component e ++ sep2 :: name_component e
     end.

(** The offset of the last separator that
    [AS_asset_full_path_explode_from_weak_ref] overwrites:
    [dir size + 1 + group size], or [group size] when the directory
    component is empty. *)
Definition last_separator (e : ExplodedPath) : nat :=
  match dir_component e with
  | [] => length (group_component e)
  | _ :: _ => length (dir_component e) + 1 + length (group_component e)
  end.

(** The mutexes a trace acquires, in order. *)
Fixpoint acquired (t : list event) : list mutex :=
  match t with
  | [] => []
  | E_mutex_lock m :: t' => m :: acquired t'
  | _ :: t' => acquired t'
  end.

Definition custom_ref (i : Z) : AssetLibraryReference :=
  {| type := ASSET_LIBRARY_CUSTOM; custom_library_index := i |}.

Definition index_lt (r1 r2 : AssetLibraryReference) : Prop :=
  (custom_library_index r1 < custom_library_index r2)%Z.

Section Notions.
Context {Other : Type} `{External}.

(** A computation that makes no call leaving the file. *)
Definition silent {A} (m : M Other A) : Prop := forall w, trace (m w) = [].

(** The operations of asset_library.cc that can make a call leaving the file
    or touch shared state, with their arguments.  Left out are the functions
    that only compute a value (the constructor,
    [AS_asset_library_find_suitable_root_path_from_path] and [_from_main],
    [catalog_service], [refresh_catalog_simplename], [library_type], [name],
    [root_path], [all_valid_asset_library_refs], [all_library_reference]) and
    [AssetLibrary::foreach_loaded], whose calls besides those on the service
    are the ones of the function it is given. *)
Inductive operation :=
| Op_AS_asset_libraries_exit
| Op_AS_asset_library_load_reference (bmain : Main) (r : AssetLibraryReference)
| Op_AS_asset_library_load (name library_dirpath : option (list ascii))
| Op_AS_asset_library_has_any_unsaved_catalogs
| Op_AS_asset_library_root_path_from_library_ref (r : AssetLibraryReference)
| Op_AS_asset_library_remap_ids (mappings : IDRemapper)
| Op_AS_asset_full_path_explode_from_weak_ref
    (r : AssetWeakReference) (buf : list ascii) (r_dir r_group r_name : out_ptr)
| Op_AssetLibrary_delete (lib : AssetLibrary)
| Op_load_catalogs (lib : AssetLibrary)
| Op_refresh_catalogs (lib : AssetLibrary)
| Op_add_external_asset (lib : AssetLibrary) (path name : list ascii) (id_type : Z)
                        (metadata : option (AssetMetaData Other))
| Op_add_local_id_asset (lib : AssetLibrary) (path : list ascii) (id : positive)
| Op_remove_asset (lib : AssetLibrary) (asset : ptr)
| Op_remap_ids_and_remove_invalid (lib : AssetLibrary) (mappings : IDRemapper)
| Op_on_blend_save_handler_register (lib : AssetLibrary)
| Op_on_blend_save_handler_unregister (lib : AssetLibrary)
| Op_on_blend_save_post (lib : AssetLibrary) (main : Main)
| Op_resolve_asset_weak_reference_to_full_path (r : AssetWeakReference)
| Op_all_library_reload_catalogs_if_dirty.

(** Runs a computation for its effects. *)
Definition void {A} (m : M Other A) : M Other unit := _ <- m ;; ret tt.

Definition run (op : operation) : M Other unit :=
  match op with
  | Op_AS_asset_libraries_exit => AS_asset_libraries_exit
  | Op_AS_asset_library_load_reference bmain r => void (AS_asset_library_load_reference bmain r)
  | Op_AS_asset_library_load name dirpath => void (AS_asset_library_load name dirpath)
  | Op_AS_asset_library_has_any_unsaved_catalogs => void AS_asset_library_has_any_unsaved_catalogs
  | Op_AS_asset_library_root_path_from_library_ref r =>
    void (AS_asset_library_root_path_from_library_ref r)
  | Op_AS_asset_library_remap_ids mappings => AS_asset_library_remap_ids mappings
  | Op_AS_asset_full_path_explode_from_weak_ref r buf r_dir r_group r_name =>
    void (AS_asset_full_path_explode_from_weak_ref r buf r_dir r_group r_name)
  | Op_AssetLibrary_delete lib => void (AssetLibrary_delete lib)
  | Op_load_catalogs lib => void (load_catalogs lib)
  | Op_refresh_catalogs lib => void (refresh_catalogs lib)
  | Op_add_external_asset lib path name id_type metadata =>
    void (add_external_asset lib path name id_type metadata)
  | Op_add_local_id_asset lib path id => void (add_local_id_asset lib path id)
  | Op_remove_asset lib asset => void (remove_asset lib asset)
  | Op_remap_ids_and_remove_invalid lib mappings =>
    void (remap_ids_and_remove_invalid lib mappings)
  | Op_on_blend_save_handler_register lib => void (on_blend_save_handler_register lib)
  | Op_on_blend_save_handler_unregister lib => void (on_blend_save_handler_unregister lib)
  | Op_on_blend_save_post lib main => void (on_blend_save_post lib main)
  | Op_resolve_asset_weak_reference_to_full_path r =>
    void (resolve_asset_weak_reference_to_full_path_static r)
  | Op_all_library_reload_catalogs_if_dirty => all_library_reload_catalogs_if_dirty
  end.

(** The representations the storage of a library holds a [shared_ptr] to. *)
Definition owned (lib : AssetLibrary) : gset ptr :=
  local_id_assets (storage_ lib) ∪ external_assets (storage_ lib).

(** The live object at an address. *)
Definition obj_at (w : World Other) (p : ptr) : option (AssetRepresentation Other) :=
  match heap w !! p with
  | Some b => object b
  | None => None
  end.

(** Every member of the storage is a live object counted by its control
    block, and no object is in both sets. *)
Definition storage_ok (lib : AssetLibrary) (w : World Other) : Prop :=
  local_id_assets (storage_ lib) ## external_assets (storage_ lib)
  /\ forall p, p ∈ owned lib ->
               exists b r, heap w !! p = Some b /\ 1 <= use_count b /\ object b = Some r.

(** The block of a newly added asset: one owner, the storage, and one weak
    pointer, the caller's. *)
Definition added_block (r : AssetRepresentation Other) : control_block Other :=
  {| use_count := 1; weak_count := 1; object := Some r |}.

(** Every object alive in [w'] was alive in [w], at the same address and with
    the same flag. *)
Definition flags_kept (w w' : World Other) : Prop :=
  forall p r', obj_at w' p = Some r' ->
               exists r, obj_at w p = Some r /\ is_local_id r' = is_local_id r.

Definition keeps_flags {A} (m : M Other A) : Prop := forall w, flags_kept w (world (m w)).

(** What the loop appends when it starts at index [i]. *)
Fixpoint valid_custom_refs (libs : list bUserAssetLibrary) (i : Z)
  : list AssetLibraryReference :=
  match libs with
  | [] => []
  | asset_library :: rest =>
    if BLI_is_dir (dirpath asset_library)
    then custom_ref i :: valid_custom_refs rest (int_add i 1)
    else valid_custom_refs rest (int_add i 1)
  end.

End Notions.

(** ** Concrete surroundings used to run the operations *)

Definition str (s : String.string) : list ascii := String.list_ascii_of_string s.

(** A catalog service that is a list of catalogs, a file system in which the
    paths starting with a slash are directories, and a service that resolves a
    weak reference by its library type: to an asset in a file on disk, to an
    asset of the current file, to an asset whose name has 1100 characters, or
    not at all. *)
Definition demo_external : External :=
  {| normalize_directory_path := fun p => p;
     BLI_is_dir := fun p => match p with c :: _ => Ascii.eqb c "/"%char | [] => false end;
     BLI_path_split_dir_part := fun p _ => p;
     BKE_preferences_asset_library_containing_path := fun _ _ => None;
     AssetCatalogService := list AssetCatalog;
     catalog_service_new := [];
     catalog_service_at := fun _ => [];
     load_from_disk := fun cs => cs;
     write_to_disk := fun cs _ => cs;
     find_catalog := fun cs id => List.find (fun c => N.eqb (cat_id c) id) cs;
     get_asset_library := fun _ _ => Some 1%positive;
     get_asset_library_current_file := Some 1%positive;
     get_asset_library_on_disk_custom := fun _ _ => Some 2%positive;
     has_any_unsaved_catalogs := false;
     root_path_from_library_ref := fun _ => [];
     resolve_asset_weak_reference_to_exploded_path := fun r =>
       match asset_library_type r with
       | ASSET_LIBRARY_CUSTOM =>
         Some {| full_path := str "/lib/a.blend/Material/Gold";
                 dir_component := str "/lib/a.blend";
                 group_component := str "Material";
                 name_component := str "Gold" |}
       | ASSET_LIBRARY_LOCAL =>
         Some {| full_path := str "Material/Gold";
                 dir_component := [];
                 group_component := str "Material";
                 name_component := str "Gold" |}
       | ASSET_LIBRARY_ESSENTIALS =>
         Some {| full_path := str "Material/" ++ repeat "a"%char 1100;
                 dir_component := [];
                 group_component := str "Material";
                 name_component := repeat "a"%char 1100 |}
       | ASSET_LIBRARY_ALL => None
       end;
     resolve_asset_weak_reference_to_full_path := fun _ => [] |}.

(** A library whose catalog service knows one catalog, with a simple name of
    70 characters. *)
Definition long_name_library : @AssetLibrary demo_external :=
  {| self := 1%positive; library_type_ := ASSET_LIBRARY_CUSTOM;
     name_ := str "lib"; root_path_ := str "/lib";
     catalog_service_ := ([ {| cat_id := 7%N; simple_name := repeat "n"%char 70 |} ]
                          : @AssetCatalogService demo_external);
     storage_ := {| external_assets := ∅; local_id_assets := ∅ |};
     on_save_callback_store_ := {| func := None; arg := None; alloc := false |} |}.

(** Metadata whose 64-character [catalog_simple_name] is still blank. *)
Definition blank_metadata (id : bUUID) : AssetMetaData unit :=
  {| catalog_id := id; catalog_simple_name := repeat NUL 64; md_other := tt |}.

Definition demo_world : @World unit demo_external :=
  {| heap := ∅; save_catalogs_when_file_is_saved := true;
     loaded_libraries := []; all_library := None |}.

Definition reference_of_type (t : eAssetLibraryType) : AssetWeakReference :=
  {| asset_library_type := t;
     asset_library_identifier := str "lib";
     relative_asset_identifier := str "a.blend/Material/Gold" |}.

Definition demo_prefs : UserDef :=
  {| asset_libraries :=
       [ {| ual_name := str "Props"; dirpath := str "/assets/props" |};
         {| ual_name := str "Gone"; dirpath := str "missing" |};
         {| ual_name := str "Trees"; dirpath := str "/assets/trees" |} ] |}.

End AssetSpec.

(** * Further notions for [glutil.c] *)

Module GlutilSpec.
Import CArith Glutil.
Local Open Scope Z_scope.

(** Image sizes for which the index arithmetic of the two loops stays inside
    [int]: [img_w * components] is an [int] product in the column offsets. *)
Definition image_in_range (a : draw_args) : Prop :=
  0 <= img_w a /\ 4 * img_w a <= INT_MAX /\ 0 <= img_h a <= INT_MAX - 255.

(** With [GL_UNPACK_ROW_LENGTH] at [img_w], an upload of [w] by [h] texels
    from element [d] of [rect] reads the pixels of columns [px .. px + w - 1]
    and rows [py .. py + h - 1], where [d = (py * img_w + px) * components].
    The upload stays inside the image when that rectangle does. *)
Definition reads_inside (img_w img_h comps : Z) (u : Z * Z * Z * Z * Z) : Prop :=
  let '(_, _, w, h, d) := u in
  exists px py,
    d = (py * img_w + px) * comps /\
    0 <= px /\ px + w <= img_w /\ 0 <= py /\ py + h <= img_h.

(** The tile [(w, h, d)] holds pixel [(px, py)] of an image [img_w] wide. *)
Definition covers (img_w comps : Z) (px py : Z) (tl : Z * Z * Z) : Prop :=
  let '(w, h, d) := tl in
  exists ox oy,
    d = (oy * img_w + ox) * comps /\ ox <= px < ox + w /\ oy <= py < oy + h.

(** ** The GL state a command list leaves behind *)

Definition row_length_of (c : gl_cmd) : option Z :=
  match c with
  | glPixelStorei pname v => if pname =? GL_UNPACK_ROW_LENGTH then Some v else None
  | _ => None
  end.

Definition texture_of (c : gl_cmd) : option Z :=
  match c with
  | glBindTexture target id => if target =? GL_TEXTURE_2D then Some id else None
  | _ => None
  end.

(** [Some true] when a program gets bound, [Some false] when it is unbound. *)
Definition program_of (c : gl_cmd) : option bool :=
  match c with
  | immBindProgram _ | immBindBuiltinProgram _ => Some true
  | immUnbindProgram => Some false
  | _ => None
  end.

(** The last value the commands recognised by [f] set, [init] when none does. *)
Definition left_at {B} (f : gl_cmd -> option B) (init : B) (cmds : list gl_cmd) : B :=
  List.last (pick f cmds) init.

Definition alloc_of (c : gl_cmd) : option Z :=
  match c with
  | glTexImage2D _ _ _ _ _ _ _ _ _ => Some 0
  | _ => None
  end.

Definition begin_of (c : gl_cmd) : option (Z * Z) :=
  match c with
  | immBegin prim n => Some (prim, n)
  | _ => None
  end.

Definition gen_of (c : gl_cmd) : option Z :=
  match c with
  | glGenTextures _ name => Some name
  | _ => None
  end.

(** The immediate-mode batching rules: [immBegin] opens a batch of a stated
    number of vertices, only outside a batch; attributes and vertices are
    issued inside one, a vertex only while some are still owed; [immEnd]
    closes a batch once all its vertices are in.  The state is the number of
    vertices still owed, [None] outside a batch; a step gives [None] when a
    rule is broken. *)
Inductive imm_kind := k_begin (vertex_ct : Z) | k_attrib | k_vertex | k_end | k_other.

Definition imm_step (st : option Z) (k : imm_kind) : option (option Z) :=
  match k, st with
  | k_begin n, None => Some (Some n)
  | k_begin _, Some _ => None
  | k_attrib, Some _ => Some st
  | k_attrib, None => None
  | k_vertex, Some owed => if 0 <? owed then Some (Some (owed - 1)) else None
  | k_vertex, None => None
  | k_end, Some owed => if owed =? 0 then Some None else None
  | k_end, None => None
  | k_other, _ => Some st
  end.

Fixpoint imm_run {C} (kind : C -> imm_kind) (st : option Z) (cmds : list C)
  : option (option Z) :=
  match cmds with
  | [] => Some st
  | c :: rest =>
    match imm_step st (kind c) with
    | Some st' => imm_run kind st' rest
    | None => None
    end
  end.

Definition gl_kind (c : gl_cmd) : imm_kind :=
  match c with
  | immBegin _ n => k_begin n
  | immAttrib2f _ _ _ => k_attrib
  | immVertex2f _ _ _ => k_vertex
  | immEnd => k_end
  | _ => k_other
  end.

Definition imm_protocol : option Z -> list gl_cmd -> option (option Z) := imm_run gl_kind.

(** A caller that draws several images in turn, each in the GL context of
    its time.  The static [texid] of [get_cached_work_texture] lives on from
    one call to the next. *)
Fixpoint draw_all (texid : Z) (calls : list (gl_context * draw_args)) : Z * list gl_cmd :=
  match calls with
  | [] => (texid, [])
  | (ctx, a) :: rest =>
    let r := immDrawPixelsTexScaled_clipping ctx texid a in
    let r' := draw_all (fst r) rest in
    (fst r', snd r ++ snd r')
  end.

End GlutilSpec.

(** * The remaining drawing helpers of [glutil.c] *)

Module GlutilDraw.
Import CArith Glutil GlutilSpec.
Local Open Scope Z_scope.

Definition GL_LINE_STRIP : Z := 0x0003.
Definition GL_TRIANGLES : Z := 0x0004.
(** Gawain's [PrimitiveType] values are the GL enumerants of the same name. *)
Definition PRIM_LINE_LOOP : Z := 0x0002.
Definition PRIM_TRIANGLE_FAN : Z := 0x0006.

(** Conversion of an [int] to [unsigned int]. *)
Definition wrap_uint (z : Z) : Z := z mod 2 ^ 32.

Definition fsub (a b : float) : float := SFsub f_prec f_emax a b.

(** binary64, for the sub-expressions that involve [M_PI]. *)
Definition double : Type := spec_float.
Definition d_prec : Z := 53.
Definition d_emax : Z := 1024.
Definition dmul (a b : double) : double := SFmul d_prec d_emax a b.
Definition double_of_int (n : Z) : double := binary_normalize d_prec d_emax n 0 false.
(** Every binary32 value is a binary64 value. *)
Definition double_of_float (f : float) : double := f.
(** Assignment of a [double] to a [float] rounds to nearest even. *)
Definition float_of_double (d : double) : float :=
  match d with
  | S754_finite s m e => binary_round f_prec f_emax s m e
  | _ => d
  end.
(** [M_PI], 0x400921FB54442D18. *)
Definition M_PI : double := S754_finite false 7074237752028440 (-51).

Definition float3 : Type := float * float * float.

(** The calls of this part of the file that [gl_cmd] does not have. *)
Inductive draw_cmd :=
| gl (c : gl_cmd)
| immVertex3f (attrib : Z) (x y z : float)
| immVertex3fv (attrib : Z) (v : float3)
| immAttrib3fv (attrib : Z) (v : float3)
| immUniformColor3ub (r g b : Z)
| glColor3ub (r g b : Z).

Definition draw_kind (c : draw_cmd) : imm_kind :=
  match c with
  | gl c => gl_kind c
  | immVertex3f _ _ _ _ | immVertex3fv _ _ => k_vertex
  | immAttrib3fv _ _ => k_attrib
  | _ => k_other
  end.

(** [imm_cpack] and [cpack]; [x] is an [unsigned int]. *)
Definition imm_cpack (x : Z) : list draw_cmd :=
  [ immUniformColor3ub (Z.land x 0xFF)
                       (Z.land (Z.shiftr x 8) 0xFF)
                       (Z.land (Z.shiftr x 16) 0xFF) ].

Definition cpack (x : Z) : list draw_cmd :=
  [ glColor3ub (Z.land x 0xFF)
               (Z.land (Z.shiftr x 8) 0xFF)
               (Z.land (Z.shiftr x 16) 0xFF) ].

Section LibM.
(** [cosf] and [sinf] of the C library, and the two vector helpers of
    [BLI_math_vector] used by [imm_cylinder]. *)
Variables cosf sinf : float -> float.
Variable sub_v3_v3v3 : float3 -> float3 -> float3.
Variable normalize_v3 : float3 -> float3.

(** [cur] of the arc loops: [t = (float)i / (nsegments - 1)],
    [cur = start + t * angle]. *)
Definition arc_angle (start angle : float) (nsegments i : Z) : float :=
  let t := fdiv (float_of_int i) (float_of_int (int_sub nsegments 1)) in
  fadd start (fmul t angle).

Definition arc_vertex (start angle radius : float) (nsegments i : Z) : gl_cmd :=
  let cur := arc_angle start angle nsegments i in
  glVertex2f (fmul (cosf cur) radius) (fmul (sinf cur) radius).

Definition glutil_draw_filled_arc (start angle radius : float) (nsegments : Z)
  : list gl_cmd :=
  [ glBegin GL_TRIANGLE_FAN; glVertex2f f_zero f_zero ]
  ++ map (arc_vertex start angle radius nsegments) (for_range nsegments)
  ++ [ glEnd ].

Definition glutil_draw_lined_arc (start angle radius : float) (nsegments : Z)
  : list gl_cmd :=
  [ glBegin GL_LINE_STRIP ]
  ++ map (arc_vertex start angle radius nsegments) (for_range nsegments)
  ++ [ glEnd ].

(** [2 * M_PI * ((float)i / (float)n)], computed in [double] and stored in
    a [float]. *)
Definition circle_angle (i n : Z) : float :=
  float_of_double
    (dmul (dmul (double_of_int 2) M_PI)
          (double_of_float (fdiv (float_of_int i) (float_of_int n)))).

Definition imm_draw_circle (prim_type pos : Z) (x y rad : float) (nsegments : Z)
  : list gl_cmd :=
  [ immBegin prim_type (wrap_uint nsegments) ]
  ++ map (fun i =>
            let angle := circle_angle i nsegments in
            immVertex2f pos (fadd x (fmul rad (cosf angle)))
                            (fadd y (fmul rad (sinf angle))))
         (for_range nsegments)
  ++ [ immEnd ].

Definition imm_draw_lined_circle (pos : Z) (x y rad : float) (nsegments : Z) :=
  imm_draw_circle PRIM_LINE_LOOP pos x y rad nsegments.

Definition imm_draw_filled_circle (pos : Z) (x y rad : float) (nsegments : Z) :=
  imm_draw_circle PRIM_TRIANGLE_FAN pos x y rad nsegments.

Definition imm_draw_lined_circle_3D (pos : Z) (x y rad : float) (nsegments : Z)
  : list draw_cmd :=
  [ gl (immBegin PRIM_LINE_LOOP (wrap_uint nsegments)) ]
  ++ map (fun i =>
            let angle := circle_angle i nsegments in
            immVertex3f pos (fadd x (fmul rad (cosf angle)))
                            (fadd y (fmul rad (sinf angle))) f_zero)
         (for_range nsegments)
  ++ [ gl immEnd ].

(** One iteration of the inner loop of [imm_cylinder]. *)
Definition cylinder_quad (pos nor : Z) (base top height : float) (stacks : Z)
           (cos1 sin1 cos2 sin2 : float) (j : Z) : list draw_cmd :=
  let fac1 := fdiv (float_of_int j) (float_of_int stacks) in
  let fac2 := fdiv (float_of_int (int_add j 1)) (float_of_int stacks) in
  let r1 := fadd (fmul base (fsub f_one fac1)) (fmul top fac1) in
  let r2 := fadd (fmul base (fsub f_one fac2)) (fmul top fac2) in
  let h1 := fmul height (fdiv (float_of_int j) (float_of_int stacks)) in
  let h2 := fmul height (fdiv (float_of_int (int_add j 1)) (float_of_int stacks)) in
  let v1 : float3 := (fmul r1 cos2, fmul r1 sin2, h1) in
  let v2 : float3 := (fmul r2 cos2, fmul r2 sin2, h2) in
  let v3 : float3 := (fmul r2 cos1, fmul r2 sin1, h2) in
  let v4 : float3 := (fmul r1 cos1, fmul r1 sin1, h1) in
  let n1 : float3 :=
    (cos1, sin1, fsub (float_of_int 1) (snd (normalize_v3 (sub_v3_v3v3 v2 v1)))) in
  let n2 : float3 :=
    (cos2, sin2, fsub (float_of_int 1) (snd (normalize_v3 (sub_v3_v3v3 v3 v4)))) in
  [ immAttrib3fv nor n2;
    immVertex3fv pos v1;
    immVertex3fv pos v2;
    immAttrib3fv nor n1;
    immVertex3fv pos v3;
    immVertex3fv pos v3;
    immVertex3fv pos v4;
    immAttrib3fv nor n2;
    immVertex3fv pos v1 ].

Definition imm_cylinder (pos nor : Z) (base top height : float) (slices stacks : Z)
  : list draw_cmd :=
  [ gl (immBegin GL_TRIANGLES (wrap_uint (int_mul (int_mul 6 slices) stacks))) ]
  ++ flat_map
       (fun i =>
          let angle1 := circle_angle i slices in
          let angle2 := circle_angle (int_add i 1) slices in
          let cos1 := cosf angle1 in
          let sin1 := sinf angle1 in
          let cos2 := cosf angle2 in
          let sin2 := sinf angle2 in
          flat_map (cylinder_quad pos nor base top height stacks cos1 sin1 cos2 sin2)
                   (for_range stacks))
       (for_range slices)
  ++ [ gl immEnd ].

End LibM.

(** ** Drawing an image buffer *)

(** [IMAGE_DRAW_METHOD_GLSL] of [DNA_userdef_types.h]. *)
Definition IMAGE_DRAW_METHOD_GLSL : Z := 1.

(** The fields of [ImBuf] the routine reads; [None] is a [NULL] pointer. *)
Record ImBuf := {
  ib_x : Z; ib_y : Z;
  channels : Z;
  rect : option Z;
  rect_float : option Z;
  float_colorspace : option Z;
  rect_colorspace : option Z;
  dither : float
}.

(** What the routine reads from [U] and gets back from the colour
    management module. *)
Record imb_env := {
  image_draw_method : Z;
  setup_glsl_draw_from_space : option Z -> float -> bool -> Z;
  setup_glsl_draw : float -> bool -> Z;
  display_buffer : option Z
}.

(** Which buffer is handed to [immDrawPixelsTex_clipping]. *)
Inductive pixel_source := of_rect_float | of_rect | of_display_buffer.

Inductive imbuf_cmd :=
| IMB_colormanagement_display_settings_from_ctx
| IMB_colormanagement_setup_glsl_draw_from_space
    (view_settings display_settings : Z) (colorspace : option Z) (dither : float)
    (predivide : bool)
| IMB_colormanagement_setup_glsl_draw
    (view_settings display_settings : Z) (dither : float) (predivide : bool)
| IMB_colormanagement_finish_glsl_draw
| IMB_display_buffer_acquire (view_settings display_settings : Z)
| IMB_display_buffer_release
| GPU_shader_unbind
| draw_pixels (src : pixel_source) (format type : Z) (cmds : list gl_cmd).

Section ImBufDraw.
(** What the colour management module answers, and the GL context at the
    time of a draw: the one the GLSL set-up leaves, and the one after
    [GPU_shader_unbind]. *)
Variables (env : imb_env) (ctx_glsl ctx_fallback : gl_context).

(** The call [immDrawPixelsTex_clipping(x, y, ibuf->x, ibuf->y, format, type,
    zoomfilter, buffer, clip..., zoom_x, zoom_y, NULL)]. *)
Definition draw_buffer (ctx : gl_context) (texid : Z) (ibuf : ImBuf) (src : pixel_source)
           (x y : float) (format type zoomfilter : Z)
           (clip_min_x clip_min_y clip_max_x clip_max_y zoom_x zoom_y : float)
  : Z * list imbuf_cmd :=
  let r := immDrawPixelsTex_clipping ctx texid x y (ib_x ibuf) (ib_y ibuf) format type
             zoomfilter clip_min_x clip_min_y clip_max_x clip_max_y zoom_x zoom_y None in
  (fst r, [ draw_pixels src format type (snd r) ]).

(** The GLSL attempt: [(ok, texid, calls)]. *)
Definition glsl_draw (texid : Z) (ibuf : ImBuf) (x y : float) (zoomfilter : Z)
           (view_settings display_settings : Z)
           (clip_min_x clip_min_y clip_max_x clip_max_y zoom_x zoom_y : float)
  : bool * Z * list imbuf_cmd :=
  let '(ok, setup) :=
    match rect_float ibuf with
    | Some _ =>
      match float_colorspace ibuf with
      | Some cs =>
        (setup_glsl_draw_from_space env (Some cs) (dither ibuf) true,
         IMB_colormanagement_setup_glsl_draw_from_space
           view_settings display_settings (Some cs) (dither ibuf) true)
      | None =>
        (setup_glsl_draw env (dither ibuf) true,
         IMB_colormanagement_setup_glsl_draw view_settings display_settings
           (dither ibuf) true)
      end
    | None =>
      (setup_glsl_draw_from_space env (rect_colorspace ibuf) (dither ibuf) false,
       IMB_colormanagement_setup_glsl_draw_from_space
         view_settings display_settings (rect_colorspace ibuf) (dither ibuf) false)
    end in
  if c_true ok then
    let '(texid', drawn) :=
      match rect_float ibuf, rect ibuf with
      | Some _, _ =>
        let format :=
          if channels ibuf =? 3 then GL_RGB
          else if channels ibuf =? 4 then GL_RGBA
          else 0 in
        if negb (format =? 0) then
          draw_buffer ctx_glsl texid ibuf of_rect_float x y format GL_FLOAT zoomfilter
                      clip_min_x clip_min_y clip_max_x clip_max_y zoom_x zoom_y
        else (texid, [])
      | None, Some _ =>
        draw_buffer ctx_glsl texid ibuf of_rect x y GL_RGBA GL_UNSIGNED_BYTE zoomfilter
                    clip_min_x clip_min_y clip_max_x clip_max_y zoom_x zoom_y
      | None, None => (texid, [])
      end in
    (true, texid', setup :: drawn ++ [ IMB_colormanagement_finish_glsl_draw ])
  else (false, texid, [ setup ]).

Definition glaDrawImBuf_glsl_clipping (texid : Z) (ibuf : ImBuf) (x y : float)
           (zoomfilter : Z) (view_settings display_settings : Z)
           (clip_min_x clip_min_y clip_max_x clip_max_y zoom_x zoom_y : float)
  : Z * list imbuf_cmd :=
  match rect ibuf, rect_float ibuf with
  | None, None => (texid, [])
  | _, _ =>
    let force_fallback :=
      (channels ibuf =? 1) || negb (image_draw_method env =? IMAGE_DRAW_METHOD_GLSL) in
    let '(done, texid1, tried) :=
      if negb force_fallback then
        glsl_draw texid ibuf x y zoomfilter view_settings display_settings
                  clip_min_x clip_min_y clip_max_x clip_max_y zoom_x zoom_y
      else (false, texid, []) in
    if negb done then
      let '(texid2, drawn) :=
        match display_buffer env with
        | Some _ =>
          let r := draw_buffer ctx_fallback texid1 ibuf of_display_buffer x y GL_RGBA GL_UNSIGNED_BYTE
                     zoomfilter clip_min_x clip_min_y clip_max_x clip_max_y
                     zoom_x zoom_y in
          (fst r, GPU_shader_unbind :: snd r)
        | None => (texid1, [])
        end in
      (texid2,
       tried ++ IMB_display_buffer_acquire view_settings display_settings
             :: drawn ++ [ IMB_display_buffer_release ])
    else (texid1, tried)
  end.

Definition glaDrawImBuf_glsl (texid : Z) (ibuf : ImBuf) (x y : float) (zoomfilter : Z)
           (view_settings display_settings : Z) (zoom_x zoom_y : float) :=
  glaDrawImBuf_glsl_clipping texid ibuf x y zoomfilter view_settings display_settings
                             f_zero f_zero f_zero f_zero zoom_x zoom_y.

(** [IMB_colormanagement_display_settings_from_ctx] fills in the two
    settings pointers from the context. *)
Definition glaDrawImBuf_glsl_ctx_clipping (settings_from_ctx : Z * Z)
           (texid : Z) (ibuf : ImBuf) (x y : float) (zoomfilter : Z)
           (clip_min_x clip_min_y clip_max_x clip_max_y zoom_x zoom_y : float)
  : Z * list imbuf_cmd :=
  let r := glaDrawImBuf_glsl_clipping texid ibuf x y zoomfilter
             (fst settings_from_ctx) (snd settings_from_ctx)
             clip_min_x clip_min_y clip_max_x clip_max_y zoom_x zoom_y in
  (fst r, IMB_colormanagement_display_settings_from_ctx :: snd r).

Definition glaDrawImBuf_glsl_ctx (settings_from_ctx : Z * Z)
           (texid : Z) (ibuf : ImBuf) (x y : float) (zoomfilter : Z)
           (zoom_x zoom_y : float) :=
  glaDrawImBuf_glsl_ctx_clipping settings_from_ctx texid ibuf x y zoomfilter
                                 f_zero f_zero f_zero f_zero zoom_x zoom_y.

End ImBufDraw.

(** ** Observations on the calls of the image-buffer routines *)

Definition is_setup (c : imbuf_cmd) : bool :=
  match c with
  | IMB_colormanagement_setup_glsl_draw_from_space _ _ _ _ _
  | IMB_colormanagement_setup_glsl_draw _ _ _ _ => true
  | _ => false
  end.
Definition is_finish (c : imbuf_cmd) : bool :=
  match c with IMB_colormanagement_finish_glsl_draw => true | _ => false end.
Definition is_acquire (c : imbuf_cmd) : bool :=
  match c with IMB_display_buffer_acquire _ _ => true | _ => false end.
Definition is_release (c : imbuf_cmd) : bool :=
  match c with IMB_display_buffer_release => true | _ => false end.
Definition is_draw (c : imbuf_cmd) : bool :=
  match c with draw_pixels _ _ _ _ => true | _ => false end.

Definition count (p : imbuf_cmd -> bool) (calls : list imbuf_cmd) : nat :=
  length (List.filter p calls).

(** The two ways an image buffer gets drawn, as shapes of the call list.
    The GLSL path: a set-up call comes first, the finish call last, and
    between them nothing but the draw. *)
Definition glsl_path (calls : list imbuf_cmd) : Prop :=
  exists setup drawn,
    calls = setup :: drawn ++ [ IMB_colormanagement_finish_glsl_draw ]
    /\ is_setup setup = true
    /\ Forall (fun c => is_draw c = true) drawn.

(** The fallback: after at most a set-up that failed, the display buffer is
    acquired, drawn with no shader bound if there is one, and released. *)
Definition fallback_path (view_settings display_settings : Z) (calls : list imbuf_cmd)
  : Prop :=
  exists tried drawn,
    calls = tried ++ IMB_display_buffer_acquire view_settings display_settings
                  :: drawn ++ [ IMB_display_buffer_release ]
    /\ Forall (fun c => is_setup c = true) tried
    /\ (drawn = [] \/ exists d, drawn = [ GPU_shader_unbind; d ] /\ is_draw d = true).

(** Image sizes for which the index arithmetic of the drawing routine stays
    inside [int]. *)
Definition imbuf_in_range (ibuf : ImBuf) : Prop :=
  0 <= ib_x ibuf /\ 4 * ib_x ibuf <= INT_MAX /\ 0 <= ib_y ibuf <= INT_MAX - 255.

(** A two-channel float image, with the user preference set to GLSL and a
    colour management module that accepts every set-up. *)
Definition glsl_env : imb_env :=
  {| image_draw_method := IMAGE_DRAW_METHOD_GLSL;
     setup_glsl_draw_from_space := fun _ _ _ => 1;
     setup_glsl_draw := fun _ _ => 1;
     display_buffer := Some 1 |}.

Definition two_channel_image : ImBuf :=
  {| ib_x := 16; ib_y := 16; channels := 2;
     rect := None; rect_float := Some 1;
     float_colorspace := None; rect_colorspace := None;
     dither := f_zero |}.

Definition byte_image : ImBuf :=
  {| ib_x := 16; ib_y := 16; channels := 4;
     rect := Some 1; rect_float := None;
     float_colorspace := None; rect_colorspace := None;
     dither := f_zero |}.

End GlutilDraw.

(** * Further notions for the asset storage *)

Module AssetStorageSpec.
Import CArith AssetSystem AssetSpec.

Section Notions.
Context {Other : Type} `{External}.

(** [result == ID_REMAP_RESULT_SOURCE_UNASSIGNED] *)
Definition is_unassigned (res : IDRemapperApplyResult) : bool :=
  match res with ID_REMAP_RESULT_SOURCE_UNASSIGNED => true | _ => false end.

(** Whether the remapper reports the ID of the asset at [p] as unassigned. *)
Definition unassigned (mappings : IDRemapper) (w : World Other) (p : ptr) : bool :=
  match obj_at w p with
  | Some asset => is_unassigned (fst (mappings (wrapped_id asset)))
  | None => false
  end.

(** The block of a live asset once the remapper has been applied to it. *)
Definition remapped (mappings : IDRemapper) (b : control_block Other) : control_block Other :=
  match object b with
  | Some asset =>
    {| use_count := use_count b; weak_count := weak_count b;
       object := Some (set_local_asset_id asset (snd (mappings (wrapped_id asset)))) |}
  | None => b
  end.

(** The calls that change the storage of a library, as data. *)
Inductive storage_call :=
| Call_add_external_asset (path name : list ascii) (id_type : Z)
                          (metadata : option (AssetMetaData Other))
| Call_add_local_id_asset (path : list ascii) (id : positive)
| Call_remove_asset (asset : ptr)
| Call_remap_ids_and_remove_invalid (mappings : IDRemapper).

Definition storage_step (lib : AssetLibrary) (c : storage_call) : M Other AssetLibrary :=
  match c with
  | Call_add_external_asset path name id_type metadata =>
    r <- add_external_asset lib path name id_type metadata ;; ret (snd r)
  | Call_add_local_id_asset path id =>
    r <- add_local_id_asset lib path id ;; ret (snd r)
  | Call_remove_asset asset =>
    r <- remove_asset lib asset ;; ret (snd r)
  | Call_remap_ids_and_remove_invalid mappings => remap_ids_and_remove_invalid lib mappings
  end.

Fixpoint storage_steps (lib : AssetLibrary) (cs : list storage_call) : M Other AssetLibrary :=
  match cs with
  | [] => ret lib
  | c :: rest => lib' <- storage_step lib c ;; storage_steps lib' rest
  end.

(** [lib'] is [lib] with some local-ID assets gone and nothing else changed. *)
Definition shrunk (lib lib' : AssetLibrary) : Prop :=
  lib' = set_storage lib (storage_ lib')
  /\ external_assets (storage_ lib') = external_assets (storage_ lib)
  /\ local_id_assets (storage_ lib') ⊆ local_id_assets (storage_ lib).

(** The same for a library that may not be there. *)
Definition shrunk_opt (lib lib' : option AssetLibrary) : Prop :=
  match lib, lib' with
  | Some l, Some l' => shrunk l l'
  | None, None => True
  | _, _ => False
  end.

End Notions.

(** A new library to which one asset of the current file has been added. *)
Definition one_local_asset : @AssetLibrary demo_external * @World unit demo_external * list event :=
  storage_steps (AssetLibrary_new 1%positive ASSET_LIBRARY_CUSTOM (str "lib") (str "/lib"))
                [ Call_add_local_id_asset (str "Material/Gold") 5%positive ] demo_world.

(** A remapper that unassigns every ID. *)
Definition unassign_all : IDRemapper := fun _ => (ID_REMAP_RESULT_SOURCE_UNASSIGNED, None).

End AssetStorageSpec.

(* ===================================================================== *)
(** * Properties of the pixel drawing routines *)
(* ===================================================================== *)

Module GlutilFacts.
Import CArith Glutil.
Local Open Scope Z_scope.

Lemma wrap_int_id z : in_int z -> wrap_int z = z.
Proof.
  unfold in_int, INT_MIN, INT_MAX, wrap_int. intros Hz.
  rewrite Z.mod_small; lia.
Qed.

Lemma wrap_size_id z : 0 <= z < 2 ^ 64 -> wrap_size z = z.
Proof. unfold wrap_size. intros Hz. now apply Z.mod_small. Qed.

Lemma in_for_range i n : In i (for_range n) <-> 0 <= i < n.
Proof.
  unfold for_range. rewrite in_map_iff. split.
  - intros (k & <- & Hk). apply in_seq in Hk. lia.
  - intros Hi. exists (Z.to_nat i). split; [lia|]. apply in_seq. lia.
Qed.

Lemma for_range_nonpos n : n <= 0 -> for_range n = [].
Proof.
  intros Hn. unfold for_range.
  replace (Z.to_nat n) with 0%nat by lia. reflexivity.
Qed.

Lemma for_range_cons n : 0 < n -> for_range n = 0 :: map Z.succ (for_range (n - 1)).
Proof.
  intros Hn. unfold for_range.
  replace (Z.to_nat n) with (S (Z.to_nat (n - 1))) by lia.
  rewrite <- cons_seq, <- seq_shift. cbn [map]. f_equal.
  rewrite !map_map. apply map_ext. intros k. lia.
Qed.

Lemma flat_map_agree {A B} (f g : A -> list B) l :
  (forall i, In i l -> f i = g i) -> flat_map f l = flat_map g l.
Proof.
  induction l as [|i l IH]; intros Hfg; cbn; [reflexivity|].
  rewrite Hfg by (now left). rewrite IH; [reflexivity|].
  intros j Hj. apply Hfg. now right.
Qed.

Lemma pick_app {A B} (f : A -> option B) l1 l2 :
  pick f (l1 ++ l2) = pick f l1 ++ pick f l2.
Proof.
  induction l1 as [|c l1 IH]; cbn; [reflexivity|].
  destruct (f c); cbn; now rewrite IH.
Qed.

Lemma pick_flat_map {A B C} (f : B -> option C) (g : A -> list B) l :
  pick f (flat_map g l) = flat_map (fun i => pick f (g i)) l.
Proof.
  induction l as [|i l IH]; cbn; [reflexivity|].
  now rewrite pick_app, IH.
Qed.

Lemma map_flat_map {A B C} (f : B -> C) (g : A -> list B) l :
  map f (flat_map g l) = flat_map (fun i => map f (g i)) l.
Proof.
  induction l as [|i l IH]; cbn; [reflexivity|].
  now rewrite map_app, IH.
Qed.

(** ceiling division against the code's [(a + (b - 1)) / b] *)
Lemma ceil_div_quot a b : 0 <= a -> 0 < b -> Z.quot (a + (b - 1)) b = ceil_div a b.
Proof.
  intros Ha Hb. unfold ceil_div.
  rewrite Z.quot_div_nonneg by lia.
  pose proof (Z.div_mod (a + (b - 1)) b ltac:(lia)) as H1.
  pose proof (Z.mod_pos_bound (a + (b - 1)) b Hb) as H2.
  pose proof (Z.div_mod (- a) b ltac:(lia)) as H3.
  pose proof (Z.mod_pos_bound (- a) b Hb) as H4.
  nia.
Qed.

Lemma ceil_div_small a b : 1 <= a <= b -> ceil_div a b = 1.
Proof.
  intros Ha. unfold ceil_div.
  pose proof (Z.div_mod (- a) b ltac:(lia)) as H3.
  pose proof (Z.mod_pos_bound (- a) b ltac:(lia)) as H4.
  nia.
Qed.

Lemma ceil_div_lt a b k : 0 < b -> k < ceil_div a b -> k * b < a.
Proof.
  unfold ceil_div. intros Hb Hk.
  pose proof (Z.div_mod (- a) b ltac:(lia)) as H3.
  pose proof (Z.mod_pos_bound (- a) b Hb) as H4.
  nia.
Qed.

(** ** The locals computed before the loops *)

Section Tiling.
Variable a : draw_args.
Let t := tiling_of tex_w tex_h (img_w a) (img_h a).

Lemma tiling_seamless : seamless t = if oversized a then 2 else 0.
Proof.
  subst t. unfold tiling_of, oversized. cbn [seamless].
  change (2 <? tex_w) with true. change (2 <? tex_h) with true.
  now rewrite !andb_true_r.
Qed.

Lemma tiling_seamless_cases : seamless t = 0 \/ seamless t = 2.
Proof. rewrite tiling_seamless. destruct (oversized a); auto. Qed.

Lemma tiling_offset_x : offset_x t = tex_w - seamless t.
Proof.
  pose proof tiling_seamless_cases as Hs. subst t.
  unfold tiling_of in *. cbn [offset_x seamless] in *.
  unfold int_sub, tex_w in *. apply wrap_int_id. unfold in_int, INT_MIN, INT_MAX. lia.
Qed.

Lemma tiling_offset_y : offset_y t = tex_h - seamless t.
Proof.
  pose proof tiling_seamless_cases as Hs. subst t.
  unfold tiling_of in *. cbn [offset_y seamless] in *.
  unfold int_sub, tex_h in *. apply wrap_int_id. unfold in_int, INT_MIN, INT_MAX. lia.
Qed.

Lemma tiling_nsubparts_x :
  0 <= img_w a <= INT_MAX - 255 -> nsubparts_x t = ceil_div (img_w a) (tex_w - seamless t).
Proof.
  intros Hw. pose proof tiling_offset_x as Ho. pose proof tiling_seamless_cases as Hs.
  assert (nsubparts_x t
          = int_div (int_add (img_w a) (int_sub (offset_x t) 1)) (offset_x t)) as -> by reflexivity.
  rewrite Ho. unfold tex_w, INT_MAX in *.
  unfold int_div, int_add, int_sub.
  rewrite (wrap_int_id (256 - seamless t - 1)) by (unfold in_int, INT_MIN, INT_MAX; lia).
  rewrite (wrap_int_id (img_w a + _)) by (unfold in_int, INT_MIN, INT_MAX; lia).
  rewrite ceil_div_quot by lia.
  apply wrap_int_id. unfold in_int, INT_MIN, INT_MAX, ceil_div.
  pose proof (Z.div_mod (- img_w a) (256 - seamless t) ltac:(lia)) as H3.
  pose proof (Z.mod_pos_bound (- img_w a) (256 - seamless t) ltac:(lia)) as H4.
  nia.
Qed.

Lemma tiling_nsubparts_y :
  0 <= img_h a <= INT_MAX - 255 -> nsubparts_y t = ceil_div (img_h a) (tex_h - seamless t).
Proof.
  intros Hw. pose proof tiling_offset_y as Ho. pose proof tiling_seamless_cases as Hs.
  assert (nsubparts_y t
          = int_div (int_add (img_h a) (int_sub (offset_y t) 1)) (offset_y t)) as -> by reflexivity.
  rewrite Ho. unfold tex_h, INT_MAX in *.
  unfold int_div, int_add, int_sub.
  rewrite (wrap_int_id (256 - seamless t - 1)) by (unfold in_int, INT_MIN, INT_MAX; lia).
  rewrite (wrap_int_id (img_h a + _)) by (unfold in_int, INT_MIN, INT_MAX; lia).
  rewrite ceil_div_quot by lia.
  apply wrap_int_id. unfold in_int, INT_MIN, INT_MAX, ceil_div.
  pose proof (Z.div_mod (- img_h a) (256 - seamless t) ltac:(lia)) as H3.
  pose proof (Z.mod_pos_bound (- img_h a) (256 - seamless t) ltac:(lia)) as H4.
  nia.
Qed.

(** ** One iteration of the inner loop *)

Variables (sx sy : Z).
Let s := subpart_of a tex_w tex_h t sx sy.

Lemma subpart_w_min :
  0 <= img_w a <= INT_MAX - 255 -> 0 <= sx < nsubparts_x t ->
  subpart_w s = Z.min (img_w a - sx * (tex_w - seamless t)) tex_w.
Proof.
  intros Hw Hsx. rewrite tiling_nsubparts_x in Hsx by assumption.
  pose proof tiling_seamless_cases as Hs.
  assert (sx * (tex_w - seamless t) < img_w a) as Hlt
    by (apply ceil_div_lt; [unfold tex_w; lia | apply Hsx]).
  subst s. unfold subpart_of. cbn [subpart_w]. rewrite tiling_offset_x.
  unfold int_sub, int_mul. unfold tex_w, INT_MAX in *.
  rewrite (wrap_int_id (sx * _)) by (unfold in_int, INT_MIN, INT_MAX; nia).
  rewrite wrap_int_id by (unfold in_int, INT_MIN, INT_MAX; nia).
  destruct (Z.ltb_spec (img_w a - sx * (256 - seamless t)) 256); lia.
Qed.

Lemma subpart_h_min :
  0 <= img_h a <= INT_MAX - 255 -> 0 <= sy < nsubparts_y t ->
  subpart_h s = Z.min (img_h a - sy * (tex_h - seamless t)) tex_h.
Proof.
  intros Hw Hsx. rewrite tiling_nsubparts_y in Hsx by assumption.
  pose proof tiling_seamless_cases as Hs.
  assert (sy * (tex_h - seamless t) < img_h a) as Hlt
    by (apply ceil_div_lt; [unfold tex_h; lia | apply Hsx]).
  subst s. unfold subpart_of. cbn [subpart_h]. rewrite tiling_offset_y.
  unfold int_sub, int_mul. unfold tex_h, INT_MAX in *.
  rewrite (wrap_int_id (sy * _)) by (unfold in_int, INT_MIN, INT_MAX; nia).
  rewrite wrap_int_id by (unfold in_int, INT_MIN, INT_MAX; nia).
  destruct (Z.ltb_spec (img_h a - sy * (256 - seamless t)) 256); lia.
Qed.

End Tiling.

Lemma subpart_w_le a tw th t sx sy : subpart_w (subpart_of a tw th t sx sy) <= tw.
Proof.
  unfold subpart_of. cbn [subpart_w].
  destruct (Z.ltb_spec (int_sub (img_w a) (int_mul sx (offset_x t))) tw); lia.
Qed.

Lemma subpart_h_le a tw th t sx sy : subpart_h (subpart_of a tw th t sx sy) <= th.
Proof.
  unfold subpart_of. cbn [subpart_h].
  destruct (Z.ltb_spec (int_sub (img_h a) (int_mul sy (offset_y t))) th); lia.
Qed.

(** ** Uploads and tiles of one iteration *)

Lemma tile_of_off_origin tg lv xo yo w h f ty d :
  xo <> 0 \/ yo <> 0 -> tile_of (glTexSubImage2D tg lv xo yo w h f ty d) = None.
Proof. intros H. destruct xo, yo; try reflexivity. lia. Qed.

Lemma tiles_upload_subpart a tw th t comps sx sy s :
  0 < subpart_w s -> 0 < subpart_h s ->
  tiles (upload_subpart a tw th t comps sx sy s)
  = [(subpart_w s, subpart_h s, size_add (row_base a t comps sy) (col_first t comps sx))].
Proof.
  intros Hw Hh. unfold upload_subpart, tiles.
  destruct (subpart_w s <? tw), (subpart_h s <? th); cbn [andb app pick];
    rewrite ?(tile_of_off_origin _ _ (subpart_w s)) by lia;
    rewrite ?(tile_of_off_origin _ _ 0 (subpart_h s)) by lia; reflexivity.
Qed.

Lemma tiles_imm_quad a tw th s : tiles (imm_quad a tw th s) = [].
Proof. reflexivity. Qed.

Lemma uploads_imm_quad a tw th s : uploads (imm_quad a tw th s) = [].
Proof. reflexivity. Qed.

Lemma tiles_imm_subpart a t comps sx sy :
  0 <= seamless t ->
  tiles (imm_subpart a tex_w tex_h t comps sx sy)
  = let s := subpart_of a tex_w tex_h t sx sy in
    if (seamless t <? subpart_w s) && (seamless t <? subpart_h s) && negb (clipped_out a s)
    then [(subpart_w s, subpart_h s,
           size_add (row_base a t comps sy) (col_first t comps sx))]
    else [].
Proof.
  intros Hs. cbv zeta. unfold imm_subpart.
  set (s := subpart_of a tex_w tex_h t sx sy).
  destruct (Z.leb_spec (subpart_w s) (seamless t)) as [Hw|Hw];
    destruct (Z.leb_spec (subpart_h s) (seamless t)) as [Hh|Hh];
    destruct (Z.ltb_spec (seamless t) (subpart_w s));
    destruct (Z.ltb_spec (seamless t) (subpart_h s)); try lia; cbn [orb andb]; try reflexivity.
  destruct (clipped_out a s); cbn [negb]; [reflexivity|].
  unfold tiles. rewrite pick_app. fold (tiles (imm_quad a tex_w tex_h s)).
  rewrite tiles_imm_quad, app_nil_r. apply tiles_upload_subpart; lia.
Qed.

Lemma uploads_imm_subpart_fit a t comps sx sy u :
  0 <= seamless t ->
  In u (uploads (imm_subpart a tex_w tex_h t comps sx sy)) -> fits_work_texture u.
Proof.
  intros Hs. unfold imm_subpart.
  pose proof (subpart_w_le a tex_w tex_h t sx sy) as Hwle.
  pose proof (subpart_h_le a tex_w tex_h t sx sy) as Hhle.
  set (s := subpart_of a tex_w tex_h t sx sy) in *.
  destruct (Z.leb_spec (subpart_w s) (seamless t)) as [Hw|Hw]; [intros []|].
  destruct (Z.leb_spec (subpart_h s) (seamless t)) as [Hh|Hh]; [intros []|].
  cbn [orb]. destruct (clipped_out a s); [intros []|].
  unfold uploads. rewrite pick_app. fold (uploads (imm_quad a tex_w tex_h s)).
  rewrite uploads_imm_quad, app_nil_r. unfold upload_subpart.
  destruct (Z.ltb_spec (subpart_w s) tex_w), (Z.ltb_spec (subpart_h s) tex_h);
    cbn [andb app pick upload_of In];
    intros Hin; repeat (destruct Hin as [<-|Hin]); try contradiction;
    unfold fits_work_texture; lia.
Qed.

(** ** The whole routine *)

Lemma tile_of_upload_of c : upload_of c = None -> tile_of c = None.
Proof. destruct c; cbn; intros H; try reflexivity; discriminate H. Qed.

Lemma pick_imm_bind {B} (f : gl_cmd -> option B) ctx a :
  (forall c, upload_of c = None -> f c = None) -> pick f (imm_bind ctx a) = [].
Proof.
  intros Hf. unfold imm_bind.
  destruct (c_true (current_program ctx)); [destruct (negb _)|];
    cbn [pick]; rewrite ?Hf by reflexivity; reflexivity.
Qed.

Lemma pick_imm_draw {B} (f : gl_cmd -> option B) ctx texid a :
  (forall c, upload_of c = None -> f c = None) ->
  pick f (snd (immDrawPixelsTexScaled_clipping ctx texid a))
  = match components_of (format a) with
    | None => []
    | Some comps =>
      let t := tiling_of tex_w tex_h (img_w a) (img_h a) in
      flat_map (fun sy => flat_map (fun sx => pick f (imm_subpart a tex_w tex_h t comps sx sy))
                                   (for_range (nsubparts_x t)))
               (for_range (nsubparts_y t))
    end.
Proof.
  intros Hf. unfold immDrawPixelsTexScaled_clipping, get_cached_work_texture.
  destruct (texid =? -1); destruct (components_of (format a)) as [comps|]; cbn [snd];
    rewrite ?pick_app, ?pick_flat_map, ?pick_imm_bind by assumption;
    destruct (type a =? GL_FLOAT);
    cbn [pick app]; rewrite ?Hf by reflexivity; cbn [app];
    rewrite ?app_nil_r; try reflexivity;
    apply flat_map_agree; intros sy _; apply pick_flat_map.
Qed.

Lemma tiles_imm_draw ctx texid a :
  tiles (snd (immDrawPixelsTexScaled_clipping ctx texid a))
  = match components_of (format a) with
    | None => []
    | Some comps =>
      let t := tiling_of tex_w tex_h (img_w a) (img_h a) in
      flat_map (fun sy => flat_map (fun sx => tiles (imm_subpart a tex_w tex_h t comps sx sy))
                                   (for_range (nsubparts_x t)))
               (for_range (nsubparts_y t))
    end.
Proof. apply pick_imm_draw, tile_of_upload_of. Qed.

Lemma uploads_imm_draw ctx texid a :
  uploads (snd (immDrawPixelsTexScaled_clipping ctx texid a))
  = match components_of (format a) with
    | None => []
    | Some comps =>
      let t := tiling_of tex_w tex_h (img_w a) (img_h a) in
      flat_map (fun sy => flat_map (fun sx => uploads (imm_subpart a tex_w tex_h t comps sx sy))
                                   (for_range (nsubparts_x t)))
               (for_range (nsubparts_y t))
    end.
Proof. apply pick_imm_draw. auto. Qed.

Lemma tiling_seamless_nonneg a : 0 <= seamless (tiling_of tex_w tex_h (img_w a) (img_h a)).
Proof. destruct (tiling_seamless_cases a) as [-> | ->]; lia. Qed.

Lemma uploads_imm_draw_fit ctx texid a :
  Forall fits_work_texture (uploads (snd (immDrawPixelsTexScaled_clipping ctx texid a))).
Proof.
  rewrite uploads_imm_draw. destruct (components_of (format a)) as [comps|]; [|constructor].
  cbv zeta. apply List.Forall_forall. intros u Hu.
  apply in_flat_map in Hu as (sy & _ & Hu). apply in_flat_map in Hu as (sx & _ & Hu).
  eapply uploads_imm_subpart_fit; [apply tiling_seamless_nonneg | exact Hu].
Qed.

(** The sizes of the tiles of one iteration, in unbounded arithmetic. *)
Lemma tile_sizes_imm_subpart a comps sx sy :
  dims_in_range a ->
  let t := tiling_of tex_w tex_h (img_w a) (img_h a) in
  0 <= sx < nsubparts_x t -> 0 <= sy < nsubparts_y t ->
  map (fun t : Z * Z * Z => (fst (fst t), snd (fst t)))
      (tiles (imm_subpart a tex_w tex_h t comps sx sy))
  = grid_cell a sx sy.
Proof.
  intros [Hw Hh] t Hsx Hsy. subst t.
  rewrite tiles_imm_subpart by apply tiling_seamless_nonneg.
  cbv zeta. unfold grid_cell.
  rewrite (subpart_w_min a sx sy Hw Hsx), (subpart_h_min a sx sy Hh Hsy).
  destruct (_ && _ && _); reflexivity.
Qed.

Lemma tile_sizes_imm_draw ctx texid a :
  dims_in_range a ->
  let t := tiling_of tex_w tex_h (img_w a) (img_h a) in
  tile_sizes (snd (immDrawPixelsTexScaled_clipping ctx texid a))
  = match components_of (format a) with
    | Some _ => grid a (nsubparts_x t) (nsubparts_y t)
    | None => []
    end.
Proof.
  intros Hd t. unfold tile_sizes. rewrite tiles_imm_draw.
  destruct (components_of (format a)) as [comps|]; [|reflexivity].
  cbv zeta. fold t. unfold grid. rewrite map_flat_map.
  apply flat_map_agree. intros sy Hsy. rewrite map_flat_map.
  apply flat_map_agree. intros sx Hsx.
  apply in_for_range in Hsx, Hsy. now apply tile_sizes_imm_subpart.
Qed.

Lemma not_clipped_without_clipping a s : use_clipping a = false -> clipped_out a s = false.
Proof. intros H. unfold clipped_out. now rewrite H. Qed.

Lemma imm_single_tile ctx texid a :
  oversized a = false -> 1 <= img_w a -> 1 <= img_h a ->
  is_Some (components_of (format a)) ->
  clipped_out a (subpart_of a tex_w tex_h (tiling_of tex_w tex_h (img_w a) (img_h a)) 0 0) = false ->
  tiles (snd (immDrawPixelsTexScaled_clipping ctx texid a)) = [(img_w a, img_h a, 0)].
Proof.
  intros Hov Hw Hh [comps Hc] Hclip.
  unfold oversized in Hov. apply orb_false_elim in Hov as [Hw' Hh'].
  apply Z.ltb_ge in Hw', Hh'. unfold tex_w, tex_h in Hw', Hh'.
  assert (Hd : dims_in_range a) by (unfold dims_in_range, INT_MAX; lia).
  rewrite tiles_imm_draw, Hc. cbv zeta.
  pose proof (tiling_seamless a) as Hs.
  pose proof (tiling_nsubparts_x a (proj1 Hd)) as Hnx.
  pose proof (tiling_nsubparts_y a (proj2 Hd)) as Hny.
  pose proof (subpart_w_min a 0 0 (proj1 Hd)) as Hsw.
  pose proof (subpart_h_min a 0 0 (proj2 Hd)) as Hsh.
  set (t := tiling_of tex_w tex_h (img_w a) (img_h a)) in *.
  replace (oversized a) with false in Hs
    by (unfold oversized, tex_w, tex_h;
        destruct (Z.ltb_spec 256 (img_w a)), (Z.ltb_spec 256 (img_h a)); try lia; reflexivity).
  rewrite Hs in Hnx, Hny, Hsw, Hsh.
  rewrite ceil_div_small in Hnx by (unfold tex_w; lia).
  rewrite ceil_div_small in Hny by (unfold tex_h; lia).
  rewrite Hnx, Hny in *. change (for_range 1) with [0]. cbn [flat_map]. rewrite !app_nil_r.
  rewrite tiles_imm_subpart by lia. cbv zeta. rewrite Hclip.
  rewrite Hsw, Hsh, Hs by lia. unfold tex_w, tex_h.
  replace (Z.min (img_w a - 0 * (256 - 0)) 256) with (img_w a) by lia.
  replace (Z.min (img_h a - 0 * (256 - 0)) 256) with (img_h a) by lia.
  destruct (Z.ltb_spec 0 (img_w a)), (Z.ltb_spec 0 (img_h a)); try lia.
  cbn [andb negb]. do 3 f_equal.
Qed.

(** ** Tiling *)

(** C1, as stated, fails: an image that is not oversized does not always
    give exactly one uploaded tile.  A 16 x 16 image lying outside the clip
    rectangle uploads nothing, and so does a 16 x 16 image in a format other
    than RGBA, RGB or RED; for a 0 x 0 image the tile counts are 0, not 1.
    For an oversized image, sub-parts of the grid can be skipped: a 510 x 300
    image has a 3 x 2 grid and 4 uploaded tiles, a 300 x 2 image uploads
    none. *)
Lemma imm_one_tile_counterexample :
  (oversized clipped_call = false
   /\ tiles (snd (immDrawPixelsTexScaled_clipping ctx0 texid_init clipped_call)) = [])
  /\ (let a := {| x := f_zero; y := f_zero; img_w := 16; img_h := 16;
                  format := GL_LUMINANCE; type := GL_UNSIGNED_BYTE; zoomfilter := GL_LINEAR;
                  scaleX := f_one; scaleY := f_one;
                  clip_min_x := f_zero; clip_min_y := f_zero;
                  clip_max_x := f_zero; clip_max_y := f_zero;
                  xzoom := f_one; yzoom := f_one; color := None |} in
      oversized a = false
      /\ tiles (snd (immDrawPixelsTexScaled_clipping ctx0 texid_init a)) = [])
  /\ (oversized (plain_call 0 0) = false
      /\ nsubparts_x (tiling_of tex_w tex_h 0 0) = 0
      /\ nsubparts_y (tiling_of tex_w tex_h 0 0) = 0)
  /\ (nsubparts_x (tiling_of tex_w tex_h 510 300) = 3
      /\ nsubparts_y (tiling_of tex_w tex_h 510 300) = 2
      /\ length (tiles (snd (immDrawPixelsTexScaled_clipping ctx0 texid_init
                                                              (plain_call 510 300)))) = 4%nat)
  /\ tiles (snd (immDrawPixelsTexScaled_clipping ctx0 texid_init (plain_call 300 2))) = [].
Proof. vm_compute. repeat split. Qed.

(** C1 (amended).  For image dimensions from 0 to [INT_MAX - 255], with the
    256 x 256 work texture:
    - if [img_w > 256] or [img_h > 256], [seamless = 2] and the loops run
      over a grid of [ceil(img_w / 254)] by [ceil(img_h / 254)] sub-parts;
      otherwise [seamless = 0] and the grid is [ceil(img_w / 256)] by
      [ceil(img_h / 256)], which is 1 by 1 as soon as both dimensions are at
      least 1;
    - the tiles uploaded are, in loop order, those sub-parts [(sx, sy)] of the
      grid of size [min(img_w - sx * (256 - seamless), 256)] by
      [min(img_h - sy * (256 - seamless), 256)] whose width and height both
      exceed [seamless] and which the clip test keeps, and none at all when
      the format is not RGBA, RGB or RED;
    - so an image that is not oversized, has both dimensions at least 1, a
      supported format and is kept by the clip test uploads exactly one tile,
      which covers the whole image;
    - every upload lies inside the work texture, so no tile is wider or
      higher than it. *)
Theorem imm_tiling_grid ctx texid a :
  dims_in_range a ->
  let t := tiling_of tex_w tex_h (img_w a) (img_h a) in
  let cmds := snd (immDrawPixelsTexScaled_clipping ctx texid a) in
  (if oversized a
   then seamless t = 2
        /\ nsubparts_x t = ceil_div (img_w a) (tex_w - 2)
        /\ nsubparts_y t = ceil_div (img_h a) (tex_h - 2)
   else seamless t = 0
        /\ nsubparts_x t = ceil_div (img_w a) tex_w
        /\ nsubparts_y t = ceil_div (img_h a) tex_h
        /\ (1 <= img_w a -> nsubparts_x t = 1)
        /\ (1 <= img_h a -> nsubparts_y t = 1))
  /\ tile_sizes cmds = match components_of (format a) with
                       | Some _ => grid a (nsubparts_x t) (nsubparts_y t)
                       | None => []
                       end
  /\ (oversized a = false -> 1 <= img_w a -> 1 <= img_h a ->
      is_Some (components_of (format a)) ->
      clipped_out a (subpart_of a tex_w tex_h t 0 0) = false ->
      tiles cmds = [(img_w a, img_h a, 0)])
  /\ Forall fits_work_texture (uploads cmds)
  /\ Forall (fun tl : Z * Z * Z => fst (fst tl) <= tex_w /\ snd (fst tl) <= tex_h) (tiles cmds).
Proof.
  intros Hd t cmds.
  pose proof (tiling_seamless a) as Hs.
  pose proof (tiling_nsubparts_x a (proj1 Hd)) as Hnx.
  pose proof (tiling_nsubparts_y a (proj2 Hd)) as Hny.
  fold t in Hs, Hnx, Hny.
  split; [|split; [|split; [|split]]].
  - destruct (oversized a) eqn:Hov; rewrite Hs in Hnx, Hny.
    + auto.
    + rewrite Z.sub_0_r in Hnx, Hny. repeat split; try assumption.
      * intros Hw. rewrite Hnx. apply ceil_div_small.
        unfold oversized in Hov. apply orb_false_elim in Hov as [Hov _].
        apply Z.ltb_ge in Hov. lia.
      * intros Hh. rewrite Hny. apply ceil_div_small.
        unfold oversized in Hov. apply orb_false_elim in Hov as [_ Hov].
        apply Z.ltb_ge in Hov. lia.
  - now apply tile_sizes_imm_draw.
  - apply imm_single_tile.
  - apply uploads_imm_draw_fit.
  - subst cmds. rewrite tiles_imm_draw.
    destruct (components_of (format a)) as [comps|]; [|constructor].
    cbv zeta. apply List.Forall_forall. intros tl Htl.
    apply in_flat_map in Htl as (sy & _ & Htl). apply in_flat_map in Htl as (sx & _ & Htl).
    rewrite tiles_imm_subpart in Htl by apply tiling_seamless_nonneg. cbv zeta in Htl.
    destruct (_ && _ && _) in Htl; [|contradiction].
    destruct Htl as [<-|[]]. cbn [fst snd].
    split; [apply subpart_w_le | apply subpart_h_le].
Qed.

Lemma imm_tiling_grid_witness :
  dims_in_range (plain_call 510 300)
  /\ tile_sizes (snd (immDrawPixelsTexScaled_clipping ctx0 texid_init (plain_call 510 300)))
     = [(256, 256); (256, 256); (256, 46); (256, 46)].
Proof.
  assert (Hd : dims_in_range (plain_call 510 300)) by (vm_compute; intuition discriminate).
  split; [exact Hd|].
  destruct (imm_tiling_grid ctx0 texid_init (plain_call 510 300) Hd) as (_ & Hgrid & _).
  rewrite Hgrid. vm_compute. reflexivity.
Defined.

(** ** The wrappers *)

(** C6.  [immDrawPixelsTex] is [immDrawPixelsTexScaled_clipping] with both
    scales 1 and the four clip bounds 0, [immDrawPixelsTexScaled] is it with
    the caller's scales and the four clip bounds 0; with these bounds
    [use_clipping] is false and the clip test rejects no sub-part.  Neither
    wrapper issues a command or changes the cached texture on its own. *)
Theorem imm_wrappers_delegate ctx texid x y img_w img_h format type zoomfilter
        scaleX scaleY xzoom yzoom color :
  let unclipped sX sY :=
    {| Glutil.x := x; Glutil.y := y; Glutil.img_w := img_w; Glutil.img_h := img_h;
       Glutil.format := format; Glutil.type := type; Glutil.zoomfilter := zoomfilter;
       Glutil.scaleX := sX; Glutil.scaleY := sY;
       clip_min_x := f_zero; clip_min_y := f_zero;
       clip_max_x := f_zero; clip_max_y := f_zero;
       Glutil.xzoom := xzoom; Glutil.yzoom := yzoom; Glutil.color := color |} in
  immDrawPixelsTex ctx texid x y img_w img_h format type zoomfilter xzoom yzoom color
  = immDrawPixelsTexScaled_clipping ctx texid (unclipped f_one f_one)
  /\ immDrawPixelsTexScaled ctx texid x y img_w img_h format type zoomfilter
                            scaleX scaleY xzoom yzoom color
     = immDrawPixelsTexScaled_clipping ctx texid (unclipped scaleX scaleY)
  /\ immDrawPixelsTex ctx texid x y img_w img_h format type zoomfilter xzoom yzoom color
     = immDrawPixelsTexScaled ctx texid x y img_w img_h format type zoomfilter
                              f_one f_one xzoom yzoom color
  /\ (forall sX sY, use_clipping (unclipped sX sY) = false)
  /\ (forall sX sY s, clipped_out (unclipped sX sY) s = false).
Proof.
  intros unclipped. split; [reflexivity|]. split; [reflexivity|]. split; [reflexivity|].
  split; [reflexivity|].
  intros sX sY s. apply not_clipped_without_clipping. reflexivity.
Qed.

(** ** The live routine against the compiled-out one *)

Lemma uploads_gla_draw ctx texid g :
  uploads (snd (Obsolete.glaDrawPixelsTexScaled_clipping ctx texid g))
  = match Obsolete.gla_components_of (Obsolete.g_format g) with
    | None => []
    | Some comps =>
      let t := tiling_of tex_w tex_h (Obsolete.g_img_w g) (Obsolete.g_img_h g) in
      flat_map (fun sy =>
                  flat_map (fun sx =>
                              uploads (Obsolete.gla_subpart ctx g tex_w tex_h (seamless t)
                                                            (offset_x t) (offset_y t) comps sx sy))
                           (for_range (nsubparts_x t)))
               (for_range (nsubparts_y t))
    end.
Proof.
  unfold Obsolete.glaDrawPixelsTexScaled_clipping, get_cached_work_texture, uploads.
  destruct (texid =? -1);
    destruct (Obsolete.gla_components_of (Obsolete.g_format g)) as [comps|]; cbn [snd];
    rewrite ?pick_app, ?pick_flat_map;
    destruct (Obsolete.g_type g =? GL_FLOAT);
    cbn [pick app upload_of]; rewrite ?app_nil_r; try reflexivity;
    apply flat_map_agree; intros sy _; apply pick_flat_map.
Qed.

(** Iteration by iteration the two loop bodies upload the same data, when
    clipping is off or when they see the same zoom. *)
Lemma uploads_gla_subpart ctx a comps sx sy :
  use_clipping a = false \/ (xzoom a = zoom_x ctx /\ yzoom a = zoom_y ctx) ->
  let t := tiling_of tex_w tex_h (img_w a) (img_h a) in
  uploads (Obsolete.gla_subpart ctx (gla_args_of a) tex_w tex_h (seamless t)
                                (offset_x t) (offset_y t) comps sx sy)
  = uploads (imm_subpart a tex_w tex_h t comps sx sy).
Proof.
  intros Hz t. unfold Obsolete.gla_subpart, imm_subpart, clipped_out.
  cbn [gla_args_of Obsolete.g_x Obsolete.g_y Obsolete.g_img_w Obsolete.g_img_h
       Obsolete.g_format Obsolete.g_type Obsolete.g_scaleX Obsolete.g_scaleY
       Obsolete.g_clip_min_x Obsolete.g_clip_min_y Obsolete.g_clip_max_x
       Obsolete.g_clip_max_y].
  fold (use_clipping a).
  unfold upload_subpart, row_base, last_row_base, col_first, col_last, imm_quad.
  cbn [subpart_of subpart_w subpart_h offset_left offset_bot offset_right offset_top
       rast_x rast_y remainder_x remainder_y].
  destruct (_ || _); [reflexivity|].
  destruct (use_clipping a) eqn:Hc; cbn [andb].
  - destruct Hz as [Hz | [Hx Hy]]; [discriminate Hz|]. rewrite <- Hx, <- Hy.
    destruct (_ || _); cbn [orb]; [reflexivity|].
    destruct (_ || _); [reflexivity|].
    unfold uploads. rewrite !pick_app. cbn [pick upload_of]. now rewrite ?app_nil_r.
  - unfold uploads. rewrite !pick_app. cbn [pick upload_of]. now rewrite ?app_nil_r.
Qed.

Lemma gla_components_rgb f :
  f = GL_RGBA \/ f = GL_RGB -> Obsolete.gla_components_of f = components_of f.
Proof. intros [-> | ->]; reflexivity. Qed.

Lemma uploads_gla_imm ctx texid a :
  use_clipping a = false \/ (xzoom a = zoom_x ctx /\ yzoom a = zoom_y ctx) ->
  format a = GL_RGBA \/ format a = GL_RGB ->
  uploads (snd (Obsolete.glaDrawPixelsTexScaled_clipping ctx texid (gla_args_of a)))
  = uploads (snd (immDrawPixelsTexScaled_clipping ctx texid a)).
Proof.
  intros Hz Hf. rewrite uploads_gla_draw, uploads_imm_draw.
  cbn [gla_args_of Obsolete.g_format Obsolete.g_img_w Obsolete.g_img_h].
  rewrite (gla_components_rgb _ Hf).
  destruct (components_of (format a)) as [comps|]; [|reflexivity].
  cbv zeta. apply flat_map_agree. intros sy _. apply flat_map_agree. intros sx _.
  now apply uploads_gla_subpart.
Qed.

Lemma for_range_one n : 1 <= n -> exists r, for_range n = 0 :: r.
Proof. intros Hn. rewrite for_range_cons by lia. eauto. Qed.

Lemma for_range_two n : 2 <= n -> exists r, for_range n = 0 :: 1 :: r.
Proof.
  intros Hn. rewrite for_range_cons by lia.
  rewrite (for_range_cons (n - 1)) by lia. cbn [map]. eauto.
Qed.

Lemma ceil_div_ge1 a b : 0 < b -> 1 <= a -> 1 <= ceil_div a b.
Proof.
  intros Hb Ha. unfold ceil_div.
  pose proof (Z.div_mod (- a) b ltac:(lia)) as H3.
  pose proof (Z.mod_pos_bound (- a) b Hb) as H4.
  nia.
Qed.

Lemma ceil_div_ge2 a b : 0 < b -> b < a -> 2 <= ceil_div a b.
Proof.
  intros Hb Ha. unfold ceil_div.
  pose proof (Z.div_mod (- a) b ltac:(lia)) as H3.
  pose proof (Z.mod_pos_bound (- a) b Hb) as H4.
  nia.
Qed.

Lemma tiles_imm_subpart_kept a comps sx sy :
  dims_in_range a -> use_clipping a = false ->
  let t := tiling_of tex_w tex_h (img_w a) (img_h a) in
  0 <= sx < nsubparts_x t -> 0 <= sy < nsubparts_y t ->
  seamless t < img_w a - sx * (tex_w - seamless t) ->
  seamless t < img_h a - sy * (tex_h - seamless t) ->
  length (tiles (imm_subpart a tex_w tex_h t comps sx sy)) = 1%nat.
Proof.
  intros Hd Hc t Hsx Hsy Hw Hh. subst t.
  pose proof (tiling_seamless_cases a) as Hs.
  rewrite tiles_imm_subpart by apply tiling_seamless_nonneg. cbv zeta.
  rewrite (subpart_w_min a sx sy (proj1 Hd) Hsx), (subpart_h_min a sx sy (proj2 Hd) Hsy).
  rewrite not_clipped_without_clipping by assumption.
  unfold tex_w, tex_h in *.
  destruct (Z.ltb_spec (seamless (tiling_of 256 256 (img_w a) (img_h a)))
                       (Z.min (img_w a - sx * (256 - seamless (tiling_of 256 256 (img_w a) (img_h a)))) 256));
  destruct (Z.ltb_spec (seamless (tiling_of 256 256 (img_w a) (img_h a)))
                       (Z.min (img_h a - sy * (256 - seamless (tiling_of 256 256 (img_w a) (img_h a)))) 256));
  try lia. reflexivity.
Qed.

Lemma imm_oversized_two_tiles ctx texid a :
  dims_in_range a -> oversized a = true -> 3 <= img_w a -> 3 <= img_h a ->
  is_Some (components_of (format a)) -> use_clipping a = false ->
  (2 <= length (tiles (snd (immDrawPixelsTexScaled_clipping ctx texid a))))%nat.
Proof.
  intros Hd Hov Hw Hh [comps Hf] Hc.
  rewrite tiles_imm_draw, Hf. cbv zeta.
  pose proof (tiling_seamless a) as Hs. rewrite Hov in Hs.
  pose proof (tiling_nsubparts_x a (proj1 Hd)) as Hnx.
  pose proof (tiling_nsubparts_y a (proj2 Hd)) as Hny.
  pose proof (fun sx sy => tiles_imm_subpart_kept a comps sx sy Hd Hc) as Hcell.
  cbv zeta in Hcell.
  set (t := tiling_of tex_w tex_h (img_w a) (img_h a)) in *.
  rewrite Hs in Hnx, Hny, Hcell. unfold oversized in Hov. unfold tex_w, tex_h in *.
  pose proof (ceil_div_ge1 (img_w a) (256 - 2) ltac:(lia) ltac:(lia)) as Hx1.
  pose proof (ceil_div_ge1 (img_h a) (256 - 2) ltac:(lia) ltac:(lia)) as Hy1.
  apply orb_true_iff in Hov as [Hov|Hov];
    apply Z.ltb_lt in Hov.
  - pose proof (ceil_div_ge2 (img_w a) (256 - 2) ltac:(lia) ltac:(lia)) as Hx2.
    destruct (for_range_two (nsubparts_x t) ltac:(lia)) as [rx ->].
    destruct (for_range_one (nsubparts_y t) ltac:(lia)) as [ry ->].
    cbn [flat_map]. rewrite !length_app.
    rewrite (Hcell 0 0), (Hcell 1 0) by lia. lia.
  - pose proof (ceil_div_ge2 (img_h a) (256 - 2) ltac:(lia) ltac:(lia)) as Hy2.
    destruct (for_range_one (nsubparts_x t) ltac:(lia)) as [rx ->].
    destruct (for_range_two (nsubparts_y t) ltac:(lia)) as [ry ->].
    cbn [flat_map]. rewrite !length_app.
    rewrite (Hcell 0 0), (Hcell 0 1) by lia. lia.
Qed.

(** C2, as stated, fails: [immDrawPixelsTex] is compiled and public, and on
    a 300 x 10 image it runs the seamless tiling and uploads two overlapping
    tiles, the second starting 254 pixels (1016 bytes of RGBA) into the row. *)
Lemma live_tiling_counterexample :
  seamless (tiling_of tex_w tex_h 300 10) = 2
  /\ tiles (snd (immDrawPixelsTex ctx0 texid_init f_zero f_zero 300 10
                                  GL_RGBA GL_UNSIGNED_BYTE GL_LINEAR f_one f_one None))
     = [(256, 10, 0); (46, 10, 1016)].
Proof. vm_compute. split; reflexivity. Qed.

(** C2 (amended).  The tiling logic occurs twice.  The copy in
    [glaDrawPixelsTexScaled_clipping] (with its [gla*] wrappers) is the one
    marked obsolete: it sits under [#if 0  /* Obsolete / unused */].  The copy
    in [immDrawPixelsTexScaled_clipping] is live and is reached from
    [immDrawPixelsTex]: for every oversized image with both dimensions from 3
    to [INT_MAX - 255] in RGBA or RGB, [immDrawPixelsTex] uploads at least two
    tiles, every one of its uploads lies inside the 256 x 256 work texture,
    and its uploads are exactly those the obsolete [glaDrawPixelsTex] would
    issue for the same image. *)
Theorem live_immDrawPixelsTex_tiles ctx texid x y img_w img_h format type zoomfilter
        xzoom yzoom color :
  3 <= img_w <= INT_MAX - 255 -> 3 <= img_h <= INT_MAX - 255 ->
  tex_w < img_w \/ tex_h < img_h ->
  format = GL_RGBA \/ format = GL_RGB ->
  let cmds := snd (immDrawPixelsTex ctx texid x y img_w img_h format type zoomfilter
                                    xzoom yzoom color) in
  (2 <= length (tiles cmds))%nat
  /\ Forall fits_work_texture (uploads cmds)
  /\ uploads cmds
     = uploads (snd (Obsolete.glaDrawPixelsTex ctx texid x y img_w img_h format type zoomfilter)).
Proof.
  intros Hw Hh Hov Hf cmds. subst cmds. unfold immDrawPixelsTex, Obsolete.glaDrawPixelsTex.
  split; [|split].
  - apply imm_oversized_two_tiles; cbn [Glutil.img_w Glutil.img_h Glutil.format].
    + unfold dims_in_range. cbn [Glutil.img_w Glutil.img_h]. lia.
    + unfold oversized. cbn [Glutil.img_w Glutil.img_h]. apply orb_true_iff.
      destruct Hov; [left|right]; now apply Z.ltb_lt.
    + lia.
    + lia.
    + destruct Hf as [-> | ->]; eexists; reflexivity.
    + reflexivity.
  - apply uploads_imm_draw_fit.
  - symmetry.
    match goal with
    | |- _ = uploads (snd (immDrawPixelsTexScaled_clipping _ _ ?a)) =>
      exact (uploads_gla_imm ctx texid a (or_introl eq_refl) Hf)
    end.
Qed.

Lemma live_immDrawPixelsTex_tiles_witness :
  (2 <= length (tiles (snd (immDrawPixelsTex ctx0 texid_init f_zero f_zero 300 10
                                             GL_RGBA GL_UNSIGNED_BYTE GL_LINEAR
                                             f_one f_one None))))%nat.
Proof.
  apply (live_immDrawPixelsTex_tiles ctx0 texid_init f_zero f_zero 300 10
                                     GL_RGBA GL_UNSIGNED_BYTE GL_LINEAR f_one f_one None).
  - unfold INT_MAX. lia.
  - unfold INT_MAX. lia.
  - left. unfold tex_w. lia.
  - left. reflexivity.
Defined.

End GlutilFacts.

(* ===================================================================== *)
(** * Properties of the asset library layer *)
(* ===================================================================== *)

Module AssetFacts.
Import CArith AssetSystem AssetSpec.

(** ** C strings *)

Lemma c_str_no_nul s : NUL ∉ c_str s.
Proof.
  induction s as [|c s IH]; cbn; [apply not_elem_of_nil|].
  destruct (Ascii.eqb_spec c NUL) as [->|Hc]; [apply not_elem_of_nil|].
  rewrite not_elem_of_cons. split; [congruence | exact IH].
Qed.

Lemma c_str_id s : NUL ∉ s -> c_str s = s.
Proof.
  induction s as [|c s IH]; cbn; [reflexivity|]. rewrite not_elem_of_cons. intros [Hc Hs].
  destruct (Ascii.eqb_spec c NUL) as [->|_]; [congruence|]. now rewrite IH.
Qed.

Lemma c_str_app_nul l r : NUL ∉ l -> c_str (l ++ NUL :: r) = l.
Proof.
  induction l as [|c l IH]; cbn; [reflexivity|]. rewrite not_elem_of_cons. intros [Hc Hl].
  destruct (Ascii.eqb_spec c NUL) as [->|_]; [congruence|]. now rewrite IH.
Qed.

Lemma not_elem_of_take {A} (x : A) (l : list A) n : x ∉ l -> x ∉ take n l.
Proof.
  intros Hx Hin. apply Hx. apply elem_of_take in Hin as (i & Hi & _).
  apply list_elem_of_lookup. eauto.
Qed.

Lemma c_str_idemp s : c_str (c_str s) = c_str s.
Proof. apply c_str_id, c_str_no_nul. Qed.

(** What a bounded copy leaves to be read back: the source string cut to
    the room there is. *)
Lemma c_str_BLI_strncpy dst src n :
  c_str (BLI_strncpy dst src n) = take (n - 1) (c_str src).
Proof.
  unfold BLI_strncpy.
  rewrite c_str_app_nul by apply not_elem_of_take, c_str_no_nul.
  destruct (Nat.min_spec (length (c_str src)) (n - 1)) as [[Hlt ->] | [Hge ->]].
  - rewrite !take_ge by lia. reflexivity.
  - reflexivity.
Qed.

Lemma length_BLI_strncpy dst src n :
  1 <= n <= length dst -> length (BLI_strncpy dst src n) = length dst.
Proof.
  intros Hn. unfold BLI_strncpy.
  rewrite length_app, length_take. cbn [length]. rewrite length_drop. lia.
Qed.

(** ** [refresh_catalog_simplename] *)

Section SimpleName.
Context {Other : Type} `{External}.

(** C9 (amended).  [refresh_catalog_simplename] never changes [catalog_id]
    or any member other than [catalog_simple_name].  If [catalog_id] is the
    nil UUID, the first character of [catalog_simple_name] becomes NUL, so
    the field reads as the empty string.  If the catalog is not found,
    [*asset_data] is unchanged.  Otherwise [catalog_simple_name] reads as the
    found catalog's simple name cut to one character less than the size of
    the field; it is the whole simple name when that is shorter than the
    field. *)
Theorem refresh_catalog_simplename_frame (lib : AssetLibrary) (d : AssetMetaData Other) :
  let d' := refresh_catalog_simplename lib d in
  catalog_id d' = catalog_id d
  /\ md_other d' = md_other d
  /\ (BLI_uuid_is_nil (catalog_id d) = true ->
      c_str (catalog_simple_name d') = []
      /\ drop 1 (catalog_simple_name d') = drop 1 (catalog_simple_name d))
  /\ (BLI_uuid_is_nil (catalog_id d) = false ->
      find_catalog (catalog_service lib) (catalog_id d) = None -> d' = d)
  /\ (forall catalog,
        BLI_uuid_is_nil (catalog_id d) = false ->
        find_catalog (catalog_service lib) (catalog_id d) = Some catalog ->
        c_str (catalog_simple_name d')
        = take (length (catalog_simple_name d) - 1) (c_str (simple_name catalog))
        /\ (NUL ∉ simple_name catalog ->
            length (simple_name catalog) < length (catalog_simple_name d) ->
            c_str (catalog_simple_name d') = simple_name catalog)).
Proof.
  intros d'. subst d'. unfold refresh_catalog_simplename.
  destruct (BLI_uuid_is_nil (catalog_id d)) eqn:Hnil.
  - cbn [catalog_id md_other catalog_simple_name set_catalog_simple_name].
    split; [reflexivity|]. split; [reflexivity|]. split; [|split; [discriminate|]].
    + intros _. destruct (catalog_simple_name d) as [|c n]; cbn; split; reflexivity.
    + intros catalog Hn. discriminate Hn.
  - destruct (find_catalog (catalog_service lib) (catalog_id d)) as [catalog|] eqn:Hfind.
    + cbn [catalog_id md_other catalog_simple_name set_catalog_simple_name].
      split; [reflexivity|]. split; [reflexivity|]. split; [discriminate|].
      split; [discriminate|].
      intros catalog' _ Heq. injection Heq as <-. unfold STRNCPY. split.
      * apply c_str_BLI_strncpy.
      * intros Hnul Hlen.
        rewrite c_str_BLI_strncpy, c_str_id by assumption. apply take_ge. lia.
    + split; [reflexivity|]. split; [reflexivity|]. split; [discriminate|].
      split; [reflexivity|]. intros catalog _ Heq. discriminate Heq.
Qed.

End SimpleName.

(** C9, as stated, fails: a simple name of 70 characters does not fit the
    64-character field, which then reads as its first 63 characters. *)
Lemma refresh_catalog_simplename_counterexample :
  let d' := refresh_catalog_simplename long_name_library (blank_metadata 7%N) in
  @find_catalog demo_external (catalog_service long_name_library) 7%N
  = Some {| cat_id := 7%N; simple_name := repeat "n"%char 70 |}
  /\ c_str (catalog_simple_name d') = repeat "n"%char 63
  /\ c_str (catalog_simple_name d') <> repeat "n"%char 70.
Proof. vm_compute. repeat split. discriminate. Qed.

(** ** [AS_asset_full_path_explode_from_weak_ref] *)

Lemma insert_middle {A} (l1 : list A) (y x : A) (l2 : list A) :
  <[length l1 := x]> (l1 ++ y :: l2) = l1 ++ x :: l2.
Proof. rewrite insert_app_r_alt by lia. now rewrite Nat.sub_diag. Qed.

Lemma drop_middle {A} (l1 : list A) (y : A) (l2 : list A) n :
  n = length l1 + 1 -> drop n (l1 ++ y :: l2) = l2.
Proof.
  intros ->. induction l1 as [|a l1 IH]; cbn; [now rewrite drop_0|]. exact IH.
Qed.

Lemma store_in_range buf i c : i < length buf -> store buf i c = Some (<[i := c]> buf).
Proof. intros Hi. unfold store. now rewrite decide_True. Qed.

(** A bounded copy of a string that has a separator after [pre]: [pre] is
    copied whole when it fits, and what follows the separator is cut to the
    room that is left. *)
Lemma BLI_strncpy_cut dst pre sep suf n :
  NUL ∉ pre ++ sep :: suf -> length pre < n -> length dst = n ->
  exists x rest,
    BLI_strncpy dst (pre ++ sep :: suf) n = pre ++ x :: rest
    /\ length pre + 1 + length rest = n
    /\ (length pre + 1 < n -> c_str rest = take (n - 1 - (length pre + 1)) suf).
Proof.
  intros Hnul Hpre Hdst. unfold BLI_strncpy. rewrite c_str_id by assumption.
  rewrite length_app. cbn [length].
  destruct (decide (length pre + 1 < n)) as [Hlt|Hge].
  - set (m := Nat.min (length pre + S (length suf)) (n - 1)).
    assert (length pre + 1 <= m <= n - 1) as Hm by (subst m; lia).
    exists sep, (take (m - (length pre + 1)) suf ++ NUL :: drop (S m) dst).
    split; [|split].
    + rewrite take_app_ge by lia.
      replace (m - length pre) with (S (m - (length pre + 1))) by lia.
      cbn [take]. rewrite <- app_assoc. reflexivity.
    + rewrite length_app, length_take. cbn [length]. rewrite length_drop. subst m. lia.
    + intros _. rewrite c_str_app_nul.
      2:{ apply not_elem_of_take. intros Hin. apply Hnul.
          rewrite elem_of_app, elem_of_cons. auto. }
      destruct (decide (length pre + S (length suf) <= n - 1)).
      * rewrite !take_ge by (subst m; lia). reflexivity.
      * f_equal. subst m. lia.
  - assert (length pre = n - 1) as Hn by lia.
    exists NUL, []. split; [|split; [cbn [length]; lia | lia]].
    rewrite Nat.min_r by lia. rewrite <- Hn.
    rewrite take_app_length. f_equal. f_equal.
    apply drop_ge. lia.
Qed.

Lemma insert_middle_at {A} (l1 : list A) (y x : A) (l2 : list A) n :
  n = length l1 -> <[n := x]> (l1 ++ y :: l2) = l1 ++ x :: l2.
Proof. intros ->. apply insert_middle. Qed.

Section Explode.
Context {Other : Type} `{External}.

(** The result of the call on a reference that resolves: the two stores
    are inside the buffer exactly when the last one is. *)
Lemma explode_resolved_run asset_reference buf r_dir r_group r_name (w : World Other) e :
  resolve_asset_weak_reference_to_exploded_path asset_reference = Some e ->
  length buf = FILE_MAX_LIBEXTRA ->
  let copied := BLI_strncpy buf (full_path e) FILE_MAX_LIBEXTRA in
  result (AS_asset_full_path_explode_from_weak_ref asset_reference buf r_dir r_group r_name w)
  = if decide (last_separator e < FILE_MAX_LIBEXTRA) then
      Some {| r_path_buffer :=
                <[last_separator e := NUL]>
                  (match dir_component e with
                   | [] => copied
                   | _ :: _ => <[length (dir_component e) := NUL]> copied
                   end);
              AssetSystem.r_dir :=
                assign r_dir (match dir_component e with [] => None | _ :: _ => Some 0 end);
              AssetSystem.r_group :=
                assign r_group (Some (match dir_component e with
                                      | [] => 0
                                      | _ :: _ => length (dir_component e) + 1
                                      end));
              AssetSystem.r_name := assign r_name (Some (last_separator e + 1)) |}
    else None.
Proof.
  intros He Hbuf copied. unfold AS_asset_full_path_explode_from_weak_ref.
  unfold bind, AssetLibraryService_get, emit, ret, result. cbn [fst snd]. rewrite He.
  assert (length copied = FILE_MAX_LIBEXTRA) as Hlen.
  { subst copied. rewrite length_BLI_strncpy; [assumption|].
    rewrite Hbuf. unfold FILE_MAX_LIBEXTRA. lia. }
  fold copied. unfold last_separator.
  destruct (dir_component e) as [|d0 dir]; cbn [fst snd].
  - unfold store. rewrite Hlen.
    destruct (decide (length (group_component e) < FILE_MAX_LIBEXTRA)); reflexivity.
  - set (dir_size := length (d0 :: dir)). unfold store. rewrite Hlen.
    destruct (decide (dir_size < FILE_MAX_LIBEXTRA)) as [Hd|Hd]; cbn [mbind option_bind].
    + rewrite length_insert, Hlen.
      destruct (decide (dir_size + 1 + length (group_component e) < FILE_MAX_LIBEXTRA));
        reflexivity.
    + rewrite decide_False by lia. reflexivity.
Qed.

(** C8 (amended).  With a buffer of [FILE_MAX_LIBEXTRA] (1090) characters:
    when the reference does not resolve, every output pointer that was
    provided is set to null and the buffer reads as the empty string.  When
    it resolves, the bounded copy puts at most the first 1089 characters of
    the path and a NUL into the buffer, and NUL is then stored, with no
    check of the offset, over the separators, the last of them at
    [last_separator].  A store falls outside the buffer exactly when that
    offset is 1090 or more.  Otherwise NUL stands at the separators, every
    other character is as copied, [r_dir], when provided, is null exactly
    when the directory component is empty and otherwise the start of the
    buffer, [r_group] is offset 0 or [dir size + 1], and [r_name] is
    [last_separator + 1], one past the end of the buffer when the offset is
    1089.  For a path laid out as directory, group and name, the directory
    and the group then read back whole; the name reads back cut to the room
    the buffer has left when [r_name] lies inside the buffer, and whole when
    the path is shorter than 1090 characters.  In every case the service is
    asked once and nothing else is touched. *)
Theorem explode_from_weak_ref_spec (asset_reference : AssetWeakReference)
        (buf : list ascii) (r_dir r_group r_name : out_ptr) (w : World Other) :
  length buf = FILE_MAX_LIBEXTRA ->
  let r := AS_asset_full_path_explode_from_weak_ref asset_reference buf r_dir r_group r_name w in
  world r = w
  /\ trace r = [ E_service_get;
                 E_service (Call_resolve_asset_weak_reference_to_exploded_path asset_reference) ]
  /\ match resolve_asset_weak_reference_to_exploded_path asset_reference with
     | None =>
       exists out, result r = Some out
         /\ AssetSystem.r_dir out = assign r_dir None
         /\ AssetSystem.r_group out = assign r_group None
         /\ AssetSystem.r_name out = assign r_name None
         /\ c_str (r_path_buffer out) = []
     | Some e =>
       let copied := BLI_strncpy buf (full_path e) FILE_MAX_LIBEXTRA in
       c_str copied = take (FILE_MAX_LIBEXTRA - 1) (c_str (full_path e))
       /\ (result r = None <-> FILE_MAX_LIBEXTRA <= last_separator e)
       /\ (forall out, result r = Some out ->
             length (r_path_buffer out) = FILE_MAX_LIBEXTRA
             /\ AssetSystem.r_dir out
                = assign r_dir (match dir_component e with [] => None | _ :: _ => Some 0 end)
             /\ AssetSystem.r_group out
                = assign r_group (Some (match dir_component e with
                                        | [] => 0
                                        | _ :: _ => length (dir_component e) + 1
                                        end))
             /\ AssetSystem.r_name out = assign r_name (Some (last_separator e + 1))
             /\ r_path_buffer out !! last_separator e = Some NUL
             /\ (dir_component e <> [] ->
                 r_path_buffer out !! length (dir_component e) = Some NUL)
             /\ (forall i, i <> last_separator e ->
                           dir_component e = [] \/ i <> length (dir_component e) ->
                           r_path_buffer out !! i = copied !! i))
       /\ (exploded_layout e -> last_separator e < FILE_MAX_LIBEXTRA ->
           exists out dir_at group_at name_at, result r = Some out
             /\ length (r_path_buffer out) = FILE_MAX_LIBEXTRA
             /\ AssetSystem.r_dir out = assign r_dir dir_at
             /\ AssetSystem.r_group out = assign r_group (Some group_at)
             /\ AssetSystem.r_name out = assign r_name (Some name_at)
             /\ cstr_at (r_path_buffer out) group_at = group_component e
             /\ (name_at < FILE_MAX_LIBEXTRA ->
                 cstr_at (r_path_buffer out) name_at
                 = take (FILE_MAX_LIBEXTRA - 1 - name_at) (name_component e))
             /\ (length (full_path e) < FILE_MAX_LIBEXTRA ->
                 cstr_at (r_path_buffer out) name_at = name_component e)
             /\ (dir_at = None <-> dir_component e = [])
             /\ (dir_component e <> [] ->
                 dir_at = Some 0
                 /\ cstr_at (r_path_buffer out) 0 = dir_component e
                 /\ group_at = length (dir_component e) + 1)
             /\ (dir_component e = [] -> group_at = 0)
             /\ name_at = group_at + length (group_component e) + 1
             /\ name_at = last_separator e + 1)
     end.
Proof.
  intros Hbuf r.
  assert (world r = w /\ trace r = [ E_service_get;
            E_service (Call_resolve_asset_weak_reference_to_exploded_path asset_reference) ])
    as [Hw Ht].
  { subst r. unfold AS_asset_full_path_explode_from_weak_ref.
    unfold bind, AssetLibraryService_get, emit, ret, world, trace. cbn [fst snd app].
    destruct (resolve_asset_weak_reference_to_exploded_path asset_reference) as [e|];
      [destruct (dir_component e)|]; split; reflexivity. }
  split; [exact Hw|]. split; [exact Ht|]. clear Hw Ht.
  destruct (resolve_asset_weak_reference_to_exploded_path asset_reference) as [e|] eqn:He.
  - pose proof (explode_resolved_run asset_reference buf r_dir r_group r_name w e He Hbuf)
      as Hrun. cbv zeta in Hrun. fold r in Hrun.
    cbv zeta.
    assert (length (BLI_strncpy buf (full_path e) FILE_MAX_LIBEXTRA) = FILE_MAX_LIBEXTRA)
      as Hlen.
    { rewrite length_BLI_strncpy; [assumption|]. rewrite Hbuf. unfold FILE_MAX_LIBEXTRA. lia. }
    set (copied := BLI_strncpy buf (full_path e) FILE_MAX_LIBEXTRA) in *.
    split; [apply c_str_BLI_strncpy|].
    split; [|split].
    + rewrite Hrun. destruct (decide (last_separator e < FILE_MAX_LIBEXTRA));
        split; intros; (congruence || lia).
    + intros out Hout. rewrite Hrun in Hout.
      destruct (decide (last_separator e < FILE_MAX_LIBEXTRA)) as [Hlt|]; [|discriminate].
      injection Hout as <-.
      cbn [r_path_buffer AssetSystem.r_dir AssetSystem.r_group AssetSystem.r_name].
      assert (length (match dir_component e with
                      | [] => copied
                      | _ :: _ => <[length (dir_component e) := NUL]> copied
                      end) = FILE_MAX_LIBEXTRA) as Hlen'.
      { destruct (dir_component e); [|rewrite length_insert]; exact Hlen. }
      split; [rewrite length_insert; exact Hlen'|].
      do 3 (split; [reflexivity|]).
      split; [apply list_lookup_insert_eq; lia|].
      split.
      * intros Hne. destruct (dir_component e) as [|d0 dir] eqn:Hdir; [now destruct Hne|].
        unfold last_separator in *. rewrite Hdir in *.
        rewrite list_lookup_insert_ne by lia.
        apply list_lookup_insert_eq. rewrite Hlen. lia.
      * intros i Hi Hid. rewrite list_lookup_insert_ne by (intros Heq; apply Hi; now symmetry).
        destruct (dir_component e) as [|d0 dir]; [reflexivity|].
        destruct Hid as [Hid|Hid]; [discriminate|].
        apply list_lookup_insert_ne. intros Heq. apply Hid. now rewrite Heq.
    + intros [Hnul Hlay] Hlt. rewrite Hrun, decide_True by assumption.
      unfold last_separator in *.
      destruct (dir_component e) as [|d0 dir] eqn:Hdir.
      * destruct Hlay as [sep Hfull].
        destruct (BLI_strncpy_cut buf (group_component e) sep (name_component e)
                    FILE_MAX_LIBEXTRA) as (x & rest & Hcopy & Hrest & Hname);
          [rewrite <- Hfull; exact Hnul | exact Hlt | exact Hbuf |].
        subst copied. rewrite Hfull in *. rewrite Hcopy. rewrite insert_middle.
        rewrite elem_of_app, elem_of_cons in Hnul.
        exists {| r_path_buffer := group_component e ++ NUL :: rest;
                  AssetSystem.r_dir := assign r_dir None;
                  AssetSystem.r_group := assign r_group (Some 0);
                  AssetSystem.r_name := assign r_name (Some (length (group_component e) + 1)) |},
          None, 0, (length (group_component e) + 1).
        cbn [r_path_buffer AssetSystem.r_dir AssetSystem.r_group AssetSystem.r_name].
        split; [reflexivity|].
        split; [rewrite length_app; cbn [length]; lia|].
        do 3 (split; [reflexivity|]).
        split; [unfold cstr_at; rewrite drop_0; apply c_str_app_nul; tauto|].
        assert (cstr_at (group_component e ++ NUL :: rest) (length (group_component e) + 1)
                = c_str rest) as Hat
          by (unfold cstr_at; now rewrite drop_middle by reflexivity).
        split; [intros Hin; rewrite Hat; apply Hname; lia|].
        split.
        { intros Hfit. rewrite length_app in Hfit. cbn [length] in Hfit.
          rewrite Hat, Hname by lia. apply take_ge. lia. }
        split; [tauto|]. split; [intros Hne; now destruct Hne|].
        split; [reflexivity|]. split; reflexivity.
      * destruct Hlay as (sep1 & sep2 & Hfull).
        set (dir' := d0 :: dir) in *.
        assert (length (dir' ++ sep1 :: group_component e)
                = length dir' + 1 + length (group_component e)) as Hpre
          by (rewrite length_app; cbn [length]; lia).
        destruct (BLI_strncpy_cut buf (dir' ++ sep1 :: group_component e) sep2
                    (name_component e) FILE_MAX_LIBEXTRA)
          as (x & rest & Hcopy & Hrest & Hname);
          [rewrite <- app_assoc; cbn [app]; rewrite <- Hfull; exact Hnul
          | rewrite Hpre; exact Hlt | exact Hbuf |].
        rewrite Hpre in Hrest, Hname.
        subst copied. rewrite Hfull in *.
        rewrite <- app_assoc in Hcopy. cbn [app] in Hcopy. rewrite Hcopy.
        rewrite <- app_assoc. cbn [app]. rewrite insert_middle.
        replace (dir' ++ NUL :: group_component e ++ x :: rest)
          with ((dir' ++ NUL :: group_component e) ++ x :: rest)
          by (now rewrite <- app_assoc).
        rewrite insert_middle_at by (rewrite length_app; cbn [length]; lia).
        rewrite elem_of_app, elem_of_cons, elem_of_app, elem_of_cons in Hnul.
        eexists _, (Some 0), (length dir' + 1),
          (length dir' + 1 + length (group_component e) + 1).
        split; [reflexivity|].
        cbn [r_path_buffer AssetSystem.r_dir AssetSystem.r_group AssetSystem.r_name].
        split; [rewrite length_app; cbn [length]; rewrite length_app; cbn [length]; lia|].
        do 3 (split; [reflexivity|]).
        split.
        { unfold cstr_at. rewrite <- app_assoc. cbn [app].
          rewrite drop_middle by reflexivity. apply c_str_app_nul. tauto. }
        assert (cstr_at ((dir' ++ NUL :: group_component e) ++ NUL :: rest)
                        (length dir' + 1 + length (group_component e) + 1)
                = c_str rest) as Hat.
        { unfold cstr_at. rewrite drop_middle; [reflexivity|].
          rewrite length_app. cbn [length]. lia. }
        split; [intros Hin; rewrite Hat; apply Hname; lia|].
        split.
        { intros Hfit. rewrite length_app in Hfit. cbn [length] in Hfit.
          rewrite length_app in Hfit. cbn [length] in Hfit.
          rewrite Hat, Hname by lia. apply take_ge. lia. }
        split; [split; discriminate|].
        split.
        { intros _. split; [reflexivity|]. split; [|reflexivity].
          unfold cstr_at. rewrite drop_0, <- app_assoc. cbn [app].
          apply c_str_app_nul. tauto. }
        split; [discriminate|]. split; [lia|]. reflexivity.
  - subst r. unfold AS_asset_full_path_explode_from_weak_ref.
    unfold bind, AssetLibraryService_get, emit, ret, result. cbn [fst snd]. rewrite He.
    rewrite store_in_range by (rewrite Hbuf; unfold FILE_MAX_LIBEXTRA; lia).
    cbn [mbind option_bind]. eexists. split; [reflexivity|].
    cbn [r_path_buffer AssetSystem.r_dir AssetSystem.r_group AssetSystem.r_name].
    repeat split. destruct buf; cbn; reflexivity.
Qed.

End Explode.

Lemma explode_from_weak_ref_spec_witness :
  let r := @AS_asset_full_path_explode_from_weak_ref unit demo_external
             (reference_of_type ASSET_LIBRARY_CUSTOM) (repeat "x"%char 1090)
             (Some None) (Some None) (Some None) demo_world in
  exists out group_at name_at,
    result r = Some out
    /\ r_dir out = Some (Some 0)
    /\ r_group out = Some (Some group_at)
    /\ r_name out = Some (Some name_at)
    /\ cstr_at (r_path_buffer out) 0 = str "/lib/a.blend"
    /\ cstr_at (r_path_buffer out) group_at = str "Material"
    /\ cstr_at (r_path_buffer out) name_at = str "Gold".
Proof.
  cbv zeta.
  destruct (@explode_from_weak_ref_spec unit demo_external
              (reference_of_type ASSET_LIBRARY_CUSTOM) (repeat "x"%char 1090)
              (Some None) (Some None) (Some None) demo_world eq_refl) as (_ & _ & Hm).
  cbn [resolve_asset_weak_reference_to_exploded_path demo_external reference_of_type
       asset_library_type] in Hm.
  destruct Hm as (_ & _ & _ & Hm).
  destruct Hm as (out & dir_at & group_at & name_at & Hr & _ & Hd & Hg & Hn & Hgs & _ & Hns
                  & _ & Hds & _).
  - split.
    + apply (bool_decide_unpack _). vm_compute. exact I.
    + exists "/"%char, "/"%char. reflexivity.
  - vm_compute. lia.
  - destruct Hds as (-> & Hdir & _); [discriminate|].
    cbn [assign] in Hd, Hg, Hn.
    exists out, group_at, name_at. repeat split; try assumption.
    apply Hns. vm_compute. lia.
Defined.

(** C8, as stated, fails: a resolved path that does not fit the buffer is
    not received whole.  Here the name has 1100 characters; the buffer gets
    the first 1089 characters of the path, and what [r_name] points at reads
    as 1080 characters, not as the name. *)
Lemma explode_overlong_counterexample :
  let r := @AS_asset_full_path_explode_from_weak_ref unit demo_external
             (reference_of_type ASSET_LIBRARY_ESSENTIALS) (repeat "x"%char 1090)
             (Some None) (Some None) (Some None) demo_world in
  @resolve_asset_weak_reference_to_exploded_path demo_external
    (reference_of_type ASSET_LIBRARY_ESSENTIALS)
  = Some {| full_path := str "Material/" ++ repeat "a"%char 1100;
            dir_component := [];
            group_component := str "Material";
            name_component := repeat "a"%char 1100 |}
  /\ exists out,
       result r = Some out
       /\ r_name out = Some (Some 9)
       /\ cstr_at (r_path_buffer out) 9 = repeat "a"%char 1080
       /\ cstr_at (r_path_buffer out) 9 <> repeat "a"%char 1100.
Proof.
  cbv zeta. split; [reflexivity|]. eexists. split; [vm_compute; reflexivity|].
  split; [reflexivity|]. split; [vm_compute; reflexivity|].
  intros Heq. apply (f_equal length) in Heq. vm_compute in Heq. discriminate Heq.
Qed.

(** ** Results, worlds and traces of composed computations *)

Section Traces.
Context {Other : Type} `{External}.

Lemma trace_bind {A B} (m : M Other A) (f : A -> M Other B) w :
  trace (bind m f w) = trace (m w) ++ trace (f (result (m w)) (world (m w))).
Proof.
  unfold bind, trace, result, world. destruct (m w) as [[a w1] t1]. cbn [fst snd].
  now destruct (f a w1) as [[b w2] t2].
Qed.

Lemma world_bind {A B} (m : M Other A) (f : A -> M Other B) w :
  world (bind m f w) = world (f (result (m w)) (world (m w))).
Proof.
  unfold bind, trace, result, world. destruct (m w) as [[a w1] t1]. cbn [fst snd].
  now destruct (f a w1) as [[b w2] t2].
Qed.

Lemma result_bind {A B} (m : M Other A) (f : A -> M Other B) w :
  result (bind m f w) = result (f (result (m w)) (world (m w))).
Proof.
  unfold bind, trace, result, world. destruct (m w) as [[a w1] t1]. cbn [fst snd].
  now destruct (f a w1) as [[b w2] t2].
Qed.

Lemma silent_ret {A} (a : A) : silent (Other := Other) (ret a).
Proof. intros w. reflexivity. Qed.

Lemma silent_bind {A B} (m : M Other A) (f : A -> M Other B) :
  silent m -> (forall a, silent (f a)) -> silent (bind m f).
Proof. intros Hm Hf w. now rewrite trace_bind, Hm, Hf. Qed.

Lemma silent_get_heap : silent (Other := Other) get_heap.
Proof. intros w. reflexivity. Qed.

Lemma silent_put_heap h : silent (Other := Other) (put_heap h).
Proof. intros w. reflexivity. Qed.

Lemma silent_put_libraries a l : silent (Other := Other) (put_libraries a l).
Proof. intros w. reflexivity. Qed.

End Traces.

Create HintDb silent.
#[export] Hint Resolve silent_ret silent_bind silent_get_heap silent_put_heap
  silent_put_libraries : silent.

Ltac silence :=
  repeat first
    [ progress intros
    | apply silent_bind
    | match goal with
      | |- silent (match ?x with _ => _ end) => destruct x
      | |- silent (if ?x then _ else _) => destruct x
      | |- silent (let '(_, _) := ?x in _) => destruct x
      end
    | solve [auto with silent] ].

Section Silence.
Context {Other : Type} `{External}.

Lemma silent_set_heap_at p (b : option (control_block Other)) : silent (set_heap_at p b).
Proof. unfold set_heap_at. silence. Qed.
Hint Resolve silent_set_heap_at : silent.

Lemma silent_make_shared (r : AssetRepresentation Other) : silent (make_shared r).
Proof. unfold make_shared. silence. Qed.

Lemma silent_shared_ptr_destroy (p : ptr) : silent (shared_ptr_destroy (Other := Other) p).
Proof. unfold shared_ptr_destroy. silence. Qed.
Hint Resolve silent_make_shared silent_shared_ptr_destroy : silent.

Lemma silent_weak_ptr_from (p : ptr) : silent (weak_ptr_from (Other := Other) p).
Proof. unfold weak_ptr_from. silence. Qed.

Lemma silent_lookup_key_or_add s (key : ptr) :
  silent (lookup_key_or_add (Other := Other) s key).
Proof. unfold lookup_key_or_add. silence. Qed.

Lemma silent_remove_as s (key : ptr) : silent (remove_as (Other := Other) s key).
Proof. unfold remove_as. silence. Qed.
Hint Resolve silent_weak_ptr_from silent_lookup_key_or_add silent_remove_as : silent.

Lemma silent_add_external_asset lib path name ty (md : option (AssetMetaData Other)) :
  silent (add_external_asset lib path name ty md).
Proof. unfold add_external_asset. silence. Qed.

Lemma silent_add_local_id_asset lib path id :
  silent (add_local_id_asset (Other := Other) lib path id).
Proof. unfold add_local_id_asset. silence. Qed.

Lemma silent_remove_asset lib p : silent (remove_asset (Other := Other) lib p).
Proof. unfold remove_asset. silence. Qed.
Hint Resolve silent_remove_asset : silent.

Lemma silent_remap_one mappings p : silent (remap_one (Other := Other) mappings p).
Proof. unfold remap_one. silence. Qed.
Hint Resolve silent_remap_one : silent.

Lemma silent_remap_all mappings ps : silent (remap_all (Other := Other) mappings ps).
Proof. induction ps as [|p ps IH]; cbn [remap_all]; silence. Qed.

Lemma silent_remove_all lib ps : silent (remove_all (Other := Other) lib ps).
Proof. revert lib. induction ps as [|p ps IH]; intros lib; cbn [remove_all]; silence. Qed.
Hint Resolve silent_remap_all silent_remove_all : silent.

Lemma silent_remap_ids_and_remove_invalid lib mappings :
  silent (remap_ids_and_remove_invalid (Other := Other) lib mappings).
Proof. unfold remap_ids_and_remove_invalid. silence. Qed.

Lemma silent_destroy_all ps : silent (destroy_all (Other := Other) ps).
Proof. induction ps as [|p ps IH]; cbn [destroy_all]; silence. Qed.

Lemma silent_for_each (fn : AssetLibrary -> M Other AssetLibrary) libs :
  (forall lib, silent (fn lib)) -> silent (for_each fn libs).
Proof. intros Hfn. induction libs as [|lib libs IH]; cbn [for_each]; silence. Qed.

End Silence.

(** ** Loading a library *)

Section Load.
Context {Other : Type} `{External}.

(** C7.  [AS_asset_library_load(name, library_dirpath)] first obtains the
    service and then makes exactly one call on it: when [library_dirpath] is
    null or the empty string, [get_asset_library_current_file()], whose result
    it returns; otherwise [get_asset_library_on_disk_custom(name,
    library_dirpath)], whose result it returns.  It changes nothing itself. *)
Theorem AS_asset_library_load_consults_service
        (name library_dirpath : option (list ascii)) (w : World Other) :
  let r := AS_asset_library_load name library_dirpath w in
  world r = w
  /\ (exists call, trace r = [E_service_get; E_service call])
  /\ ((library_dirpath = None \/ exists d, library_dirpath = Some d /\ c_str d = []) ->
      trace r = [E_service_get; E_service Call_get_asset_library_current_file]
      /\ result r = get_asset_library_current_file)
  /\ (forall d, library_dirpath = Some d -> c_str d <> [] ->
      trace r = [E_service_get;
                 E_service (Call_get_asset_library_on_disk_custom (c_str <$> name) (c_str d))]
      /\ result r = get_asset_library_on_disk_custom (c_str <$> name) (c_str d)).
Proof.
  intros r. subst r. unfold AS_asset_library_load.
  destruct library_dirpath as [d|]; [destruct (c_str d) as [|c s] eqn:Hd|].
  - split; [reflexivity|]. split; [eexists; reflexivity|]. split; [now intros _|].
    intros d' Hd' Hne. injection Hd' as <-. congruence.
  - split; [reflexivity|]. split; [eexists; reflexivity|]. split.
    + intros [Hn | (d' & Hd' & He)]; [discriminate|]. injection Hd' as <-. congruence.
    + intros d' Hd' _. injection Hd' as <-. rewrite Hd. now split.
  - split; [reflexivity|]. split; [eexists; reflexivity|]. split; [now intros _|].
    intros d' Hd'. discriminate Hd'.
Qed.

End Load.

(** ** Locking *)

Section Locking.
Context {Other : Type} `{External}.

Lemma trace_void {A} (m : M Other A) w : trace (void m w) = trace (m w).
Proof. unfold void. rewrite trace_bind. cbn. apply app_nil_r. Qed.

Lemma trace_load_catalogs lib (w : World Other) :
  trace (load_catalogs lib w)
  = [ E_catalog_load_from_disk (root_path lib);
      E_mutex_lock (catalog_service_mutex_ (self lib));
      E_mutex_unlock (catalog_service_mutex_ (self lib)) ].
Proof. reflexivity. Qed.

Lemma trace_foreach_loaded_asset_library fn include_all w :
  (forall lib, silent (fn lib)) ->
  trace (foreach_loaded_asset_library (Other := Other) fn include_all w)
  = [ E_service (Call_foreach_loaded_asset_library include_all) ].
Proof.
  intros Hfn. unfold foreach_loaded_asset_library. rewrite trace_bind.
  cbn [emit trace result world fst snd app]. f_equal.
  assert (Hs : silent (all' <- match all_library w with
                               | Some lib => if include_all
                                             then lib' <- fn lib ;; ret (Some lib')
                                             else ret (Some lib)
                               | None => ret None
                               end ;;
                       loaded' <- for_each fn (loaded_libraries w) ;;
                       put_libraries all' loaded')).
  { apply silent_bind.
    - destruct (all_library w); [destruct include_all|]; silence.
    - intros a. apply silent_bind; [now apply silent_for_each | intros; apply silent_put_libraries]. }
  apply Hs.
Qed.


End Locking.


(** ** Ownership of asset representations *)

Section Ownership.
Context {Other : Type} `{External}.

Lemma storage_ok_new this ty name root (w : World Other) :
  storage_ok (AssetLibrary_new this ty name root) w.
Proof.
  split; cbn; [set_solver|]. intros p Hp. unfold owned in Hp. cbn in Hp.
  apply elem_of_union in Hp as [Hp|Hp]; now apply elem_of_empty in Hp.
Qed.

Lemma fresh_not_owned lib (w : World Other) :
  storage_ok lib w -> fresh (dom (heap w)) ∉ owned lib.
Proof.
  intros [_ Hok] Hin. destruct (Hok _ Hin) as (b & r & Hb & _).
  apply (is_fresh (dom (heap w))). apply elem_of_dom. eauto.
Qed.

Lemma world_tuple {A} (a : A) (w : World Other) t : world (a, w, t) = w.
Proof. reflexivity. Qed.

Lemma result_tuple {A} (a : A) (w : World Other) t : result (a, w, t) = a.
Proof. reflexivity. Qed.

Lemma with_heap_heap (w : World Other) h : heap (with_heap w h) = h.
Proof. reflexivity. Qed.

Lemma with_heap_twice (w : World Other) h1 h2 : with_heap (with_heap w h1) h2 = with_heap w h2.
Proof. reflexivity. Qed.

Lemma with_heap_same (w : World Other) : with_heap w (heap w) = w.
Proof. now destruct w. Qed.

Lemma bind_run {A B} (m : M Other A) (f : A -> M Other B) w a w1 t1 b w2 t2 t :
  m w = (a, w1, t1) -> f a w1 = (b, w2, t2) -> t = t1 ++ t2 -> bind m f w = (b, w2, t).
Proof. intros Hm Hf ->. unfold bind. now rewrite Hm, Hf. Qed.

Lemma set_heap_at_run p (b : option (control_block Other)) w :
  set_heap_at p b w
  = (tt, with_heap w (match b with Some b' => <[p := b']> (heap w) | None => delete p (heap w) end),
     []).
Proof. reflexivity. Qed.

Lemma make_shared_run (r : AssetRepresentation Other) w :
  make_shared r w
  = (fresh (dom (heap w)),
     with_heap w (<[fresh (dom (heap w)) := {| use_count := 1; weak_count := 0;
                                               object := Some r |}]> (heap w)),
     []).
Proof. reflexivity. Qed.

Lemma shared_ptr_destroy_run p (w : World Other) :
  shared_ptr_destroy p w
  = (tt,
     match heap w !! p with
     | Some b => with_heap w (match release_block b with
                              | Some b' => <[p := b']> (heap w)
                              | None => delete p (heap w)
                              end)
     | None => w
     end,
     []).
Proof.
  unfold shared_ptr_destroy, bind, get_heap. cbn [fst snd].
  destruct (heap w !! p) as [b|]; reflexivity.
Qed.

Lemma weak_ptr_from_run p (w : World Other) b :
  heap w !! p = Some b ->
  weak_ptr_from p w
  = (p,
     with_heap w (<[p := {| use_count := use_count b; weak_count := S (weak_count b);
                            object := object b |}]> (heap w)),
     []).
Proof.
  intros Hb. unfold weak_ptr_from, bind, get_heap. cbn [fst snd]. rewrite Hb. reflexivity.
Qed.

Lemma lookup_key_or_add_new s p (w : World Other) :
  p ∉ s -> lookup_key_or_add s p w = ((p, {[p]} ∪ s), w, []).
Proof. intros Hp. unfold lookup_key_or_add. now rewrite decide_False. Qed.

Lemma remove_as_run s p (w : World Other) :
  remove_as s p w
  = if decide (p ∈ s)
    then ((true, s ∖ {[p]}), world (shared_ptr_destroy p w), [])
    else ((false, s), w, []).
Proof.
  unfold remove_as. destruct (decide (p ∈ s)); [|reflexivity].
  rewrite shared_ptr_destroy_run.
  eapply bind_run; [apply shared_ptr_destroy_run | reflexivity | reflexivity].
Qed.

Lemma add_external_asset_run lib path name ty md (w : World Other) :
  storage_ok lib w ->
  let p := fresh (dom (heap w)) in
  add_external_asset lib path name ty md w
  = ((p, set_storage lib {| external_assets := {[p]} ∪ external_assets (storage_ lib);
                            local_id_assets := local_id_assets (storage_ lib) |}),
     with_heap w (<[p := added_block (AssetRepresentation_external path name ty md (self lib))]>
                    (heap w)),
     []).
Proof.
  intros Hok p. pose proof (fresh_not_owned lib w Hok) as Hfresh. fold p in Hfresh.
  unfold add_external_asset.
  eapply bind_run; [apply make_shared_run| |reflexivity]. fold p.
  eapply bind_run; [apply lookup_key_or_add_new; unfold owned in Hfresh; set_solver| |reflexivity].
  eapply bind_run; [apply weak_ptr_from_run; cbn [fst heap with_heap]; apply lookup_insert_eq
                   | |reflexivity].
  cbn [fst snd with_heap heap use_count weak_count object]. rewrite insert_insert_eq. reflexivity.
Qed.

Lemma add_local_id_asset_run lib path id (w : World Other) :
  storage_ok lib w ->
  let p := fresh (dom (heap w)) in
  add_local_id_asset lib path id w
  = ((p, set_storage lib {| external_assets := external_assets (storage_ lib);
                            local_id_assets := {[p]} ∪ local_id_assets (storage_ lib) |}),
     with_heap w (<[p := added_block (AssetRepresentation_local path id (self lib))]> (heap w)),
     []).
Proof.
  intros Hok p. pose proof (fresh_not_owned lib w Hok) as Hfresh. fold p in Hfresh.
  unfold add_local_id_asset.
  eapply bind_run; [apply make_shared_run| |reflexivity]. fold p.
  eapply bind_run; [apply lookup_key_or_add_new; unfold owned in Hfresh; set_solver| |reflexivity].
  eapply bind_run; [apply weak_ptr_from_run; cbn [fst heap with_heap]; apply lookup_insert_eq
                   | |reflexivity].
  cbn [fst snd with_heap heap use_count weak_count object]. rewrite insert_insert_eq. reflexivity.
Qed.

Lemma set_storage_same lib : set_storage lib (storage_ lib) = lib.
Proof. now destruct lib. Qed.

Lemma storage_eta lib :
  {| external_assets := external_assets (storage_ lib);
     local_id_assets := local_id_assets (storage_ lib) |} = storage_ lib.
Proof. now destruct (storage_ lib). Qed.

Lemma remove_asset_run lib p (w : World Other) :
  remove_asset lib p w
  = if decide (p ∈ local_id_assets (storage_ lib)) then
      ((true, set_storage lib {| external_assets := external_assets (storage_ lib);
                                 local_id_assets := local_id_assets (storage_ lib) ∖ {[p]} |}),
       world (shared_ptr_destroy p w), [])
    else if decide (p ∈ external_assets (storage_ lib)) then
      ((true, set_storage lib {| external_assets := external_assets (storage_ lib) ∖ {[p]};
                                 local_id_assets := local_id_assets (storage_ lib) |}),
       world (shared_ptr_destroy p w), [])
    else ((false, lib), w, []).
Proof.
  unfold remove_asset.
  destruct (decide (p ∈ local_id_assets (storage_ lib))) as [Hl|Hl];
    [|destruct (decide (p ∈ external_assets (storage_ lib))) as [He|He]].
  - eapply bind_run; [rewrite remove_as_run, decide_True by assumption; reflexivity
                     | reflexivity | reflexivity].
  - eapply bind_run; [rewrite remove_as_run, decide_False by assumption; reflexivity
                     | | reflexivity].
    cbn [fst snd].
    eapply bind_run; [rewrite remove_as_run, decide_True by assumption; reflexivity
                     | reflexivity | reflexivity].
  - eapply bind_run; [rewrite remove_as_run, decide_False by assumption; reflexivity
                     | | reflexivity].
    cbn [fst snd].
    eapply bind_run; [rewrite remove_as_run, decide_False by assumption; reflexivity
                     | | reflexivity].
    cbn [fst snd]. now rewrite storage_eta, set_storage_same.
Qed.

Lemma heap_shared_ptr_destroy p q (w : World Other) :
  heap (world (shared_ptr_destroy p w)) !! q
  = if decide (q = p) then heap w !! p ≫= release_block else heap w !! q.
Proof.
  rewrite shared_ptr_destroy_run. unfold world. cbn [fst snd].
  destruct (decide (q = p)) as [->|Hne].
  - destruct (heap w !! p) as [b|] eqn:Hb; cbn; [|exact Hb].
    destruct (release_block b); cbn; [apply lookup_insert_eq | apply lookup_delete_eq].
  - destruct (heap w !! p) as [b|] eqn:Hb; [|reflexivity]. cbn [heap with_heap].
    destruct (release_block b); [now rewrite lookup_insert_ne | now rewrite lookup_delete_ne].
Qed.

Lemma release_block_last (b : control_block Other) :
  use_count b = 1 ->
  match release_block b with
  | Some b' => use_count b' = 0 /\ object b' = None
  | None => True
  end.
Proof.
  intros Hu. unfold release_block. rewrite Hu. destruct (weak_count b); cbn; auto.
Qed.

Lemma storage_ok_add lib (w : World Other) p (r : AssetRepresentation Other) st :
  storage_ok lib w -> heap w !! p = None ->
  (local_id_assets st = {[p]} ∪ local_id_assets (storage_ lib)
   /\ external_assets st = external_assets (storage_ lib))
  \/ (local_id_assets st = local_id_assets (storage_ lib)
      /\ external_assets st = {[p]} ∪ external_assets (storage_ lib)) ->
  storage_ok (set_storage lib st) (with_heap w (<[p := added_block r]> (heap w))).
Proof.
  intros [Hdisj Hok] Hnew Hst.
  assert (Hp : p ∉ owned lib).
  { intros Hin. destruct (Hok _ Hin) as (b & r' & Hb & _). congruence. }
  unfold owned in Hp. rewrite elem_of_union in Hp. split.
  - cbn [storage_ set_storage]. intros q Hq1 Hq2.
    destruct Hst as [[Hl He] | [Hl He]]; rewrite Hl in Hq1; rewrite He in Hq2.
    + apply elem_of_union in Hq1 as [Hq1|Hq1]; [|eapply Hdisj; eauto].
      apply elem_of_singleton in Hq1 as ->. tauto.
    + apply elem_of_union in Hq2 as [Hq2|Hq2]; [|eapply Hdisj; eauto].
      apply elem_of_singleton in Hq2 as ->. tauto.
  - intros q Hq. unfold owned in Hq. cbn [storage_ set_storage] in Hq. cbn [heap with_heap].
    destruct (decide (q = p)) as [->|Hne].
    + rewrite lookup_insert_eq. exists (added_block r), r. cbn. auto.
    + rewrite lookup_insert_ne by congruence. apply Hok. unfold owned.
      destruct Hst as [[Hl He] | [Hl He]]; rewrite Hl, He in Hq;
        rewrite !elem_of_union, elem_of_singleton in Hq; rewrite elem_of_union; tauto.
Qed.

Lemma storage_ok_remove lib (w : World Other) p st :
  storage_ok lib w ->
  (local_id_assets st = local_id_assets (storage_ lib) ∖ {[p]}
   /\ external_assets st = external_assets (storage_ lib)
   /\ p ∈ local_id_assets (storage_ lib))
  \/ (local_id_assets st = local_id_assets (storage_ lib)
      /\ external_assets st = external_assets (storage_ lib) ∖ {[p]}
      /\ p ∉ local_id_assets (storage_ lib)) ->
  storage_ok (set_storage lib st) (world (shared_ptr_destroy p w))
  /\ owned (set_storage lib st) = owned lib ∖ {[p]}.
Proof.
  intros [Hdisj Hok] Hst.
  assert (Hown : owned (set_storage lib st) = owned lib ∖ {[p]}).
  { unfold owned. cbn [storage_ set_storage]. apply set_eq. intros q.
    rewrite elem_of_difference, !elem_of_union, elem_of_singleton.
    destruct Hst as [(-> & -> & Hin) | (-> & -> & Hnl)].
    - rewrite elem_of_difference, elem_of_singleton.
      assert (p ∉ external_assets (storage_ lib)) by (intros ?; eapply Hdisj; eauto).
      split; [intros [[? ?]|?]; split; auto; congruence | tauto].
    - rewrite elem_of_difference, elem_of_singleton.
      split; [intros [?|[? ?]]; split; auto; congruence | tauto]. }
  split; [|exact Hown]. split.
  - cbn [storage_ set_storage]. intros q Hq1 Hq2.
    destruct Hst as [(Hl & He & Hin) | (Hl & He & Hnl)]; rewrite Hl in Hq1; rewrite He in Hq2.
    + apply elem_of_difference in Hq1 as [Hq1 _]. eapply Hdisj; eauto.
    + apply elem_of_difference in Hq2 as [Hq2 _]. eapply Hdisj; eauto.
  - intros q Hq. rewrite Hown in Hq. apply elem_of_difference in Hq as [Hq Hne].
    rewrite elem_of_singleton in Hne.
    rewrite heap_shared_ptr_destroy, decide_False by assumption. now apply Hok.
Qed.


(** ** The flag of a representation *)

Lemma flags_kept_refl (w : World Other) : flags_kept w w.
Proof. intros p r Hr. eauto. Qed.

Lemma flags_kept_trans (w1 w2 w3 : World Other) :
  flags_kept w1 w2 -> flags_kept w2 w3 -> flags_kept w1 w3.
Proof.
  intros H12 H23 p r3 Hr3. destruct (H23 _ _ Hr3) as (r2 & Hr2 & E23).
  destruct (H12 _ _ Hr2) as (r1 & Hr1 & E12). exists r1. split; [assumption | congruence].
Qed.

Lemma keeps_ret {A} (a : A) : keeps_flags (Other := Other) (ret a).
Proof. intros w. apply flags_kept_refl. Qed.

Lemma keeps_bind {A B} (m : M Other A) (f : A -> M Other B) :
  keeps_flags m -> (forall a, keeps_flags (f a)) -> keeps_flags (bind m f).
Proof.
  intros Hm Hf w. rewrite world_bind. eapply flags_kept_trans; [apply Hm | apply Hf].
Qed.

Lemma keeps_shared_ptr_destroy p : keeps_flags (Other := Other) (shared_ptr_destroy p).
Proof.
  intros w q r'. unfold obj_at. rewrite heap_shared_ptr_destroy.
  destruct (decide (q = p)) as [->|Hne]; [|intros Hq; eauto].
  destruct (heap w !! p) as [b|]; cbn; [|discriminate].
  unfold release_block. destruct (use_count b) as [|[|n]]; destruct (weak_count b); cbn;
    try discriminate; intros Hq; eauto.
Qed.

Lemma keeps_remove_as s p : keeps_flags (Other := Other) (remove_as s p).
Proof.
  intros w. rewrite remove_as_run.
  destruct (decide (p ∈ s)); rewrite world_tuple;
    [apply keeps_shared_ptr_destroy | apply flags_kept_refl].
Qed.

Lemma keeps_remove_asset lib p : keeps_flags (Other := Other) (remove_asset lib p).
Proof.
  intros w. rewrite remove_asset_run.
  destruct (decide (p ∈ local_id_assets (storage_ lib)));
    [|destruct (decide (p ∈ external_assets (storage_ lib)))]; rewrite world_tuple;
    [apply keeps_shared_ptr_destroy | apply keeps_shared_ptr_destroy | apply flags_kept_refl].
Qed.

Lemma keeps_remap_one mappings p : keeps_flags (Other := Other) (remap_one mappings p).
Proof.
  intros w. unfold remap_one, bind, get_heap. cbn [fst snd].
  destruct (heap w !! p) as [b|] eqn:Hb; [|apply flags_kept_refl].
  destruct (object b) as [asset|] eqn:Ho; [|apply flags_kept_refl].
  destruct (mappings (wrapped_id asset)) as [res id]. rewrite set_heap_at_run.
  unfold ret, world. cbn [fst snd].
  intros q r'. unfold obj_at. cbn [heap with_heap].
  destruct (decide (q = p)) as [->|Hne].
  - rewrite lookup_insert_eq, Hb. cbn [object]. intros Hq. injection Hq as <-.
    exists asset. split; [assumption | reflexivity].
  - rewrite lookup_insert_ne by congruence. intros Hq. eauto.
Qed.

Lemma keeps_remap_all mappings ps : keeps_flags (Other := Other) (remap_all mappings ps).
Proof.
  induction ps as [|p ps IH]; cbn [remap_all]; [apply keeps_ret|].
  apply keeps_bind; [apply keeps_remap_one|]. intros u.
  apply keeps_bind; [apply IH|]. intros removed. apply keeps_ret.
Qed.

Lemma keeps_remove_all lib ps : keeps_flags (Other := Other) (remove_all lib ps).
Proof.
  revert lib. induction ps as [|p ps IH]; intros lib; cbn [remove_all]; [apply keeps_ret|].
  apply keeps_bind; [apply keeps_remove_asset|]. intros r. apply IH.
Qed.

Lemma keeps_remap_ids_and_remove_invalid lib mappings :
  keeps_flags (Other := Other) (remap_ids_and_remove_invalid lib mappings).
Proof.
  unfold remap_ids_and_remove_invalid.
  apply keeps_bind; [apply keeps_remap_all|]. intros removed. apply keeps_remove_all.
Qed.

(** C4.  A representation is built by one of two constructors: the one for
    an ID of the current file gives [is_local_id()] true and [local_id()] the
    pointer to that ID; the one for an external asset, holding a name, an id
    type and metadata, gives [is_local_id()] false and [local_id()] null.
    For every representation, [local_id()] is the wrapped pointer when
    [is_local_id()] is true and null when it is false.  The flag is never
    written: the one store this file makes into a representation
    ([local_asset_id_], in [remap_ids_and_remove_invalid]) leaves the flag as it
    is and becomes what [local_id()] returns for a local asset; and after
    [remap_ids_and_remove_invalid] or [remove_asset] every object still alive
    has the flag it had before, while the two [add_*] operations leave the
    existing objects as they are. *)
Theorem local_id_follows_flag :
  (forall path id owner,
      let r := AssetRepresentation_local (Other := Other) path id owner in
      is_local_id r = true /\ local_id r = Some id /\ wrapped_id r = Some id)
  /\ (forall path name ty md owner,
         let r := AssetRepresentation_external (Other := Other) path name ty md owner in
         is_local_id r = false /\ local_id r = None)
  /\ (forall r : AssetRepresentation Other,
         (is_local_id r = true -> local_id r = wrapped_id r)
         /\ (is_local_id r = false -> local_id r = None)
         /\ (union_matches_flag r -> local_id r = wrapped_id r))
  /\ (forall (r : AssetRepresentation Other) id,
         is_local_id (set_local_asset_id r id) = is_local_id r
         /\ (is_local_id r = true -> local_id (set_local_asset_id r id) = id))
  /\ (forall lib mappings (w : World Other),
         flags_kept w (world (remap_ids_and_remove_invalid lib mappings w)))
  /\ (forall lib p (w : World Other), flags_kept w (world (remove_asset lib p w)))
  /\ (forall lib (w : World Other), storage_ok lib w ->
         (forall path name ty md q,
             q <> fst (result (add_external_asset lib path name ty md w)) ->
             obj_at (world (add_external_asset lib path name ty md w)) q = obj_at w q)
         /\ (forall path id q,
                q <> fst (result (add_local_id_asset lib path id w)) ->
                obj_at (world (add_local_id_asset lib path id w)) q = obj_at w q)).
Proof.
  split; [intros; cbv zeta; repeat split|].
  split; [intros; cbv zeta; repeat split|].
  split.
  { intros r. unfold local_id, is_local_id, wrapped_id, union_matches_flag.
    destruct (is_local_id_ r), (asset_ r); repeat split; try discriminate; try reflexivity;
      intros Hm; discriminate Hm. }
  split.
  { intros r id. split; [reflexivity|]. unfold local_id, is_local_id. cbn. now intros ->. }
  split; [intros; apply keeps_remap_ids_and_remove_invalid|].
  split; [intros; apply keeps_remove_asset|].
  intros lib w Hok. split.
  - intros path name ty md q. rewrite add_external_asset_run by assumption.
    rewrite world_tuple, result_tuple. cbn [fst]. intros Hq. unfold obj_at.
    cbn [heap with_heap]. now rewrite lookup_insert_ne by congruence.
  - intros path id q. rewrite add_local_id_asset_run by assumption.
    rewrite world_tuple, result_tuple. cbn [fst]. intros Hq. unfold obj_at.
    cbn [heap with_heap]. now rewrite lookup_insert_ne by congruence.
Qed.

End Ownership.


(** ** The list of valid library references *)

Section ValidRefs.
Context `{External}.

Lemma foreach_valid_custom_refs libs i acc :
  LISTBASE_FOREACH_INDEX
    (fun asset_library i result =>
       if negb (BLI_is_dir (dirpath asset_library)) then result
       else result ++ [ {| type := ASSET_LIBRARY_CUSTOM; custom_library_index := i |} ])
    libs i acc
  = acc ++ valid_custom_refs libs i.
Proof.
  revert i acc. induction libs as [|l libs IH]; intros i acc; cbn.
  - now rewrite app_nil_r.
  - rewrite IH. destruct (BLI_is_dir (dirpath l)); cbn [negb]; [|reflexivity].
    now rewrite <- app_assoc.
Qed.

Lemma valid_custom_refs_elem libs i r :
  (0 <= i)%Z -> (i + Z.of_nat (length libs) <= INT_MAX)%Z ->
  r ∈ valid_custom_refs libs i
  <-> exists k lib, libs !! k = Some lib /\ BLI_is_dir (dirpath lib) = true
                    /\ r = custom_ref (i + Z.of_nat k).
Proof.
  revert i. induction libs as [|l libs IH]; intros i Hi Hlen.
  - cbn. rewrite elem_of_nil. split; [intros []|]. intros (k & lib & Hk & _). discriminate.
  - cbn [valid_custom_refs]. cbn [length] in Hlen.
    assert (Hadd : int_add i 1 = (i + 1)%Z).
    { unfold int_add. apply GlutilFacts.wrap_int_id. unfold in_int, INT_MIN, INT_MAX in *. lia. }
    rewrite Hadd.
    assert (Hrec := IH (i + 1)%Z ltac:(lia) ltac:(lia)).
    destruct (BLI_is_dir (dirpath l)) eqn:Hdir.
    + rewrite elem_of_cons, Hrec. split.
      * intros [-> | (k & lib & Hk & Hd & ->)].
        -- exists 0%nat, l. repeat split; try assumption. unfold custom_ref. f_equal. lia.
        -- exists (S k), lib. repeat split; try assumption. unfold custom_ref. f_equal. lia.
      * intros ([|k] & lib & Hk & Hd & ->).
        -- left. unfold custom_ref. f_equal. lia.
        -- right. exists k, lib. repeat split; try assumption. unfold custom_ref. f_equal. lia.
    + rewrite Hrec. split.
      * intros (k & lib & Hk & Hd & ->).
        exists (S k), lib. repeat split; try assumption. unfold custom_ref. f_equal. lia.
      * intros ([|k] & lib & Hk & Hd & ->).
        -- cbn in Hk. injection Hk as <-. congruence.
        -- exists k, lib. repeat split; try assumption. unfold custom_ref. f_equal. lia.
Qed.

Lemma valid_custom_refs_sorted libs i :
  (0 <= i)%Z -> (i + Z.of_nat (length libs) <= INT_MAX)%Z ->
  StronglySorted index_lt (valid_custom_refs libs i).
Proof.
  revert i. induction libs as [|l libs IH]; intros i Hi Hlen; cbn [valid_custom_refs].
  - constructor.
  - cbn [length] in Hlen.
    assert (Hadd : int_add i 1 = (i + 1)%Z).
    { unfold int_add. apply GlutilFacts.wrap_int_id. unfold in_int, INT_MIN, INT_MAX in *. lia. }
    rewrite Hadd.
    destruct (BLI_is_dir (dirpath l)); [|apply IH; lia].
    constructor; [apply IH; lia|].
    apply Forall_forall. intros r Hr.
    apply valid_custom_refs_elem in Hr as (k & lib & _ & _ & ->); [|lia..].
    unfold index_lt. cbn. lia.
Qed.

(** C10.  With at most [INT_MAX] libraries in the preferences, the list
    returned by [all_valid_asset_library_refs] is the ESSENTIALS reference
    (index -1), then the custom references, then the LOCAL reference (index
    -1).  A reference is among the custom ones exactly when it has type
    [ASSET_LIBRARY_CUSTOM] and its index is the position in
    [U.asset_libraries] of a library whose [dirpath] is a directory; the
    custom references come in strictly increasing index, that is, in the order
    of the preferences list and without repetition. *)
Theorem all_valid_asset_library_refs_spec (U : UserDef) :
  (Z.of_nat (length (asset_libraries U)) <= INT_MAX)%Z ->
  exists custom,
    all_valid_asset_library_refs U
    = {| type := ASSET_LIBRARY_ESSENTIALS; custom_library_index := -1 |}
      :: custom ++ [ {| type := ASSET_LIBRARY_LOCAL; custom_library_index := -1 |} ]
    /\ (forall r, r ∈ custom
                  <-> exists k lib, asset_libraries U !! k = Some lib
                                    /\ BLI_is_dir (dirpath lib) = true
                                    /\ r = {| type := ASSET_LIBRARY_CUSTOM;
                                              custom_library_index := Z.of_nat k |})
    /\ StronglySorted index_lt custom.
Proof.
  intros Hlen. exists (valid_custom_refs (asset_libraries U) 0). split; [|split].
  - unfold all_valid_asset_library_refs. cbv zeta. now rewrite foreach_valid_custom_refs.
  - intros r. rewrite valid_custom_refs_elem by lia. reflexivity.
  - apply valid_custom_refs_sorted; lia.
Qed.

End ValidRefs.

Lemma all_valid_asset_library_refs_spec_witness :
  exists custom,
    @all_valid_asset_library_refs demo_external demo_prefs
    = {| type := ASSET_LIBRARY_ESSENTIALS; custom_library_index := -1 |}
      :: custom ++ [ {| type := ASSET_LIBRARY_LOCAL; custom_library_index := -1 |} ]
    /\ (forall r, r ∈ custom
                  <-> exists k lib, asset_libraries demo_prefs !! k = Some lib
                                    /\ @BLI_is_dir demo_external (dirpath lib) = true
                                    /\ r = {| type := ASSET_LIBRARY_CUSTOM;
                                              custom_library_index := Z.of_nat k |})
    /\ StronglySorted index_lt custom.
Proof.
  apply (@all_valid_asset_library_refs_spec demo_external demo_prefs).
  vm_compute. discriminate.
Defined.

Example all_valid_asset_library_refs_demo :
  @all_valid_asset_library_refs demo_external demo_prefs
  = [ {| type := ASSET_LIBRARY_ESSENTIALS; custom_library_index := -1 |};
      {| type := ASSET_LIBRARY_CUSTOM; custom_library_index := 0 |};
      {| type := ASSET_LIBRARY_CUSTOM; custom_library_index := 2 |};
      {| type := ASSET_LIBRARY_LOCAL; custom_library_index := -1 |} ].
Proof. reflexivity. Qed.

End AssetFacts.

(** * Properties of the tiling, the GL state and the batches *)

Module TilingFacts.
Import CArith Glutil GlutilSpec GlutilFacts.
Local Open Scope Z_scope.

Lemma components_of_range f comps : components_of f = Some comps -> 1 <= comps <= 4.
Proof.
  unfold components_of.
  repeat match goal with |- context [if ?b then _ else _] => destruct b end;
    intros [= <-]; lia.
Qed.

Lemma size_mul_id p q : 0 <= p -> 0 <= q -> p * q < 2 ^ 64 -> size_mul p q = p * q.
Proof. intros Hp Hq Hpq. unfold size_mul. apply wrap_size_id. nia. Qed.

Lemma size_add_id p q : 0 <= p -> 0 <= q -> p + q < 2 ^ 64 -> size_add p q = p + q.
Proof. intros Hp Hq Hpq. unfold size_add. apply wrap_size_id. lia. Qed.

Section Indices.
Variables (a : draw_args) (comps : Z).
Hypothesis Hrange : image_in_range a.
Hypothesis Hcomps : 1 <= comps <= 4.
Let t := tiling_of tex_w tex_h (img_w a) (img_h a).
Let off := tex_w - seamless t.

Lemma image_dims_in_range : 0 <= img_w a <= INT_MAX - 255 /\ 0 <= img_h a <= INT_MAX - 255.
Proof. unfold image_in_range, INT_MAX in *. lia. Qed.

Lemma col_first_pure sx :
  0 <= sx < nsubparts_x t -> col_first t comps sx = sx * off * comps /\ sx * off < img_w a.
Proof.
  intros Hsx. destruct image_dims_in_range as [Hw Hh].
  pose proof (tiling_seamless_cases a) as Hs. fold t in Hs.
  pose proof (tiling_offset_x a) as Ho. fold t in Ho.
  unfold t in Hsx. rewrite tiling_nsubparts_x in Hsx by assumption. fold t in Hsx.
  assert (sx * off < img_w a) as Hlt
    by (apply ceil_div_lt; [unfold off, tex_w; lia | apply Hsx]).
  split; [|assumption].
  unfold col_first, int_mul. rewrite Ho. fold off.
  unfold image_in_range, INT_MAX in *. unfold off, tex_w in *.
  rewrite (wrap_int_id (sx * _)) by (unfold in_int, INT_MIN, INT_MAX; nia).
  rewrite wrap_int_id by (unfold in_int, INT_MIN, INT_MAX; nia).
  apply wrap_size_id. nia.
Qed.

Lemma row_base_pure sy :
  0 <= sy < nsubparts_y t ->
  row_base a t comps sy = sy * off * img_w a * comps /\ sy * off < img_h a.
Proof.
  intros Hsy. destruct image_dims_in_range as [Hw Hh].
  pose proof (tiling_seamless_cases a) as Hs. fold t in Hs.
  pose proof (tiling_offset_y a) as Ho. fold t in Ho.
  unfold t in Hsy. rewrite tiling_nsubparts_y in Hsy by assumption. fold t in Hsy.
  assert (sy * off < img_h a) as Hlt
    by (apply ceil_div_lt; [unfold off, tex_w; lia | apply Hsy]).
  split; [|assumption].
  unfold row_base. rewrite Ho. change tex_h with tex_w. fold off.
  unfold image_in_range, INT_MAX in *. unfold off, tex_w in *.
  assert (0 <= sy * (256 - seamless t) * img_w a <= 2147483647 * 536870911) as Hp
    by (split; [nia|]; apply Z.mul_le_mono_nonneg; nia).
  rewrite !wrap_size_id by lia.
  rewrite (size_mul_id sy) by nia.
  rewrite (size_mul_id (sy * _)) by nia.
  apply size_mul_id; nia.
Qed.

Variables (sx sy : Z).
Hypothesis Hsx : 0 <= sx < nsubparts_x t.
Hypothesis Hsy : 0 <= sy < nsubparts_y t.
Let s := subpart_of a tex_w tex_h t sx sy.

Lemma subpart_w_inside : sx * off + subpart_w s <= img_w a.
Proof.
  destruct image_dims_in_range as [Hw Hh].
  pose proof (subpart_w_min a sx sy Hw Hsx) as H.
  change (subpart_w s = Z.min (img_w a - sx * off) tex_w) in H. lia.
Qed.

Lemma subpart_h_inside : sy * off + subpart_h s <= img_h a.
Proof.
  destruct image_dims_in_range as [Hw Hh].
  pose proof (subpart_h_min a sx sy Hh Hsy) as H.
  change (subpart_h s = Z.min (img_h a - sy * off) tex_w) in H. lia.
Qed.

Lemma col_last_pure :
  1 <= subpart_w s -> col_last t comps sx s = (sx * off + subpart_w s - 1) * comps.
Proof.
  intros Hpos. pose proof subpart_w_inside as Hin.
  destruct (col_first_pure sx Hsx) as [_ Hlt].
  pose proof (tiling_seamless_cases a) as Hs. fold t in Hs.
  pose proof (tiling_offset_x a) as Ho. fold t in Ho.
  unfold col_last, int_mul, int_sub, int_add. rewrite Ho. fold off. fold s.
  unfold image_in_range, INT_MAX in *. unfold off, tex_w in *.
  rewrite (wrap_int_id (sx * _)) by (unfold in_int, INT_MIN, INT_MAX; nia).
  rewrite (wrap_int_id (sx * _ + _)) by (unfold in_int, INT_MIN, INT_MAX; nia).
  rewrite (wrap_int_id (sx * _ + _ - 1)) by (unfold in_int, INT_MIN, INT_MAX; nia).
  rewrite wrap_int_id by (unfold in_int, INT_MIN, INT_MAX; nia).
  apply wrap_size_id. nia.
Qed.

Lemma last_row_base_pure :
  1 <= subpart_h s ->
  last_row_base a t comps sy s = (sy * off + subpart_h s - 1) * img_w a * comps.
Proof.
  intros Hpos. pose proof subpart_h_inside as Hin.
  destruct (row_base_pure sy Hsy) as [_ Hlt].
  pose proof (tiling_seamless_cases a) as Hs. fold t in Hs.
  pose proof (tiling_offset_y a) as Ho. fold t in Ho.
  unfold last_row_base. rewrite Ho. change tex_h with tex_w. fold off. fold s.
  unfold image_in_range, INT_MAX in *. unfold off, tex_w in *.
  assert (0 <= (sy * (256 - seamless t) + subpart_h s - 1) * img_w a
          <= 2147483647 * 536870911) as Hp
    by (split; [nia|]; apply Z.mul_le_mono_nonneg; nia).
  rewrite !wrap_size_id by nia.
  rewrite (size_mul_id sy) by nia.
  rewrite size_add_id by nia.
  unfold size_sub. rewrite (wrap_size_id (_ - 1)) by nia.
  rewrite (size_mul_id (_ - 1)) by nia.
  apply size_mul_id; nia.
Qed.

End Indices.

Lemma uploads_imm_subpart_inside a comps sx sy u :
  let t := tiling_of tex_w tex_h (img_w a) (img_h a) in
  image_in_range a -> 1 <= comps <= 4 ->
  0 <= sx < nsubparts_x t -> 0 <= sy < nsubparts_y t ->
  In u (uploads (imm_subpart a tex_w tex_h t comps sx sy)) ->
  reads_inside (img_w a) (img_h a) comps u.
Proof.
  intros t Hr Hc Hsx Hsy.
  pose proof (tiling_seamless_nonneg a) as Hs. fold t in Hs.
  destruct (col_first_pure a comps Hr Hc sx Hsx) as [Hcf Hx].
  destruct (row_base_pure a comps Hr Hc sy Hsy) as [Hrb Hy].
  pose proof (subpart_w_inside a Hr sx sy Hsx) as Hwi.
  pose proof (subpart_h_inside a Hr sx sy Hsy) as Hhi.
  pose proof (col_last_pure a comps Hr Hc sx sy Hsx) as Hcl.
  pose proof (last_row_base_pure a comps Hr Hc sx sy Hsy) as Hlb.
  fold t in Hcf, Hx, Hrb, Hy, Hwi, Hhi, Hcl, Hlb. cbv zeta in *.
  unfold imm_subpart.
  set (s := subpart_of a tex_w tex_h t sx sy) in *.
  set (off := tex_w - seamless t) in *.
  destruct (Z.leb_spec (subpart_w s) (seamless t)) as [Hw|Hw]; [intros []|].
  destruct (Z.leb_spec (subpart_h s) (seamless t)) as [Hh|Hh]; [intros []|].
  cbn [orb]. destruct (clipped_out a s); [intros []|].
  specialize (Hcl ltac:(lia)). specialize (Hlb ltac:(lia)).
  assert (0 <= sx * off /\ 0 <= sy * off) as [Hx0 Hy0]
    by (unfold off, tex_w; pose proof (tiling_seamless_cases a); fold t in H; nia).
  assert (0 <= img_w a) as Hw0 by (unfold image_in_range in Hr; lia).
  unfold uploads. rewrite pick_app. fold (uploads (imm_quad a tex_w tex_h s)).
  rewrite uploads_imm_quad, app_nil_r. unfold upload_subpart.
  rewrite Hcf, Hrb, Hcl, Hlb.
  assert (forall p q, 0 <= p < img_h a -> 0 <= q < img_w a ->
            size_add (p * img_w a * comps) (q * comps) = (p * img_w a + q) * comps) as Hadd.
  { intros p q Hp Hq. unfold image_in_range, INT_MAX in Hr.
    assert (0 <= p * img_w a <= 2147483647 * 536870911)
      by (split; [nia|]; apply Z.mul_le_mono_nonneg; lia).
    rewrite size_add_id by nia. ring. }
  rewrite !Hadd by lia.
  destruct (Z.ltb_spec (subpart_w s) tex_w), (Z.ltb_spec (subpart_h s) tex_h);
    cbn [andb app pick upload_of In];
    intros Hin; repeat (destruct Hin as [<-|Hin]); try contradiction;
    unfold reads_inside;
    (eexists; eexists; split; [reflexivity|lia]).
Qed.

Lemma imm_uploads_inside ctx texid a comps u :
  image_in_range a -> components_of (format a) = Some comps ->
  In u (uploads (snd (immDrawPixelsTexScaled_clipping ctx texid a))) ->
  reads_inside (img_w a) (img_h a) comps u.
Proof.
  intros Hr Hf Hu. pose proof (components_of_range _ _ Hf) as Hc.
  rewrite uploads_imm_draw, Hf in Hu. cbv zeta in Hu.
  apply in_flat_map in Hu as (sy & Hsy & Hu).
  apply in_flat_map in Hu as (sx & Hsx & Hu).
  apply in_for_range in Hsy, Hsx.
  exact (uploads_imm_subpart_inside a comps sx sy u Hr Hc Hsx Hsy Hu).
Qed.

(** X1.  Memory safety of the uploads of [immDrawPixelsTexScaled_clipping].
    For an image whose sizes keep the index arithmetic inside [int] and a
    supported format, every [glTexSubImage2D] the routine issues (tiles and
    the repeated border column, row and corner alike) starts at the element
    of a pixel [(px, py)] of the image and, with the row length set to
    [img_w], reads a rectangle that lies inside the [img_w] by [img_h]
    image: the routine never reads past the caller's buffer. *)
Theorem imm_uploads_read_inside_image ctx texid a comps :
  image_in_range a -> components_of (format a) = Some comps ->
  Forall (reads_inside (img_w a) (img_h a) comps)
         (uploads (snd (immDrawPixelsTexScaled_clipping ctx texid a))).
Proof.
  intros Hr Hf. apply List.Forall_forall. intros u Hu.
  exact (imm_uploads_inside ctx texid a comps u Hr Hf Hu).
Qed.

Lemma imm_uploads_read_inside_image_witness :
  Forall (reads_inside 510 300 4)
         (uploads (snd (immDrawPixelsTexScaled_clipping ctx0 texid_init (plain_call 510 300)))).
Proof.
  apply (imm_uploads_read_inside_image ctx0 texid_init (plain_call 510 300) 4).
  - unfold image_in_range, INT_MAX. cbn. lia.
  - reflexivity.
Defined.

Lemma lt_ceil_div a b k : 0 < b -> k * b < a -> k < ceil_div a b.
Proof.
  unfold ceil_div. intros Hb Hk.
  pose proof (Z.div_mod (- a) b ltac:(lia)) as H3.
  pose proof (Z.mod_pos_bound (- a) b Hb) as H4.
  nia.
Qed.

(** Along one axis: every pixel below [n] lies in a sub-part that the loop
    body keeps, provided the image is wider than the seam. *)
Lemma axis_cover n seam p :
  seam = 0 \/ seam = 2 -> seam < n -> 0 <= p < n ->
  exists k, 0 <= k < ceil_div n (tex_w - seam) /\
            seam < Z.min (n - k * (tex_w - seam)) tex_w /\
            k * (tex_w - seam) <= p < k * (tex_w - seam) + Z.min (n - k * (tex_w - seam)) tex_w.
Proof.
  intros Hs Hn Hp. unfold tex_w.
  set (off := 256 - seam). assert (0 < off) as Hoff by (unfold off; lia).
  pose proof (Z.div_mod p off ltac:(lia)) as Hdm.
  pose proof (Z.mod_pos_bound p off Hoff) as Hm.
  assert (0 <= p / off) as Hq by (apply Z.div_pos; lia).
  destruct (Z_lt_le_dec seam (n - (p / off) * off)) as [Hkeep|Hskip].
  - exists (p / off). split; [split; [lia|apply lt_ceil_div; nia]|]. split; [lia|]. nia.
  - assert (1 <= p / off) as Hq1 by nia.
    exists (p / off - 1). split; [split; [lia|apply lt_ceil_div; nia]|]. split; nia.
Qed.

Lemma imm_tiles_cover ctx texid a comps px py :
  image_in_range a -> components_of (format a) = Some comps ->
  use_clipping a = false ->
  (oversized a = true -> 3 <= img_w a /\ 3 <= img_h a) ->
  0 <= px < img_w a -> 0 <= py < img_h a ->
  exists tl, In tl (tiles (snd (immDrawPixelsTexScaled_clipping ctx texid a)))
             /\ covers (img_w a) comps px py tl.
Proof.
  intros Hr Hf Hclip Hthin Hpx Hpy. pose proof (components_of_range _ _ Hf) as Hc.
  rewrite tiles_imm_draw, Hf. cbv zeta.
  set (t := tiling_of tex_w tex_h (img_w a) (img_h a)).
  pose proof (tiling_seamless a) as Hseam. fold t in Hseam.
  pose proof (tiling_seamless_cases a) as Hs. fold t in Hs.
  destruct (image_dims_in_range a Hr) as [Hw Hh].
  assert (seamless t < img_w a /\ seamless t < img_h a) as [Hsw Hsh].
  { destruct (oversized a); [destruct Hthin; [reflexivity|]|]; lia. }
  destruct (axis_cover (img_w a) (seamless t) px Hs Hsw Hpx) as (sx & Hsx & Hkx & Hcx).
  destruct (axis_cover (img_h a) (seamless t) py Hs Hsh Hpy) as (sy & Hsy & Hky & Hcy).
  pose proof (tiling_nsubparts_x a Hw) as Hnx. pose proof (tiling_nsubparts_y a Hh) as Hny.
  fold t in Hnx, Hny. change tex_h with tex_w in Hny.
  rewrite <- Hnx in Hsx. rewrite <- Hny in Hsy.
  destruct (col_first_pure a comps Hr Hc sx Hsx) as [Hcf Hx].
  destruct (row_base_pure a comps Hr Hc sy Hsy) as [Hrb Hy].
  pose proof (subpart_w_min a sx sy Hw Hsx) as Hwm.
  pose proof (subpart_h_min a sx sy Hh Hsy) as Hhm.
  fold t in Hcf, Hx, Hrb, Hy, Hwm, Hhm. change tex_h with tex_w in *.
  exists (subpart_w (subpart_of a tex_w tex_w t sx sy),
          subpart_h (subpart_of a tex_w tex_w t sx sy),
          size_add (row_base a t comps sy) (col_first t comps sx)).
  split.
  - apply in_flat_map. exists sy. split; [now apply in_for_range|].
    apply in_flat_map. exists sx. split; [now apply in_for_range|].
    rewrite tiles_imm_subpart by lia. cbv zeta.
    rewrite not_clipped_without_clipping by assumption.
    change tex_h with tex_w. rewrite Hwm, Hhm.
    destruct (Z.ltb_spec (seamless t) (Z.min (img_w a - sx * (tex_w - seamless t)) tex_w));
      [|lia].
    destruct (Z.ltb_spec (seamless t) (Z.min (img_h a - sy * (tex_w - seamless t)) tex_w));
      [|lia].
    cbn [andb negb]. apply in_eq.
  - unfold covers. exists (sx * (tex_w - seamless t)), (sy * (tex_w - seamless t)).
    rewrite Hwm, Hhm, Hcf, Hrb. split; [|lia].
    unfold image_in_range, INT_MAX in Hr. unfold tex_w in *.
    assert (0 <= sy * (256 - seamless t) * img_w a <= 2147483647 * 536870911)
      by (split; [nia|]; apply Z.mul_le_mono_nonneg; nia).
    rewrite size_add_id by nia. ring.
Qed.

(** X2.  Coverage.  With clipping off, a supported format and sizes in range,
    every pixel of the image lies in a tile that the routine uploads,
    provided an image larger than the work texture is at least 3 pixels wide
    and high (below that the seam test drops every sub-part). *)
Theorem imm_tiles_cover_image ctx texid a comps px py :
  image_in_range a -> components_of (format a) = Some comps ->
  use_clipping a = false ->
  (oversized a = true -> 3 <= img_w a /\ 3 <= img_h a) ->
  0 <= px < img_w a -> 0 <= py < img_h a ->
  Exists (covers (img_w a) comps px py)
         (tiles (snd (immDrawPixelsTexScaled_clipping ctx texid a))).
Proof.
  intros Hr Hf Hclip Hthin Hpx Hpy. apply List.Exists_exists.
  exact (imm_tiles_cover ctx texid a comps px py Hr Hf Hclip Hthin Hpx Hpy).
Qed.

Lemma imm_tiles_cover_image_witness :
  Exists (covers 510 4 300 299)
         (tiles (snd (immDrawPixelsTexScaled_clipping ctx0 texid_init (plain_call 510 300)))).
Proof.
  apply (imm_tiles_cover_image ctx0 texid_init (plain_call 510 300) 4 300 299).
  - unfold image_in_range, INT_MAX. cbn. lia.
  - reflexivity.
  - reflexivity.
  - intros _. cbn. lia.
  - cbn. lia.
  - cbn. lia.
Defined.

(** ** What a call leaves behind *)

Lemma left_at_app {B} (f : gl_cmd -> option B) init l1 l2 :
  left_at f init (l1 ++ l2) = left_at f (left_at f init l1) l2.
Proof.
  unfold left_at. rewrite pick_app.
  destruct (pick f l2) as [|b l] eqn:E using rev_ind; [now rewrite app_nil_r|].
  now rewrite app_assoc, !last_last.
Qed.

Lemma pick_nil_flat_map {A B} (f : gl_cmd -> option B) (g : A -> list gl_cmd) l :
  (forall i, pick f (g i) = []) -> pick f (flat_map g l) = [].
Proof.
  intros Hg. rewrite pick_flat_map. induction l as [|i l IH]; cbn; [reflexivity|].
  now rewrite Hg, IH.
Qed.

Lemma pick_upload_subpart {B} (f : gl_cmd -> option B) a tw th t comps sx sy s :
  (forall tg lv xo yo w h fm ty d, f (glTexSubImage2D tg lv xo yo w h fm ty d) = None) ->
  pick f (upload_subpart a tw th t comps sx sy s) = [].
Proof.
  intros Hf. unfold upload_subpart.
  destruct (subpart_w s <? tw), (subpart_h s <? th); cbn [andb app pick];
    rewrite ?Hf; reflexivity.
Qed.

(** Commands recognised by [f] never come from the loop body when [f]
    ignores uploads and immediate-mode batches. *)
Lemma pick_imm_subpart_none {B} (f : gl_cmd -> option B) a tw th t comps sx sy :
  (forall tg lv xo yo w h fm ty d, f (glTexSubImage2D tg lv xo yo w h fm ty d) = None) ->
  (forall s, pick f (imm_quad a tw th s) = []) ->
  pick f (imm_subpart a tw th t comps sx sy) = [].
Proof.
  intros Hu Hq. unfold imm_subpart.
  destruct (_ || _); [reflexivity|]. destruct (clipped_out _ _); [reflexivity|].
  now rewrite pick_app, pick_upload_subpart, Hq.
Qed.

Lemma imm_state_restored ctx texid a comps (row tex : Z) (prog : bool) :
  components_of (format a) = Some comps ->
  let cmds := snd (immDrawPixelsTexScaled_clipping ctx texid a) in
  left_at row_length_of row cmds = 0 /\
  left_at texture_of tex cmds = 0 /\
  left_at program_of prog cmds = false.
Proof.
  intros Hf. cbv zeta. unfold immDrawPixelsTexScaled_clipping, get_cached_work_texture.
  rewrite Hf. destruct (texid =? -1); cbn [fst snd];
    rewrite !app_assoc, !left_at_app; repeat split; reflexivity.
Qed.

(** X3.  The GL state at return.  With a supported format the routine ends
    with no program bound, texture 0 bound and [GL_UNPACK_ROW_LENGTH] back at
    0, whatever they were before.  With any other format it returns early:
    the work texture stays bound, [GL_UNPACK_ROW_LENGTH] stays at [img_w],
    the program binding is untouched, and nothing is uploaded, allocated or
    drawn besides the creation of the work texture on the first call. *)
Theorem imm_state_on_return ctx texid a (row tex : Z) (prog : bool) :
  let cmds := snd (immDrawPixelsTexScaled_clipping ctx texid a) in
  match components_of (format a) with
  | Some _ =>
    left_at row_length_of row cmds = 0 /\
    left_at texture_of tex cmds = 0 /\
    left_at program_of prog cmds = false
  | None =>
    left_at row_length_of row cmds = img_w a /\
    left_at texture_of tex cmds = fst (immDrawPixelsTexScaled_clipping ctx texid a) /\
    left_at program_of prog cmds = prog /\
    uploads cmds = [] /\
    pick alloc_of cmds = pick alloc_of (snd (fst (get_cached_work_texture ctx texid))) /\
    pick begin_of cmds = []
  end.
Proof.
  cbv zeta. destruct (components_of (format a)) as [comps|] eqn:Hf.
  - exact (imm_state_restored ctx texid a comps row tex prog Hf).
  - unfold immDrawPixelsTexScaled_clipping, get_cached_work_texture. rewrite Hf.
    destruct (texid =? -1); cbn [fst snd]; repeat split; reflexivity.
Qed.

(** ** The cached work texture *)

Lemma gen_imm_draw ctx texid a :
  pick gen_of (snd (immDrawPixelsTexScaled_clipping ctx texid a))
  = (if texid =? -1 then [fresh_texture ctx] else []) /\
  fst (immDrawPixelsTexScaled_clipping ctx texid a)
  = (if texid =? -1 then fresh_texture ctx else texid).
Proof.
  unfold immDrawPixelsTexScaled_clipping, get_cached_work_texture.
  assert (pick gen_of (imm_bind ctx a) = []) as Hb.
  { unfold imm_bind. destruct (c_true _); [destruct (negb _)|]; reflexivity. }
  assert (forall tw th t comps,
            pick gen_of
              (flat_map (fun sy => flat_map (fun sx => imm_subpart a tw th t comps sx sy)
                                            (for_range (nsubparts_x t)))
                        (for_range (nsubparts_y t))) = []) as Hl.
  { intros. apply pick_nil_flat_map. intros sy. apply pick_nil_flat_map. intros sx.
    apply pick_imm_subpart_none; reflexivity. }
  destruct (components_of (format a)) as [comps|]; destruct (texid =? -1); cbn [fst snd];
    (split; [|reflexivity]); rewrite ?pick_app, ?Hb, ?Hl; destruct (type a =? GL_FLOAT);
    reflexivity.
Qed.

Lemma draw_all_cached texid calls :
  texid <> -1 ->
  pick gen_of (snd (draw_all texid calls)) = [] /\ fst (draw_all texid calls) = texid.
Proof.
  intros Ht. induction calls as [|[ctx a] rest IH]; [split; reflexivity|].
  cbn [draw_all fst snd]. destruct (gen_imm_draw ctx texid a) as [Hg Hf].
  destruct (Z.eqb_spec texid (-1)) as [|_]; [contradiction|].
  rewrite pick_app, Hg, Hf. exact IH.
Qed.



(** ** Immediate-mode batches *)

Lemma imm_run_app {C} (kind : C -> imm_kind) st l1 l2 :
  imm_run kind st (l1 ++ l2)
  = match imm_run kind st l1 with Some st' => imm_run kind st' l2 | None => None end.
Proof.
  revert st. induction l1 as [|c l1 IH]; intros st; [reflexivity|].
  cbn [app imm_run]. destruct (imm_step st (kind c)); [apply IH|reflexivity].
Qed.

Lemma imm_protocol_app st l1 l2 :
  imm_protocol st (l1 ++ l2)
  = match imm_protocol st l1 with Some st' => imm_protocol st' l2 | None => None end.
Proof. apply imm_run_app. Qed.

Lemma imm_protocol_upload_subpart st a tw th t comps sx sy s :
  imm_protocol st (upload_subpart a tw th t comps sx sy s) = Some st.
Proof.
  unfold upload_subpart.
  destruct (subpart_w s <? tw), (subpart_h s <? th); destruct st; reflexivity.
Qed.

Lemma imm_protocol_imm_subpart a tw th t comps sx sy :
  imm_protocol None (imm_subpart a tw th t comps sx sy) = Some None.
Proof.
  unfold imm_subpart.
  destruct (_ || _); [reflexivity|]. destruct (clipped_out _ _); [reflexivity|].
  now rewrite imm_protocol_app, imm_protocol_upload_subpart.
Qed.

Lemma imm_protocol_flat_map {A} (g : A -> list gl_cmd) l :
  (forall i, imm_protocol None (g i) = Some None) ->
  imm_protocol None (flat_map g l) = Some None.
Proof.
  intros Hg. induction l as [|i l IH]; [reflexivity|].
  cbn [flat_map]. now rewrite imm_protocol_app, Hg.
Qed.

Lemma begin_imm_subpart a t comps sx sy :
  0 <= seamless t ->
  pick begin_of (imm_subpart a tex_w tex_h t comps sx sy)
  = map (fun _ => (GL_TRIANGLE_FAN, 4)) (tiles (imm_subpart a tex_w tex_h t comps sx sy)).
Proof.
  intros Hs. rewrite tiles_imm_subpart by assumption. cbv zeta. unfold imm_subpart.
  set (s := subpart_of a tex_w tex_h t sx sy).
  destruct (Z.leb_spec (subpart_w s) (seamless t)) as [Hw|Hw];
    destruct (Z.leb_spec (subpart_h s) (seamless t)) as [Hh|Hh];
    destruct (Z.ltb_spec (seamless t) (subpart_w s));
    destruct (Z.ltb_spec (seamless t) (subpart_h s)); try lia; cbn [orb andb]; try reflexivity.
  destruct (clipped_out a s); cbn [negb]; [reflexivity|].
  rewrite pick_app, pick_upload_subpart by reflexivity. reflexivity.
Qed.

Lemma begin_imm_draw ctx texid a :
  pick begin_of (snd (immDrawPixelsTexScaled_clipping ctx texid a))
  = map (fun _ => (GL_TRIANGLE_FAN, 4))
        (tiles (snd (immDrawPixelsTexScaled_clipping ctx texid a))).
Proof.
  rewrite tiles_imm_draw.
  assert (pick begin_of (imm_bind ctx a) = []) as Hb.
  { unfold imm_bind. destruct (c_true _); [destruct (negb _)|]; reflexivity. }
  pose proof (tiling_seamless_nonneg a) as Hs.
  unfold immDrawPixelsTexScaled_clipping, get_cached_work_texture.
  destruct (texid =? -1); destruct (components_of (format a)) as [comps|]; cbn [snd];
    rewrite ?pick_app, ?pick_flat_map, ?Hb;
    destruct (type a =? GL_FLOAT); cbn [pick app begin_of]; rewrite ?app_nil_r;
    try reflexivity;
    cbv zeta; rewrite map_flat_map; apply flat_map_agree; intros sy _;
    rewrite pick_flat_map, map_flat_map; apply flat_map_agree; intros sx _;
    now apply begin_imm_subpart.
Qed.

(** X5.  Immediate-mode batches.  In every call the batches are well formed:
    each [immBegin] is followed by exactly the number of vertices it
    announces and then by [immEnd], attributes and vertices occur only inside
    a batch, and no batch is left open.  There is one batch per uploaded
    tile, always a triangle fan of 4 vertices. *)
Theorem imm_batches_well_formed ctx texid a :
  imm_protocol None (snd (immDrawPixelsTexScaled_clipping ctx texid a)) = Some None /\
  pick begin_of (snd (immDrawPixelsTexScaled_clipping ctx texid a))
  = map (fun _ => (GL_TRIANGLE_FAN, 4))
        (tiles (snd (immDrawPixelsTexScaled_clipping ctx texid a))).
Proof.
  split; [|apply begin_imm_draw].
  assert (forall st, imm_protocol st (imm_bind ctx a) = Some st) as Hb.
  { intros st. unfold imm_bind.
    destruct (c_true _); [destruct (negb _)|]; destruct st; reflexivity. }
  assert (forall tw th t comps,
            imm_protocol None
              (flat_map (fun sy => flat_map (fun sx => imm_subpart a tw th t comps sx sy)
                                            (for_range (nsubparts_x t)))
                        (for_range (nsubparts_y t))) = Some None) as Hl.
  { intros. apply imm_protocol_flat_map. intros sy. apply imm_protocol_flat_map.
    intros sx. apply imm_protocol_imm_subpart. }
  unfold immDrawPixelsTexScaled_clipping, get_cached_work_texture.
  unfold imm_protocol in *.
  destruct (texid =? -1); destruct (components_of (format a)) as [comps|]; cbn [snd];
    try reflexivity;
    rewrite !imm_run_app; destruct (type a =? GL_FLOAT);
    cbn [app imm_run imm_step gl_kind];
    rewrite imm_run_app, Hb; cbv beta iota; rewrite imm_run_app, Hl; reflexivity.
Qed.

(** ** Oversized images that are too thin *)

Lemma flat_map_nil {A B} (g : A -> list B) l :
  (forall i, In i l -> g i = []) -> flat_map g l = [].
Proof.
  induction l as [|i l IH]; intros Hg; [reflexivity|].
  cbn [flat_map]. rewrite Hg by (now left). apply IH. intros j Hj. apply Hg. now right.
Qed.

Lemma imm_subpart_thin a comps sx sy :
  let t := tiling_of tex_w tex_h (img_w a) (img_h a) in
  dims_in_range a -> oversized a = true -> img_w a <= 2 \/ img_h a <= 2 ->
  0 <= sx < nsubparts_x t -> 0 <= sy < nsubparts_y t ->
  imm_subpart a tex_w tex_h t comps sx sy = [].
Proof.
  intros t [Hw Hh] Hover Hthin Hsx Hsy.
  pose proof (tiling_seamless a) as Hseam. rewrite Hover in Hseam. fold t in Hseam.
  pose proof (subpart_w_min a sx sy Hw Hsx) as Hwm.
  pose proof (subpart_h_min a sx sy Hh Hsy) as Hhm.
  fold t in Hwm, Hhm. rewrite Hseam in Hwm, Hhm.
  unfold t in Hsx, Hsy.
  rewrite tiling_nsubparts_x in Hsx by assumption.
  rewrite tiling_nsubparts_y in Hsy by assumption.
  fold t in Hsx, Hsy. rewrite Hseam in Hsx, Hsy.
  assert (0 <= sx * (tex_w - 2) /\ 0 <= sy * (tex_h - 2)) as [Hx0 Hy0]
    by (unfold tex_w, tex_h; lia).
  unfold imm_subpart. rewrite Hseam.
  set (s := subpart_of a tex_w tex_h t sx sy) in *.
  destruct Hthin as [Hthin|Hthin].
  - destruct (Z.leb_spec (subpart_w s) 2); [reflexivity|lia].
  - destruct (Z.leb_spec (subpart_h s) 2); [now rewrite orb_true_r|lia].
Qed.

(** X21.  An oversized image that is too thin is not drawn.  When the image
    is larger than the work texture in one direction and at most 2 pixels in
    the other, every sub-part fails the seam test: the routine uploads
    nothing and opens no batch, whatever the format and the clip
    rectangle. *)
Theorem thin_oversized_image_not_drawn ctx texid a :
  dims_in_range a -> oversized a = true -> img_w a <= 2 \/ img_h a <= 2 ->
  uploads (snd (immDrawPixelsTexScaled_clipping ctx texid a)) = [] /\
  pick begin_of (snd (immDrawPixelsTexScaled_clipping ctx texid a)) = [].
Proof.
  intros Hd Hover Hthin.
  rewrite begin_imm_draw, tiles_imm_draw, uploads_imm_draw.
  destruct (components_of (format a)) as [comps|]; [|split; reflexivity].
  cbv zeta.
  split; [|apply (f_equal (map (fun _ => (GL_TRIANGLE_FAN, 4))) (y := []))];
    apply flat_map_nil; intros sy Hsy; apply flat_map_nil; intros sx Hsx;
    apply in_for_range in Hsx, Hsy; now rewrite imm_subpart_thin.
Qed.

Lemma thin_oversized_image_not_drawn_witness :
  uploads (snd (immDrawPixelsTexScaled_clipping ctx0 texid_init (plain_call 300 2))) = [].
Proof.
  apply (thin_oversized_image_not_drawn ctx0 texid_init (plain_call 300 2)).
  - unfold dims_in_range, INT_MAX. cbn. lia.
  - reflexivity.
  - right. cbn. lia.
Defined.

End TilingFacts.

(** * Properties of the drawing helpers *)

Module GlutilDrawFacts.
Import CArith Glutil GlutilSpec GlutilFacts TilingFacts GlutilDraw.
Local Open Scope Z_scope.

(** ** Packed colours *)

Lemma unpack_bytes r g b a :
  0 <= r < 256 -> 0 <= g < 256 -> 0 <= b < 256 -> 0 <= a < 256 ->
  let x := r + g * 2 ^ 8 + b * 2 ^ 16 + a * 2 ^ 24 in
  Z.land x 0xFF = r /\ Z.land (Z.shiftr x 8) 0xFF = g /\ Z.land (Z.shiftr x 16) 0xFF = b.
Proof.
  intros Hr Hg Hb Ha x.
  change 0xFF with (Z.ones 8). rewrite !Z.land_ones, !Z.shiftr_div_pow2 by lia.
  subst x. change (2 ^ 8) with 256. change (2 ^ 16) with 65536.
  change (2 ^ 24) with 16777216.
  repeat split.
  - symmetry. apply (Z.mod_unique_pos _ _ (g + b * 256 + a * 65536)); lia.
  - symmetry. apply (Z.mod_unique_pos _ _ (b + a * 256)); [lia|].
    symmetry. apply (Z.div_unique_pos _ _ _ r); lia.
  - symmetry. apply (Z.mod_unique_pos _ _ a); [lia|].
    symmetry. apply (Z.div_unique_pos _ _ _ (r + g * 256)); lia.
Qed.

(** X6.  [imm_cpack] and [cpack] read a colour packed as 0xAABBGGRR: the
    three colour bytes come out in the order red, green, blue and the top
    byte is ignored. *)
Theorem cpack_unpacks_bytes r g b a :
  0 <= r < 256 -> 0 <= g < 256 -> 0 <= b < 256 -> 0 <= a < 256 ->
  imm_cpack (r + g * 2 ^ 8 + b * 2 ^ 16 + a * 2 ^ 24) = [immUniformColor3ub r g b] /\
  cpack (r + g * 2 ^ 8 + b * 2 ^ 16 + a * 2 ^ 24) = [glColor3ub r g b].
Proof.
  intros Hr Hg Hb Ha.
  destruct (unpack_bytes r g b a Hr Hg Hb Ha) as (H1 & H2 & H3).
  unfold imm_cpack, cpack. now rewrite H1, H2, H3.
Qed.

Lemma cpack_unpacks_bytes_witness :
  imm_cpack 0xFF336699 = [immUniformColor3ub 0x99 0x66 0x33].
Proof.
  apply (cpack_unpacks_bytes 0x99 0x66 0x33 0xFF); lia.
Defined.

(** ** Immediate-mode batches of the shape helpers *)

Lemma length_for_range n : Z.of_nat (length (for_range n)) = Z.max 0 n.
Proof. unfold for_range. rewrite length_map, length_seq. lia. Qed.

Lemma imm_run_vertices {C} (kind : C -> imm_kind) (l : list C) owed :
  Forall (fun c => kind c = k_vertex) l -> 0 <= owed ->
  imm_run kind (Some owed) l
  = if Z.of_nat (length l) <=? owed then Some (Some (owed - Z.of_nat (length l))) else None.
Proof.
  intros Hl. revert owed. induction Hl as [|c l Hc _ IH]; intros owed Howed.
  - cbn [imm_run length]. destruct (Z.leb_spec (Z.of_nat 0) owed); [|lia].
    f_equal. f_equal. lia.
  - cbn [imm_run length]. rewrite Hc. cbn [imm_step].
    destruct (Z.ltb_spec 0 owed).
    + rewrite IH by lia. destruct (Z.leb_spec (Z.of_nat (length l)) (owed - 1));
        destruct (Z.leb_spec (Z.of_nat (S (length l))) owed); try lia.
      * f_equal. f_equal. lia.
      * reflexivity.
    + destruct (Z.leb_spec (Z.of_nat (S (length l))) owed); [lia|reflexivity].
Qed.

(** A loop whose body always takes [k] vertices takes [k] times its number
    of iterations. *)
Lemma imm_run_flat_map {A C} (kind : C -> imm_kind) (g : A -> list C) k l owed :
  0 <= k -> 0 <= owed ->
  (forall i owed', 0 <= owed' ->
                   imm_run kind (Some owed') (g i)
                   = if k <=? owed' then Some (Some (owed' - k)) else None) ->
  imm_run kind (Some owed) (flat_map g l)
  = if k * Z.of_nat (length l) <=? owed
    then Some (Some (owed - k * Z.of_nat (length l))) else None.
Proof.
  intros Hk Howed Hg. revert owed Howed. induction l as [|i l IH]; intros owed Howed.
  - cbn [flat_map imm_run length]. destruct (Z.leb_spec (k * Z.of_nat 0) owed); [|lia].
    f_equal. f_equal. lia.
  - cbn [flat_map length]. rewrite imm_run_app, Hg by assumption.
    destruct (Z.leb_spec k owed).
    + rewrite IH by lia. destruct (Z.leb_spec (k * Z.of_nat (length l)) (owed - k));
        destruct (Z.leb_spec (k * Z.of_nat (S (length l))) owed); try lia.
      * f_equal. f_equal. lia.
      * reflexivity.
    + destruct (Z.leb_spec (k * Z.of_nat (S (length l))) owed); [nia|reflexivity].
Qed.

Lemma wrap_uint_id z : 0 <= z < 2 ^ 32 -> wrap_uint z = z.
Proof. intros Hz. unfold wrap_uint. now apply Z.mod_small. Qed.

Section Shapes.
Variables cosf sinf : float -> float.
Variable sub_v3_v3v3 : float3 -> float3 -> float3.
Variable normalize_v3 : float3 -> float3.

(** X7.  The circle helpers ([imm_draw_circle], hence
    [imm_draw_lined_circle] and [imm_draw_filled_circle], and
    [imm_draw_lined_circle_3D]) issue a complete batch, with exactly as many
    vertices as [immBegin] was told, if and only if [nsegments] is not
    negative.  A negative [nsegments] is converted to a huge unsigned count
    while the loop body never runs, so that [immEnd] closes a batch that is
    still owed its vertices. *)
Theorem imm_circle_batch_complete prim_type pos x y rad nsegments :
  INT_MIN <= nsegments <= INT_MAX ->
  (imm_protocol None (imm_draw_circle cosf sinf prim_type pos x y rad nsegments) = Some None
   <-> 0 <= nsegments) /\
  (imm_run draw_kind None (imm_draw_lined_circle_3D cosf sinf pos x y rad nsegments)
   = Some None <-> 0 <= nsegments).
Proof.
  intros Hn. unfold INT_MIN, INT_MAX in Hn.
  unfold imm_protocol, imm_draw_circle, imm_draw_lined_circle_3D.
  cbn [app imm_run imm_step gl_kind draw_kind].
  rewrite !imm_run_app.
  assert (0 <= wrap_uint nsegments) as Hu by (apply Z.mod_pos_bound; lia).
  rewrite !imm_run_vertices
    by (assumption || (apply List.Forall_forall; intros c Hc;
                       apply in_map_iff in Hc as (i & <- & _); reflexivity)).
  rewrite !length_map, length_for_range. unfold wrap_uint.
  destruct (Z_lt_le_dec nsegments 0) as [Hneg|Hpos].
  - replace (nsegments mod 2 ^ 32) with (nsegments + 2 ^ 32)
      by (apply (Z.mod_unique_pos _ _ (-1)); lia).
    destruct (Z.leb_spec (Z.max 0 nsegments) (nsegments + 2 ^ 32)); [|lia].
    cbn [imm_run imm_step gl_kind draw_kind].
    destruct (Z.eqb_spec (nsegments + 2 ^ 32 - Z.max 0 nsegments) 0); [lia|].
    split; (split; [discriminate|lia]).
  - rewrite Z.mod_small by lia.
    destruct (Z.leb_spec (Z.max 0 nsegments) nsegments); [|lia].
    cbn [imm_run imm_step gl_kind draw_kind].
    destruct (Z.eqb_spec (nsegments - Z.max 0 nsegments) 0); [|lia].
    split; (split; [lia|reflexivity]).
Qed.

Lemma imm_run_cylinder_quad pos nor base top height stacks cos1 sin1 cos2 sin2 j owed :
  imm_run draw_kind (Some owed)
    (cylinder_quad sub_v3_v3v3 normalize_v3 pos nor base top height stacks
                   cos1 sin1 cos2 sin2 j)
  = if 6 <=? owed then Some (Some (owed - 6)) else None.
Proof.
  unfold cylinder_quad. cbv zeta. cbn [imm_run imm_step draw_kind].
  repeat match goal with
         | |- context [if 0 <? ?z then _ else _] => destruct (Z.ltb_spec 0 z)
         end;
    destruct (Z.leb_spec 6 owed); try lia; try reflexivity.
  f_equal. f_equal. lia.
Qed.

(** X8.  [imm_cylinder] announces [6 * slices * stacks] vertices and issues
    exactly that many, six per quad, whenever the counts are not negative
    and the product fits an [int]; whatever [cosf], [sinf] and the vector
    helpers compute. *)
Theorem imm_cylinder_batch_complete pos nor base top height slices stacks :
  0 <= slices -> 0 <= stacks -> 6 * slices * stacks <= INT_MAX ->
  imm_run draw_kind None
    (imm_cylinder cosf sinf sub_v3_v3v3 normalize_v3 pos nor base top height slices stacks)
  = Some None.
Proof.
  intros Hsl Hst Hmax. unfold INT_MAX in Hmax. unfold imm_cylinder.
  cbn [app imm_run imm_step gl_kind draw_kind]. rewrite imm_run_app.
  assert (wrap_uint (int_mul (int_mul 6 slices) stacks) = 6 * slices * stacks) as ->.
  { destruct (Z.eq_dec stacks 0) as [->|Hne].
    - unfold int_mul. rewrite !Z.mul_0_r. reflexivity.
    - unfold int_mul.
      rewrite (wrap_int_id (6 * slices)) by (unfold in_int, INT_MIN, INT_MAX; nia).
      rewrite wrap_int_id by (unfold in_int, INT_MIN, INT_MAX; nia).
      apply wrap_uint_id. nia. }
  rewrite (imm_run_flat_map draw_kind _ (6 * stacks)); [|lia|nia|].
  - rewrite length_for_range.
    destruct (Z.leb_spec (6 * stacks * Z.max 0 slices) (6 * slices * stacks)); [|nia].
    cbn [imm_run imm_step gl_kind draw_kind].
    destruct (Z.eqb_spec (6 * slices * stacks - 6 * stacks * Z.max 0 slices) 0); [|nia].
    reflexivity.
  - intros i owed' Howed'. cbv zeta.
    rewrite (imm_run_flat_map draw_kind _ 6);
      [|lia|assumption|intros; apply imm_run_cylinder_quad].
    rewrite length_for_range. replace (6 * Z.max 0 stacks) with (6 * stacks) by lia.
    reflexivity.
Qed.

(** X9.  With [nsegments = 1] the arc helpers divide 0 by 0: the angle of
    their only arc vertex is NaN, for every start, angle and radius. *)
Theorem arc_single_segment_is_nan start angle radius :
  glutil_draw_filled_arc cosf sinf start angle radius 1
  = [ glBegin GL_TRIANGLE_FAN; glVertex2f f_zero f_zero;
      glVertex2f (fmul (cosf S754_nan) radius) (fmul (sinf S754_nan) radius);
      glEnd ] /\
  glutil_draw_lined_arc cosf sinf start angle radius 1
  = [ glBegin GL_LINE_STRIP;
      glVertex2f (fmul (cosf S754_nan) radius) (fmul (sinf S754_nan) radius);
      glEnd ].
Proof.
  assert (arc_angle start angle 1 0 = S754_nan) as Hnan.
  { unfold arc_angle. cbv zeta.
    change (fdiv (float_of_int 0) (float_of_int (int_sub 1 1))) with S754_nan.
    assert (fmul S754_nan angle = S754_nan) as -> by (destruct angle; reflexivity).
    destruct start; reflexivity. }
  unfold glutil_draw_filled_arc, glutil_draw_lined_arc.
  change (for_range 1) with [0]. cbn [map app]. unfold arc_vertex. cbv zeta.
  rewrite Hnan. split; reflexivity.
Qed.

End Shapes.

Lemma imm_circle_batch_complete_witness :
  imm_protocol None
    (imm_draw_lined_circle (fun a => a) (fun a => a) 0 f_zero f_zero f_one 40) = Some None.
Proof.
  apply (imm_circle_batch_complete (fun a => a) (fun a => a)
           PRIM_LINE_LOOP 0 f_zero f_zero f_one 40).
  - unfold INT_MIN, INT_MAX. lia.
  - lia.
Defined.

Lemma imm_cylinder_batch_complete_witness :
  imm_run draw_kind None
    (imm_cylinder (fun a => a) (fun a => a) (fun a _ => a) (fun a => a)
                  0 1 f_one f_one f_one 8 2) = Some None.
Proof.
  apply imm_cylinder_batch_complete; unfold INT_MAX; lia.
Defined.

(** ** Drawing an image buffer *)

Section ImBufFacts.
Variables (env : imb_env) (ctx_glsl ctx_fallback : gl_context).


(** X11.  A float image that GLSL accepts but whose channel count is
    neither 1, 3 nor 4 is not drawn at all: the set-up is finished, no
    pixels are drawn, the fallback is not taken and the work texture is not
    touched. *)
Theorem imbuf_float_channels_not_drawn texid ibuf x y zoomfilter view display
        c1 c2 c3 c4 zx zy :
  rect_float ibuf <> None ->
  image_draw_method env = IMAGE_DRAW_METHOD_GLSL ->
  channels ibuf <> 1 -> channels ibuf <> 3 -> channels ibuf <> 4 ->
  (forall cs d p, setup_glsl_draw_from_space env cs d p <> 0) ->
  (forall d p, setup_glsl_draw env d p <> 0) ->
  let r := glaDrawImBuf_glsl_clipping env ctx_glsl ctx_fallback texid ibuf x y zoomfilter
             view display c1 c2 c3 c4 zx zy in
  fst r = texid /\
  count is_draw (snd r) = 0%nat /\ count is_acquire (snd r) = 0%nat /\
  count is_finish (snd r) = 1%nat.
Proof.
  intros Hrf Hm H1 H3 H4 Hs1 Hs2. cbv zeta.
  unfold glaDrawImBuf_glsl_clipping, glsl_draw.
  destruct (rect_float ibuf) as [rf|]; [|contradiction].
  rewrite Hm, Z.eqb_refl.
  destruct (Z.eqb_spec (channels ibuf) 1); [contradiction|].
  destruct (Z.eqb_spec (channels ibuf) 3); [contradiction|].
  destruct (Z.eqb_spec (channels ibuf) 4); [contradiction|].
  assert (forall z, z <> 0 -> c_true z = true) as Hct
    by (intros z Hz; unfold c_true; destruct (Z.eqb_spec z 0); [contradiction|reflexivity]).
  destruct (rect ibuf), (float_colorspace ibuf); cbn [orb negb];
    rewrite Hct by (apply Hs1 || apply Hs2); cbn; repeat split; reflexivity.
Qed.

(** X12.  Whatever [glaDrawImBuf_glsl_clipping] draws, it draws with a
    format that [immDrawPixelsTex_clipping] supports; so the early return of
    that routine is never taken from here, and after each draw no program is
    bound, texture 0 is bound and [GL_UNPACK_ROW_LENGTH] is 0. *)
Theorem imbuf_draws_restore_gl_state texid ibuf x y zoomfilter view display
        c1 c2 c3 c4 zx zy src format type cmds (row tex : Z) (prog : bool) :
  In (draw_pixels src format type cmds)
     (snd (glaDrawImBuf_glsl_clipping env ctx_glsl ctx_fallback texid ibuf x y zoomfilter
             view display c1 c2 c3 c4 zx zy)) ->
  components_of format <> None /\
  left_at row_length_of row cmds = 0 /\
  left_at texture_of tex cmds = 0 /\
  left_at program_of prog cmds = false.
Proof.
  intros Hin. unfold glaDrawImBuf_glsl_clipping, glsl_draw, draw_buffer in Hin.
  destruct (rect ibuf), (rect_float ibuf), (float_colorspace ibuf),
    (channels ibuf =? 1), (image_draw_method env =? IMAGE_DRAW_METHOD_GLSL),
    (display_buffer env);
    cbn [orb negb fst snd app In] in Hin;
    repeat match type of Hin with
           | context [c_true ?z] => destruct (c_true z)
           | context [channels ibuf =? ?k] => destruct (channels ibuf =? k)
           end;
    try change (GL_RGB =? 0) with false in Hin;
    try change (GL_RGBA =? 0) with false in Hin;
    try change (0 =? 0) with true in Hin;
    cbn [orb negb fst snd app In] in Hin;
    repeat (destruct Hin as [Hin|Hin]); try discriminate Hin; try contradiction;
    injection Hin as <- <- <- <-;
    (split; [discriminate|]);
    unfold immDrawPixelsTex_clipping;
    eapply imm_state_restored; reflexivity.
Qed.

(** X19.  [glaDrawImBuf_glsl] draws the whole image.  For an image whose
    sizes are in range, each draw it makes uses as many components per pixel
    as the buffer it draws has (the channel count for the float buffer, 4
    for the byte and display buffers), reads only inside the image, and,
    unless the image is larger than the work texture and less than 3 pixels
    wide or high, uploads every pixel in some tile. *)
Theorem imbuf_glsl_draws_whole_image texid ibuf x y zoomfilter view display zx zy
        src format type cmds :
  In (draw_pixels src format type cmds)
     (snd (glaDrawImBuf_glsl env ctx_glsl ctx_fallback texid ibuf x y zoomfilter view display zx zy)) ->
  imbuf_in_range ibuf ->
  exists comps,
    components_of format = Some comps /\
    (src = of_rect_float -> comps = channels ibuf) /\
    (src <> of_rect_float -> comps = 4) /\
    Forall (reads_inside (ib_x ibuf) (ib_y ibuf) comps) (uploads cmds) /\
    ((tex_w < ib_x ibuf \/ tex_h < ib_y ibuf -> 3 <= ib_x ibuf /\ 3 <= ib_y ibuf) ->
     forall px py, 0 <= px < ib_x ibuf -> 0 <= py < ib_y ibuf ->
                   Exists (covers (ib_x ibuf) comps px py) (tiles cmds)).
Proof.
  intros Hin Hr.
  assert (forall ctx a comps,
            Glutil.img_w a = ib_x ibuf -> Glutil.img_h a = ib_y ibuf ->
            components_of (Glutil.format a) = Some comps ->
            use_clipping a = false ->
            Forall (reads_inside (ib_x ibuf) (ib_y ibuf) comps)
                   (uploads (snd (immDrawPixelsTexScaled_clipping ctx texid a))) /\
            ((tex_w < ib_x ibuf \/ tex_h < ib_y ibuf -> 3 <= ib_x ibuf /\ 3 <= ib_y ibuf) ->
             forall px py, 0 <= px < ib_x ibuf -> 0 <= py < ib_y ibuf ->
                           Exists (covers (ib_x ibuf) comps px py)
                                  (tiles (snd (immDrawPixelsTexScaled_clipping ctx texid a)))))
    as Hdraw.
  { intros ctx a comps Hw Hh Hf Hclip.
    assert (image_in_range a) as Ha by (unfold image_in_range; rewrite Hw, Hh; exact Hr).
    rewrite <- Hw, <- Hh. split.
    { apply List.Forall_forall. intros u Hu. now apply (imm_uploads_inside ctx texid). }
    intros Hthin px py Hpx Hpy. apply List.Exists_exists.
    apply imm_tiles_cover; try assumption.
    unfold oversized. rewrite orb_true_iff, !Z.ltb_lt. exact Hthin. }
  unfold glaDrawImBuf_glsl, glaDrawImBuf_glsl_clipping, glsl_draw, draw_buffer in Hin.
  destruct (rect ibuf), (rect_float ibuf), (float_colorspace ibuf),
    (channels ibuf =? 1), (image_draw_method env =? IMAGE_DRAW_METHOD_GLSL),
    (display_buffer env);
    cbn [orb negb fst snd app In] in Hin;
    repeat match type of Hin with
           | context [c_true ?z] => destruct (c_true z)
           | context [channels ibuf =? ?k] => destruct (Z.eqb_spec (channels ibuf) k)
           end;
    try change (GL_RGB =? 0) with false in Hin;
    try change (GL_RGBA =? 0) with false in Hin;
    try change (0 =? 0) with true in Hin;
    cbn [orb negb fst snd app In] in Hin;
    repeat (destruct Hin as [Hin|Hin]); try discriminate Hin; try contradiction;
    injection Hin as <- <- <- <-;
    unfold immDrawPixelsTex_clipping;
    (eexists; split; [reflexivity|]);
    (split; [intros; try congruence|]);
    (split; [intros; try congruence|]);
    apply Hdraw; reflexivity.
Qed.

End ImBufFacts.

Lemma imbuf_float_channels_not_drawn_witness :
  count is_draw
    (snd (glaDrawImBuf_glsl_clipping glsl_env ctx0 ctx0 texid_init two_channel_image
            f_zero f_zero GL_LINEAR 0 0 f_zero f_zero f_zero f_zero f_one f_one))
  = 0%nat.
Proof.
  apply (imbuf_float_channels_not_drawn glsl_env ctx0 ctx0 texid_init two_channel_image
           f_zero f_zero GL_LINEAR 0 0 f_zero f_zero f_zero f_zero f_one f_one);
    try (cbn; intros; lia); try discriminate; reflexivity.
Defined.

Lemma imbuf_glsl_draws_whole_image_witness :
  exists comps,
    components_of GL_RGBA = Some comps /\
    Forall (reads_inside 16 16 comps)
           (uploads (snd (immDrawPixelsTex_clipping ctx0 texid_init f_zero f_zero 16 16
                            GL_RGBA GL_UNSIGNED_BYTE GL_LINEAR
                            f_zero f_zero f_zero f_zero f_one f_one None))).
Proof.
  destruct (imbuf_glsl_draws_whole_image glsl_env ctx0 ctx0 texid_init byte_image
              f_zero f_zero GL_LINEAR 0 0 f_one f_one
              of_rect GL_RGBA GL_UNSIGNED_BYTE
              (snd (immDrawPixelsTex_clipping ctx0 texid_init f_zero f_zero 16 16
                      GL_RGBA GL_UNSIGNED_BYTE GL_LINEAR
                      f_zero f_zero f_zero f_zero f_one f_one None)))
    as (comps & Hf & _ & _ & Hin & _).
  - right. left. reflexivity.
  - unfold imbuf_in_range, INT_MAX. cbn. lia.
  - exists comps. split; assumption.
Defined.

Lemma imbuf_draws_restore_gl_state_witness :
  left_at row_length_of 16
    (snd (immDrawPixelsTex_clipping ctx0 texid_init f_zero f_zero 16 16
            GL_RGBA GL_UNSIGNED_BYTE GL_LINEAR
            f_zero f_zero f_zero f_zero f_one f_one None)) = 0.
Proof.
  apply (imbuf_draws_restore_gl_state glsl_env ctx0 ctx0 texid_init byte_image
           f_zero f_zero GL_LINEAR 0 0 f_zero f_zero f_zero f_zero f_one f_one
           of_rect GL_RGBA GL_UNSIGNED_BYTE _ 16 0 false).
  right. left. reflexivity.
Defined.

End GlutilDrawFacts.

(** * Properties of the asset storage, the save handler and the string helpers *)

Module AssetStorageFacts.
Import CArith AssetSystem AssetSpec AssetFacts AssetStorageSpec.

Section Remap.
Context {Other : Type} `{External}.

Lemma remap_one_run mappings p (w : World Other) :
  exists h',
    remap_one mappings p w = (unassigned mappings w p, with_heap w h', []) /\
    forall q, h' !! q = if decide (q = p) then remapped mappings <$> heap w !! q
                        else heap w !! q.
Proof.
  unfold remap_one, unassigned, obj_at, bind, get_heap. cbn [fst snd].
  destruct (heap w !! p) as [b|] eqn:Hb.
  - destruct (object b) as [asset|] eqn:Ho.
    + destruct (mappings (wrapped_id asset)) as [res id] eqn:Hm.
      eexists. split.
      * cbn. reflexivity.
      * intros q. cbn. destruct (decide (q = p)) as [->|Hne].
        -- rewrite lookup_insert_eq, Hb. cbn. unfold remapped. now rewrite Ho, Hm.
        -- now rewrite lookup_insert_ne.
    + exists (heap w). split; [now rewrite with_heap_same|].
      intros q. destruct (decide (q = p)) as [->|Hne]; [|reflexivity].
      rewrite Hb. cbn. unfold remapped. now rewrite Ho.
  - exists (heap w). split; [now rewrite with_heap_same|].
    intros q. destruct (decide (q = p)) as [->|Hne]; [|reflexivity].
    now rewrite Hb.
Qed.

Lemma unassigned_heap mappings (w w' : World Other) p :
  heap w' !! p = heap w !! p -> unassigned mappings w' p = unassigned mappings w p.
Proof. intros Hp. unfold unassigned, obj_at. now rewrite Hp. Qed.

Lemma remap_all_run mappings ps (w : World Other) :
  NoDup ps ->
  exists h',
    remap_all mappings ps w = (List.filter (unassigned mappings w) ps, with_heap w h', []) /\
    forall q, h' !! q = if decide (q ∈ ps) then remapped mappings <$> heap w !! q
                        else heap w !! q.
Proof.
  intros Hnd. revert w. induction Hnd as [|p ps Hp Hnd IH]; intros w.
  - exists (heap w). split; [cbn; unfold ret; now rewrite with_heap_same|].
    intros q. rewrite decide_False by apply not_elem_of_nil. reflexivity.
  - destruct (remap_one_run mappings p w) as (h1 & Hone & Hh1).
    destruct (IH (with_heap w h1)) as (h2 & Hall & Hh2).
    exists h2. split.
    + cbn [remap_all]. eapply bind_run; [exact Hone| |reflexivity].
      eapply bind_run; [exact Hall| |reflexivity].
      rewrite with_heap_twice. cbn [List.filter]. unfold ret. f_equal. f_equal.
      assert (List.filter (unassigned mappings (with_heap w h1)) ps
              = List.filter (unassigned mappings w) ps) as ->.
      { apply List.filter_ext_in. intros q Hq. apply unassigned_heap.
        rewrite with_heap_heap, Hh1. rewrite decide_False; [reflexivity|].
        intros ->. apply Hp. now apply list_elem_of_In. }
      reflexivity.
    + intros q. rewrite Hh2, with_heap_heap, Hh1.
      destruct (decide (q = p)) as [->|Hne].
      * rewrite (decide_False (P := p ∈ ps)) by assumption.
        rewrite decide_True by apply list_elem_of_here. reflexivity.
      * destruct (decide (q ∈ ps)) as [Hin|Hnin].
        -- rewrite decide_True by (now apply list_elem_of_further). reflexivity.
        -- rewrite decide_False; [reflexivity|].
           rewrite elem_of_cons. tauto.
Qed.

Lemma set_storage_twice (lib : AssetLibrary) st1 st2 :
  set_storage (set_storage lib st1) st2 = set_storage lib st2.
Proof. reflexivity. Qed.

Lemma remove_all_run lib ps (w : World Other) :
  storage_ok lib w -> NoDup ps ->
  (forall p, p ∈ ps -> p ∈ local_id_assets (storage_ lib)) ->
  exists st' w',
    remove_all lib ps w = (set_storage lib st', w', []) /\
    local_id_assets st' = local_id_assets (storage_ lib) ∖ list_to_set ps /\
    external_assets st' = external_assets (storage_ lib) /\
    storage_ok (set_storage lib st') w' /\
    (forall q, q ∉ ps -> heap w' !! q = heap w !! q) /\
    save_catalogs_when_file_is_saved w' = save_catalogs_when_file_is_saved w /\
    loaded_libraries w' = loaded_libraries w /\ all_library w' = all_library w.
Proof.
  intros Hok Hnd. revert lib w Hok. induction Hnd as [|p ps Hp Hnd IH]; intros lib w Hok Hin.
  - exists (storage_ lib), w. rewrite set_storage_same.
    split; [reflexivity|]. split.
    { cbn [list_to_set]. apply set_eq. intros q. rewrite elem_of_difference.
      split; [intros ?; split; [assumption|apply not_elem_of_empty]|tauto]. }
    repeat split; auto; apply Hok.
  - set (st1 := {| external_assets := external_assets (storage_ lib);
                   local_id_assets := local_id_assets (storage_ lib) ∖ {[p]} |}).
    assert (p ∈ local_id_assets (storage_ lib)) as Hpl by (apply Hin, list_elem_of_here).
    destruct (storage_ok_remove lib w p st1 Hok) as [Hok1 _]; [left; auto|].
    destruct (IH (set_storage lib st1) (world (shared_ptr_destroy p w)) Hok1)
      as (st' & w' & Hrun & Hl & He & Hok' & Hframe & Hs & Hll & Hal).
    { intros q Hq. cbn [storage_ set_storage st1 local_id_assets].
      apply elem_of_difference. split; [apply Hin; now apply list_elem_of_further|].
      rewrite elem_of_singleton. intros ->. contradiction. }
    rewrite set_storage_twice in Hrun, Hok'.
    exists st', w'. split.
    { cbn [remove_all]. eapply bind_run;
        [rewrite remove_asset_run, decide_True by assumption; reflexivity| |reflexivity].
      cbn [snd]. exact Hrun. }
    split.
    { rewrite Hl. cbn [storage_ set_storage st1 local_id_assets list_to_set].
      apply set_eq. intros q.
      rewrite !elem_of_difference, elem_of_union, elem_of_singleton. tauto. }
    split; [exact He|]. split; [exact Hok'|].
    rewrite shared_ptr_destroy_run in Hs, Hll, Hal. unfold world in Hs, Hll, Hal.
    cbn [fst snd] in Hs, Hll, Hal.
    split; [|destruct (heap w !! p); auto].
    intros q Hq. rewrite not_elem_of_cons in Hq. destruct Hq as [Hne Hq].
    rewrite Hframe by assumption. rewrite heap_shared_ptr_destroy.
    now rewrite decide_False.
Qed.

Lemma storage_ok_heap lib (w w' : World Other) :
  storage_ok lib w ->
  (forall p b, p ∈ owned lib -> heap w !! p = Some b ->
               exists b', heap w' !! p = Some b' /\ use_count b' = use_count b /\
                          (is_Some (object b) -> is_Some (object b'))) ->
  storage_ok lib w'.
Proof.
  intros [Hdisj Hok] Hh. split; [exact Hdisj|]. intros p Hp.
  destruct (Hok p Hp) as (b & r & Hb & Hu & Ho).
  destruct (Hh p b Hp Hb) as (b' & Hb' & Hu' & Ho').
  destruct Ho' as [r' Hr']; [rewrite Ho; eauto|].
  exists b', r'. rewrite Hu'. auto.
Qed.

Lemma remapped_use_count mappings (b : control_block Other) :
  use_count (remapped mappings b) = use_count b /\
  (is_Some (object b) -> is_Some (object (remapped mappings b))).
Proof.
  unfold remapped. destruct (object b) eqn:Ho; cbn; [eauto|]. rewrite Ho. auto.
Qed.

(** What [remap_ids_and_remove_invalid] does to a storage in order. *)
Lemma remap_ids_and_remove_invalid_run lib mappings (w : World Other) :
  storage_ok lib w ->
  exists st' w',
    remap_ids_and_remove_invalid lib mappings w = (set_storage lib st', w', []) /\
    external_assets st' = external_assets (storage_ lib) /\
    (forall p, p ∈ local_id_assets st'
               <-> p ∈ local_id_assets (storage_ lib) /\ unassigned mappings w p = false) /\
    (forall p, p ∈ local_id_assets st' ->
               heap w' !! p = remapped mappings <$> heap w !! p) /\
    (forall p, p ∉ local_id_assets (storage_ lib) -> heap w' !! p = heap w !! p) /\
    storage_ok (set_storage lib st') w'.
Proof.
  intros Hok. unfold remap_ids_and_remove_invalid.
  set (ps := elements (local_id_assets (storage_ lib))).
  destruct (remap_all_run mappings ps w (NoDup_elements _)) as (h1 & Hall & Hh1).
  set (removed := List.filter (unassigned mappings w) ps) in *.
  assert (forall p, p ∈ removed <-> p ∈ local_id_assets (storage_ lib)
                                    /\ unassigned mappings w p = true) as Hrem.
  { intros p. subst removed. rewrite list_elem_of_In, List.filter_In, <- list_elem_of_In.
    subst ps. now rewrite elem_of_elements. }
  assert (storage_ok lib (with_heap w h1)) as Hok1.
  { apply (storage_ok_heap lib w _ Hok). intros p b _ Hb.
    rewrite with_heap_heap, Hh1. destruct (decide (p ∈ ps)); rewrite Hb; cbn.
    - eexists. split; [reflexivity|]. apply remapped_use_count.
    - eauto. }
  destruct (remove_all_run lib removed (with_heap w h1) Hok1)
    as (st' & w' & Hrun & Hl & He & Hok' & Hframe & _).
  { subst removed. apply NoDup_ListNoDup, List.NoDup_filter, NoDup_ListNoDup, NoDup_elements. }
  { intros p Hp. now apply Hrem in Hp. }
  exists st', w'. split; [eapply bind_run; [exact Hall|exact Hrun|reflexivity]|].
  split; [exact He|].
  assert (forall p, p ∈ local_id_assets st'
                    <-> p ∈ local_id_assets (storage_ lib)
                        /\ unassigned mappings w p = false) as Hloc.
  { intros p. rewrite Hl, elem_of_difference, elem_of_list_to_set, Hrem.
    destruct (unassigned mappings w p); intuition congruence. }
  split; [exact Hloc|]. split; [|split; [|exact Hok']].
  - intros p Hp. apply Hloc in Hp as [Hp Hu].
    rewrite Hframe by (rewrite Hrem; intros [_ ?]; congruence).
    rewrite with_heap_heap, Hh1. rewrite decide_True; [reflexivity|].
    subst ps. now apply elem_of_elements.
  - intros p Hp. rewrite Hframe by (rewrite Hrem; tauto).
    rewrite with_heap_heap, Hh1. rewrite decide_False; [reflexivity|].
    subst ps. now rewrite elem_of_elements.
Qed.

(** X13.  [remap_ids_and_remove_invalid] on a storage in order.  It makes no
    call leaving the file and leaves the external assets alone.  A local-ID
    asset stays in the storage exactly when the remapper does not report its
    ID as unassigned; an asset that stays wraps the pointer the remapper
    left; blocks of assets outside the local-ID set are untouched; and the
    storage is in order again.  If the remapper reports "unassigned"
    whenever it leaves a null pointer, no asset that stays wraps a null
    ID. *)
Theorem remap_removes_unassigned_assets lib mappings (w : World Other) :
  storage_ok lib w ->
  let r := remap_ids_and_remove_invalid lib mappings w in
  trace r = []
  /\ external_assets (storage_ (result r)) = external_assets (storage_ lib)
  /\ (forall p, p ∈ local_id_assets (storage_ (result r))
                <-> p ∈ local_id_assets (storage_ lib) /\ unassigned mappings w p = false)
  /\ (forall p asset,
        p ∈ local_id_assets (storage_ (result r)) -> obj_at w p = Some asset ->
        obj_at (world r) p
        = Some (set_local_asset_id asset (snd (mappings (wrapped_id asset)))))
  /\ (forall p, p ∉ local_id_assets (storage_ lib) -> heap (world r) !! p = heap w !! p)
  /\ storage_ok (result r) (world r)
  /\ ((forall id, snd (mappings id) = None ->
                  fst (mappings id) = ID_REMAP_RESULT_SOURCE_UNASSIGNED) ->
      forall p, p ∈ local_id_assets (storage_ (result r)) ->
                exists asset id, obj_at (world r) p = Some asset /\ wrapped_id asset = Some id).
Proof.
  intros Hok. cbv zeta.
  destruct (remap_ids_and_remove_invalid_run lib mappings w Hok)
    as (st' & w' & -> & He & Hloc & Hsurv & Hframe & Hok').
  unfold trace, result, world. cbn [fst snd storage_ set_storage].
  assert (forall p asset,
            p ∈ local_id_assets st' -> obj_at w p = Some asset ->
            obj_at w' p
            = Some (set_local_asset_id asset (snd (mappings (wrapped_id asset))))) as Hobj.
  { intros p asset Hp Ho. unfold obj_at in *. rewrite Hsurv by assumption.
    destruct (heap w !! p) as [b|]; [|discriminate]. cbn. unfold remapped.
    rewrite Ho. reflexivity. }
  repeat (split; [assumption || reflexivity|]).
  intros Hnull p Hp. pose proof Hp as Hp'. apply Hloc in Hp' as [Hin Hun].
  destruct Hok as [_ Hok]. destruct (Hok p) as (b & asset & Hb & _ & Ho).
  { unfold owned. now apply elem_of_union_l. }
  assert (obj_at w p = Some asset) as Hat by (unfold obj_at; now rewrite Hb).
  rewrite (Hobj p asset Hp Hat). unfold unassigned in Hun. rewrite Hat in Hun.
  destruct (snd (mappings (wrapped_id asset))) as [id|] eqn:Hid.
  - eauto.
  - rewrite (Hnull _ Hid) in Hun. discriminate.
Qed.

(** ** The storage along a sequence of calls *)

Lemma storage_step_ok lib c (w : World Other) :
  storage_ok lib w ->
  storage_ok (result (storage_step lib c w)) (world (storage_step lib c w))
  /\ trace (storage_step lib c w) = [].
Proof.
  intros Hok. destruct c as [path name ty md|path id|asset|mappings]; cbn [storage_step].
  - pose proof (add_external_asset_run lib path name ty md w Hok) as Hrun. cbv zeta in Hrun.
    erewrite bind_run; [|exact Hrun|reflexivity|reflexivity].
    unfold result, world, trace. cbn [fst snd]. split; [|reflexivity].
    apply storage_ok_add; [assumption| |right; split; reflexivity].
    apply not_elem_of_dom, is_fresh.
  - pose proof (add_local_id_asset_run lib path id w Hok) as Hrun. cbv zeta in Hrun.
    erewrite bind_run; [|exact Hrun|reflexivity|reflexivity].
    unfold result, world, trace. cbn [fst snd]. split; [|reflexivity].
    apply storage_ok_add; [assumption| |left; split; reflexivity].
    apply not_elem_of_dom, is_fresh.
  - pose proof (remove_asset_run lib asset w) as Hrun.
    destruct (decide (asset ∈ local_id_assets (storage_ lib))) as [Hl|Hl];
      [|destruct (decide (asset ∈ external_assets (storage_ lib))) as [He|He]];
      (erewrite bind_run; [|exact Hrun|reflexivity|reflexivity]);
      unfold result, world, trace; cbn [fst snd]; (split; [|try reflexivity]).
    + apply storage_ok_remove; [assumption|]. left. auto.
    + apply storage_ok_remove; [assumption|]. right. auto.
    + assumption.
  - destruct (remap_ids_and_remove_invalid_run lib mappings w Hok)
      as (st' & w' & -> & _ & _ & _ & _ & Hok').
    split; [exact Hok'|reflexivity].
Qed.

Lemma storage_steps_ok lib cs (w : World Other) :
  storage_ok lib w ->
  storage_ok (result (storage_steps lib cs w)) (world (storage_steps lib cs w))
  /\ trace (storage_steps lib cs w) = [].
Proof.
  revert lib w. induction cs as [|c cs IH]; intros lib w Hok; [split; [exact Hok|reflexivity]|].
  cbn [storage_steps]. destruct (storage_step_ok lib c w Hok) as [Hok1 Ht1].
  destruct (storage_step lib c w) as [[lib1 w1] t1] eqn:Hstep.
  unfold result, world, trace in Hok1, Ht1. cbn [fst snd] in Hok1, Ht1. subst t1.
  destruct (IH lib1 w1 Hok1) as [Hok2 Ht2].
  destruct (storage_steps lib1 cs w1) as [[lib2 w2] t2] eqn:Hsteps.
  erewrite bind_run; [|exact Hstep|exact Hsteps|reflexivity].
  unfold result, world, trace in *. cbn [fst snd] in *. subst t2. auto.
Qed.

(** X15.  The storage of a library stays in order: after construction and
    any sequence of [add_external_asset], [add_local_id_asset],
    [remove_asset] and [remap_ids_and_remove_invalid], with any arguments,
    the two sets are disjoint and every member is a live object counted by
    its control block; and none of these makes a call leaving the file. *)
Theorem storage_in_order_after_any_calls this ty name root (w : World Other) cs :
  let r := storage_steps (AssetLibrary_new this ty name root) cs w in
  storage_ok (result r) (world r) /\ trace r = [].
Proof. apply storage_steps_ok, storage_ok_new. Qed.

(** ** Adding an asset and removing it again *)

Lemma union_difference_fresh (s : gset ptr) p : p ∉ s -> ({[p]} ∪ s) ∖ {[p]} = s.
Proof.
  intros Hp. apply set_eq. intros q.
  rewrite elem_of_difference, elem_of_union, elem_of_singleton.
  split; [tauto|]. intros Hq. split; [auto|]. intros ->. contradiction.
Qed.

Lemma expired_after_release (w : World Other) p (r : AssetRepresentation Other) :
  heap w !! p = Some (added_block r) ->
  weak_ptr_lock (world (shared_ptr_destroy p w)) p = None.
Proof.
  intros Hb. unfold weak_ptr_lock. rewrite heap_shared_ptr_destroy, decide_True by reflexivity.
  rewrite Hb. reflexivity.
Qed.

(** X14.  Adding an asset to a storage in order and removing it again is a
    round trip: [remove_asset] returns true, the library is exactly as
    before, the weak pointer returned by the addition has expired, every
    other block of the heap is as before, and removing the asset once more
    returns false and changes nothing. *)
Theorem add_then_remove_restores_storage lib (w : World Other) :
  storage_ok lib w ->
  (forall path name ty md,
      let added := add_external_asset lib path name ty md w in
      let asset := fst (result added) in
      let removed := remove_asset (snd (result added)) asset (world added) in
      result removed = (true, lib)
      /\ weak_ptr_lock (world removed) asset = None
      /\ (forall q, q <> asset -> heap (world removed) !! q = heap w !! q)
      /\ remove_asset lib asset (world removed) = ((false, lib), world removed, []))
  /\ (forall path id,
      let added := add_local_id_asset lib path id w in
      let asset := fst (result added) in
      let removed := remove_asset (snd (result added)) asset (world added) in
      result removed = (true, lib)
      /\ weak_ptr_lock (world removed) asset = None
      /\ (forall q, q <> asset -> heap (world removed) !! q = heap w !! q)
      /\ remove_asset lib asset (world removed) = ((false, lib), world removed, [])).
Proof.
  intros Hok. pose proof (fresh_not_owned lib w Hok) as Hfresh.
  unfold owned in Hfresh. rewrite elem_of_union in Hfresh.
  set (p := fresh (dom (heap w))) in *.
  assert (forall w' : World Other, remove_asset lib p w' = ((false, lib), w', [])) as Hagain.
  { intros w'. rewrite remove_asset_run, !decide_False by tauto. reflexivity. }
  split.
  - intros path name ty md. cbv zeta.
    rewrite (add_external_asset_run lib path name ty md w Hok). fold p.
    rewrite !result_tuple, !world_tuple. cbn [fst snd].
    rewrite remove_asset_run. cbn [storage_ set_storage local_id_assets external_assets].
    rewrite decide_False by tauto.
    rewrite decide_True by (apply elem_of_union_l, elem_of_singleton; reflexivity).
    rewrite !result_tuple, !world_tuple.
    rewrite union_difference_fresh by tauto.
    rewrite storage_eta, set_storage_twice, set_storage_same.
    split; [reflexivity|]. split; [|split; [|apply Hagain]].
    + eapply expired_after_release. cbn [heap with_heap]. apply lookup_insert_eq.
    + intros q Hq. rewrite heap_shared_ptr_destroy, decide_False by assumption.
      cbn [heap with_heap]. now rewrite lookup_insert_ne.
  - intros path id. cbv zeta.
    rewrite (add_local_id_asset_run lib path id w Hok). fold p.
    rewrite !result_tuple, !world_tuple. cbn [fst snd].
    rewrite remove_asset_run. cbn [storage_ set_storage local_id_assets external_assets].
    rewrite decide_True by (apply elem_of_union_l, elem_of_singleton; reflexivity).
    rewrite !result_tuple, !world_tuple.
    rewrite union_difference_fresh by tauto.
    rewrite storage_eta, set_storage_twice, set_storage_same.
    split; [reflexivity|]. split; [|split; [|apply Hagain]].
    + eapply expired_after_release. cbn [heap with_heap]. apply lookup_insert_eq.
    + intros q Hq. rewrite heap_shared_ptr_destroy, decide_False by assumption.
      cbn [heap with_heap]. now rewrite lookup_insert_ne.
Qed.

End Remap.

(** ** The destructor *)

Section Destructor.
Context {Other : Type} `{External}.

Lemma shared_ptr_destroy_heap p (w : World Other) :
  exists h',
    shared_ptr_destroy p w = (tt, with_heap w h', []) /\
    forall q, h' !! q = if decide (q = p) then heap w !! p ≫= release_block
                        else heap w !! q.
Proof.
  rewrite shared_ptr_destroy_run. destruct (heap w !! p) as [b|] eqn:Hb.
  - eexists. split; [reflexivity|]. intros q. cbn [mbind option_bind].
    destruct (decide (q = p)) as [->|Hne].
    + destruct (release_block b); [apply lookup_insert_eq | apply lookup_delete_eq].
    + destruct (release_block b); [now rewrite lookup_insert_ne | now rewrite lookup_delete_ne].
  - exists (heap w). rewrite with_heap_same. split; [reflexivity|].
    intros q. destruct (decide (q = p)) as [->|Hne]; [exact Hb|reflexivity].
Qed.

Lemma destroy_all_run ps (w : World Other) :
  NoDup ps ->
  exists h',
    destroy_all ps w = (tt, with_heap w h', []) /\
    forall q, h' !! q = if decide (q ∈ ps) then heap w !! q ≫= release_block
                        else heap w !! q.
Proof.
  intros Hnd. revert w. induction Hnd as [|p ps Hp Hnd IH]; intros w.
  - exists (heap w). rewrite with_heap_same. split; [reflexivity|].
    intros q. rewrite decide_False by apply not_elem_of_nil. reflexivity.
  - destruct (shared_ptr_destroy_heap p w) as (h1 & Hone & Hh1).
    destruct (IH (with_heap w h1)) as (h2 & Hall & Hh2).
    rewrite with_heap_twice in Hall.
    exists h2. split; [cbn [destroy_all]; eapply bind_run; [exact Hone|exact Hall|reflexivity]|].
    intros q. rewrite Hh2, with_heap_heap, !Hh1.
    destruct (decide (q = p)) as [->|Hne].
    + rewrite (decide_False (P := p ∈ ps)) by assumption.
      rewrite decide_True by apply list_elem_of_here. reflexivity.
    + destruct (decide (q ∈ ps)) as [Hin|Hnin].
      * rewrite decide_True by (now apply list_elem_of_further). reflexivity.
      * rewrite decide_False; [reflexivity|]. rewrite elem_of_cons. tauto.
Qed.

(** The heap after the destructor: the blocks of the two sets have been
    released, one set after the other. *)
Lemma AssetLibrary_delete_run lib (w : World Other) :
  exists h1 h2 : gmap ptr (control_block Other),
    AssetLibrary_delete lib w
    = (tt, with_heap w h2,
       match func (on_save_callback_store_ lib) with
       | Some _ => [ E_callback_remove (self lib) ]
       | None => []
       end)
    /\ (forall q, h1 !! q = if decide (q ∈ local_id_assets (storage_ lib))
                            then heap w !! q ≫= release_block else heap w !! q)
    /\ (forall q, h2 !! q = if decide (q ∈ external_assets (storage_ lib))
                            then h1 !! q ≫= release_block else h1 !! q).
Proof.
  destruct (destroy_all_run (elements (local_id_assets (storage_ lib))) w (NoDup_elements _))
    as (h1 & Hrun1 & Hh1).
  destruct (destroy_all_run (elements (external_assets (storage_ lib))) (with_heap w h1)
              (NoDup_elements _)) as (h2 & Hrun2 & Hh2).
  rewrite with_heap_twice in Hrun2.
  exists h1, h2. split; [|split].
  - unfold AssetLibrary_delete.
    destruct (func (on_save_callback_store_ lib));
      (eapply bind_run; [reflexivity| |]);
      [ eapply bind_run; [exact Hrun1|exact Hrun2|reflexivity] | reflexivity
      | eapply bind_run; [exact Hrun1|exact Hrun2|reflexivity] | reflexivity ].
  - intros q. rewrite Hh1.
    destruct (decide (q ∈ elements (local_id_assets (storage_ lib)))) as [Hq|Hq];
      rewrite elem_of_elements in Hq; [rewrite decide_True|rewrite decide_False]; auto.
  - intros q. rewrite Hh2, with_heap_heap.
    destruct (decide (q ∈ elements (external_assets (storage_ lib)))) as [Hq|Hq];
      rewrite elem_of_elements in Hq; [rewrite decide_True|rewrite decide_False]; auto.
Qed.

(** X16.  The destructor.  After [on_blend_save_handler_register] the
    callback store holds the handler with the library as its argument, and
    [~AssetLibrary] removes the callback; after
    [on_blend_save_handler_unregister] it removes nothing; in general it
    removes the callback exactly when one is stored.  The destruction of the
    members then releases the assets: blocks of addresses outside the
    storage are untouched, and when the storage is in order every block of
    the storage loses one owner, so that an asset the storage alone owned is
    destroyed and the weak pointers to it have expired. *)
Theorem save_handler_removed_with_library (lib : AssetLibrary) (w : World Other) :
  let registered := on_blend_save_handler_register lib w in
  let unregistered :=
    on_blend_save_handler_unregister (result registered) (world registered) in
  on_save_callback_store_ (result registered)
  = {| func := Some asset_library_on_save_post; arg := Some (self lib); alloc := false |}
  /\ trace (AssetLibrary_delete (result registered) (world registered))
     = [ E_callback_remove (self lib) ]
  /\ trace (AssetLibrary_delete (result unregistered) (world unregistered)) = []
  /\ trace (AssetLibrary_delete lib w)
     = match func (on_save_callback_store_ lib) with
       | Some _ => [ E_callback_remove (self lib) ]
       | None => []
       end
  /\ (forall q, q ∉ owned lib -> heap (world (AssetLibrary_delete lib w)) !! q = heap w !! q)
  /\ (storage_ok lib w ->
      forall p, p ∈ owned lib ->
        heap (world (AssetLibrary_delete lib w)) !! p = heap w !! p ≫= release_block
        /\ (forall b, heap w !! p = Some b -> use_count b = 1%nat ->
                      weak_ptr_lock (world (AssetLibrary_delete lib w)) p = None)).
Proof.
  cbv zeta.
  split; [reflexivity|].
  split.
  { destruct (AssetLibrary_delete_run
                (result (on_blend_save_handler_register lib w))
                (world (on_blend_save_handler_register lib w))) as (h1 & h2 & -> & _).
    reflexivity. }
  split.
  { destruct (AssetLibrary_delete_run
                (result (on_blend_save_handler_unregister
                           (result (on_blend_save_handler_register lib w))
                           (world (on_blend_save_handler_register lib w))))
                (world (on_blend_save_handler_unregister
                          (result (on_blend_save_handler_register lib w))
                          (world (on_blend_save_handler_register lib w)))))
      as (h1 & h2 & -> & _).
    reflexivity. }
  destruct (AssetLibrary_delete_run lib w) as (h1 & h2 & -> & Hh1 & Hh2).
  rewrite world_tuple. unfold trace. cbn [snd heap with_heap].
  split; [reflexivity|]. split.
  - intros q Hq. unfold owned in Hq. rewrite elem_of_union in Hq.
    rewrite Hh2, Hh1, !decide_False by tauto. reflexivity.
  - intros [Hdisj Hok] p Hp.
    assert (h2 !! p = heap w !! p ≫= release_block) as Hrel.
    { unfold owned in Hp. rewrite elem_of_union in Hp. rewrite Hh2, Hh1.
      destruct (decide (p ∈ local_id_assets (storage_ lib))) as [Hl|Hl].
      - rewrite decide_False by (intros He; exact (Hdisj p Hl He)). reflexivity.
      - rewrite decide_True by tauto. reflexivity. }
    split; [exact Hrel|].
    intros b Hb Hu. unfold weak_ptr_lock. cbn [heap with_heap]. rewrite Hrel, Hb. cbn.
    pose proof (release_block_last b Hu) as Hlast.
    destruct (release_block b) as [b'|]; [|reflexivity].
    destruct Hlast as [-> _]. reflexivity.
Qed.

End Destructor.

(** ** [refresh_catalog_simplename], again *)

Section SimpleNameAgain.
Context {Other : Type} `{External}.

Lemma set_catalog_simple_name_twice (d : AssetMetaData Other) n1 n2 :
  set_catalog_simple_name (set_catalog_simple_name d n1) n2 = set_catalog_simple_name d n2.
Proof. reflexivity. Qed.

Lemma STRNCPY_idemp dst src :
  1 <= length dst -> STRNCPY (STRNCPY dst src) src = STRNCPY dst src.
Proof.
  intros Hlen. unfold STRNCPY. rewrite length_BLI_strncpy by lia.
  unfold BLI_strncpy at 1 3.
  set (n := Nat.min (length (c_str src)) (length dst - 1)).
  f_equal. f_equal. unfold BLI_strncpy. fold n.
  apply drop_middle. rewrite length_take. lia.
Qed.

Lemma NUL_in_BLI_strncpy dst src n : NUL ∈ BLI_strncpy dst src n.
Proof. unfold BLI_strncpy. rewrite elem_of_app, elem_of_cons. auto. Qed.

(** X17.  [refresh_catalog_simplename] is idempotent, keeps the size of the
    [catalog_simple_name] array, and whenever it changes the metadata the
    array holds a terminating NUL. *)
Theorem refresh_catalog_simplename_idempotent (lib : AssetLibrary) (d : AssetMetaData Other) :
  1 <= length (catalog_simple_name d) ->
  let d' := refresh_catalog_simplename lib d in
  refresh_catalog_simplename lib d' = d'
  /\ length (catalog_simple_name d') = length (catalog_simple_name d)
  /\ (d' <> d -> NUL ∈ catalog_simple_name d').
Proof.
  intros Hlen. cbv zeta. unfold refresh_catalog_simplename.
  destruct (BLI_uuid_is_nil (catalog_id d)) eqn:Hnil.
  - cbn [catalog_id catalog_simple_name set_catalog_simple_name]. rewrite Hnil.
    rewrite set_catalog_simple_name_twice, list_insert_insert_eq.
    split; [reflexivity|]. split; [apply length_insert|]. intros _.
    destruct (catalog_simple_name d) as [|c n]; [cbn in Hlen; lia|]. apply list_elem_of_here.
  - destruct (find_catalog (catalog_service lib) (catalog_id d)) as [catalog|] eqn:Hfind.
    + cbn [catalog_id catalog_simple_name set_catalog_simple_name]. rewrite Hnil, Hfind.
      rewrite set_catalog_simple_name_twice, STRNCPY_idemp by assumption.
      split; [reflexivity|]. split; [apply length_BLI_strncpy; lia|].
      intros _. apply NUL_in_BLI_strncpy.
    + rewrite Hnil, Hfind. split; [reflexivity|]. split; [reflexivity|]. congruence.
Qed.

End SimpleNameAgain.

Lemma refresh_catalog_simplename_idempotent_witness :
  let d' := refresh_catalog_simplename long_name_library (blank_metadata 7%N) in
  refresh_catalog_simplename long_name_library d' = d'.
Proof.
  apply (refresh_catalog_simplename_idempotent (Other := unit) long_name_library
           (blank_metadata 7%N)).
  cbn. lia.
Defined.

(** ** [AS_asset_full_path_explode_from_weak_ref], out of range *)

Section ExplodeBounds.
Context {Other : Type} `{External}.

Lemma store_result buf i c : store buf i c = None <-> length buf <= i.
Proof. unfold store. destruct (decide (i < length buf)); split; intros; try lia; congruence. Qed.

Lemma store_length buf i c buf' : store buf i c = Some buf' -> length buf' = length buf.
Proof.
  unfold store. destruct (decide (i < length buf)); [|discriminate].
  intros [= <-]. apply length_insert.
Qed.

(** X18.  [AS_asset_full_path_explode_from_weak_ref] writes outside the
    1090-character buffer exactly when the last separator it overwrites, at
    offset [dir size + 1 + group size] (or [group size] when there is no
    directory component), lies at or beyond 1090: the copy of the path is
    bounded, the stores of the separators are not. *)
Theorem explode_stores_outside_buffer (asset_reference : AssetWeakReference)
        (buf : list ascii) (r_dir r_group r_name : out_ptr) (w : World Other) e :
  length buf = FILE_MAX_LIBEXTRA ->
  resolve_asset_weak_reference_to_exploded_path asset_reference = Some e ->
  let last_separator :=
    match dir_component e with
    | [] => length (group_component e)
    | _ :: _ => length (dir_component e) + 1 + length (group_component e)
    end in
  result (AS_asset_full_path_explode_from_weak_ref asset_reference buf r_dir r_group r_name w)
  = None
  <-> FILE_MAX_LIBEXTRA <= last_separator.
Proof.
  intros Hbuf He. cbv zeta. unfold AS_asset_full_path_explode_from_weak_ref.
  unfold bind, AssetLibraryService_get, emit, ret, result. cbn [fst snd]. rewrite He.
  assert (length (BLI_strncpy buf (full_path e) FILE_MAX_LIBEXTRA) = FILE_MAX_LIBEXTRA) as Hlen.
  { rewrite length_BLI_strncpy; [assumption|]. rewrite Hbuf. unfold FILE_MAX_LIBEXTRA. lia. }
  set (copied := BLI_strncpy buf (full_path e) FILE_MAX_LIBEXTRA) in *.
  destruct (dir_component e) as [|d0 dir]; cbn [fst snd].
  - destruct (store copied (length (group_component e)) NUL) as [b1|] eqn:H1;
      cbn [mbind option_bind].
    + split; [discriminate|]. intros Hge. exfalso.
      assert (store copied (length (group_component e)) NUL = None) as Hn
        by (apply store_result; lia).
      congruence.
    + apply store_result in H1. split; [lia|reflexivity].
  - set (dir_size := length (d0 :: dir)).
    destruct (store copied dir_size NUL) as [b1|] eqn:H1; cbn [mbind option_bind].
    + pose proof (store_length _ _ _ _ H1) as Hl1.
      destruct (store b1 (dir_size + 1 + length (group_component e)) NUL) as [b2|] eqn:H2;
        cbn [mbind option_bind].
      * split; [discriminate|]. intros Hge. exfalso.
        assert (store b1 (dir_size + 1 + length (group_component e)) NUL = None) as Hn
          by (apply store_result; lia).
        congruence.
      * apply store_result in H2. split; [lia|reflexivity].
    + apply store_result in H1. split; [lia|reflexivity].
Qed.

End ExplodeBounds.

(** ** Remapping the IDs of every loaded library *)

Section RemapAll.
Context {Other : Type} `{External}.

Lemma shared_ptr_destroy_world p (w : World Other) :
  exists h, world (shared_ptr_destroy p w) = with_heap w h.
Proof.
  rewrite shared_ptr_destroy_run. unfold world. cbn [fst snd].
  destruct (heap w !! p); [eexists; reflexivity|].
  exists (heap w). now rewrite with_heap_same.
Qed.

Lemma remove_all_sets lib ps (w : World Other) :
  NoDup ps ->
  (forall p, p ∈ ps -> p ∈ local_id_assets (storage_ lib)) ->
  exists st' h',
    remove_all lib ps w = (set_storage lib st', with_heap w h', []) /\
    local_id_assets st' = local_id_assets (storage_ lib) ∖ list_to_set ps /\
    external_assets st' = external_assets (storage_ lib).
Proof.
  intros Hnd. revert lib w. induction Hnd as [|p ps Hp Hnd IH]; intros lib w Hin.
  - exists (storage_ lib), (heap w). rewrite set_storage_same, with_heap_same.
    split; [reflexivity|]. split; [|reflexivity].
    cbn [list_to_set]. apply set_eq. intros q. rewrite elem_of_difference.
    split; [intros ?; split; [assumption|apply not_elem_of_empty]|tauto].
  - set (st1 := {| external_assets := external_assets (storage_ lib);
                   local_id_assets := local_id_assets (storage_ lib) ∖ {[p]} |}).
    assert (p ∈ local_id_assets (storage_ lib)) as Hpl by (apply Hin, list_elem_of_here).
    destruct (shared_ptr_destroy_world p w) as (h1 & Hw1).
    destruct (IH (set_storage lib st1) (with_heap w h1)) as (st' & h' & Hrun & Hl & He).
    { intros q Hq. cbn [storage_ set_storage st1 local_id_assets].
      apply elem_of_difference. split; [apply Hin; now apply list_elem_of_further|].
      rewrite elem_of_singleton. intros ->. contradiction. }
    rewrite set_storage_twice, with_heap_twice in Hrun.
    exists st', h'. split.
    { cbn [remove_all]. eapply bind_run;
        [rewrite remove_asset_run, decide_True by assumption; reflexivity| |reflexivity].
      cbn [snd]. rewrite Hw1. exact Hrun. }
    split; [|exact He].
    rewrite Hl. cbn [storage_ set_storage st1 local_id_assets list_to_set].
    apply set_eq. intros q.
    rewrite !elem_of_difference, elem_of_union, elem_of_singleton. tauto.
Qed.

Lemma remap_ids_and_remove_invalid_shrinks lib mappings (w : World Other) :
  exists lib' h',
    remap_ids_and_remove_invalid lib mappings w = (lib', with_heap w h', []) /\
    shrunk lib lib'.
Proof.
  unfold remap_ids_and_remove_invalid.
  set (ps := elements (local_id_assets (storage_ lib))).
  destruct (remap_all_run mappings ps w (NoDup_elements _)) as (h1 & Hall & _).
  destruct (remove_all_sets lib (List.filter (unassigned mappings w) ps) (with_heap w h1))
    as (st' & h' & Hrun & Hl & He).
  { apply NoDup_ListNoDup, List.NoDup_filter, NoDup_ListNoDup, NoDup_elements. }
  { intros p Hp. apply list_elem_of_In, List.filter_In in Hp as [Hp _].
    apply list_elem_of_In in Hp. subst ps. now apply elem_of_elements in Hp. }
  rewrite with_heap_twice in Hrun.
  exists (set_storage lib st'), h'.
  split; [eapply bind_run; [exact Hall|exact Hrun|reflexivity]|].
  split; [reflexivity|]. split; [exact He|].
  cbn [storage_ set_storage]. rewrite Hl. intros q Hq.
  now apply elem_of_difference in Hq as [Hq _].
Qed.

Lemma for_each_shrinks mappings libs (w : World Other) :
  exists libs' h',
    for_each (fun library => remap_ids_and_remove_invalid library mappings) libs w
    = (libs', with_heap w h', []) /\
    Forall2 shrunk libs libs'.
Proof.
  revert w. induction libs as [|lib libs IH]; intros w.
  - exists [], (heap w). rewrite with_heap_same. split; [reflexivity|constructor].
  - destruct (remap_ids_and_remove_invalid_shrinks lib mappings w) as (lib' & h1 & Hrun & Hsh).
    destruct (IH (with_heap w h1)) as (libs' & h2 & Hrest & Hall).
    rewrite with_heap_twice in Hrest.
    exists (lib' :: libs'), h2. split; [|now constructor].
    cbn [for_each]. eapply bind_run; [exact Hrun| |reflexivity].
    eapply bind_run; [exact Hrest|reflexivity|reflexivity].
Qed.

(** X20.  [AS_asset_library_remap_ids] obtains the service and makes one
    call on it, [foreach_loaded_asset_library] with the "all" library
    included.  Whatever the world, every loaded library and the "all"
    library come out with the same external assets, with a local-ID set that
    is a subset of the one before and with nothing else changed; the list of
    loaded libraries keeps its length and order, and the static save flag is
    untouched. *)
Theorem remap_ids_shrinks_every_library mappings (w : World Other) :
  let r := AS_asset_library_remap_ids mappings w in
  trace r = [ E_service_get; E_service (Call_foreach_loaded_asset_library true) ]
  /\ Forall2 shrunk (loaded_libraries w) (loaded_libraries (world r))
  /\ shrunk_opt (all_library w) (all_library (world r))
  /\ save_catalogs_when_file_is_saved (world r) = save_catalogs_when_file_is_saved w.
Proof.
  cbv zeta. unfold AS_asset_library_remap_ids, AssetLibraryService_get,
    foreach_loaded_asset_library.
  set (fn := fun library => remap_ids_and_remove_invalid library mappings).
  assert (exists all' h1,
             match all_library w with
             | Some lib => lib' <- fn lib ;; ret (Some lib')
             | None => ret None
             end w = (all', with_heap w h1, [])
             /\ shrunk_opt (all_library w) all') as (all' & h1 & Hall & Hsh).
  { destruct (all_library w) as [lib|].
    - destruct (remap_ids_and_remove_invalid_shrinks lib mappings w)
        as (lib' & h1 & Hrun & Hsh).
      exists (Some lib'), h1. split; [|exact Hsh].
      eapply bind_run; [exact Hrun|reflexivity|reflexivity].
    - exists None, (heap w). rewrite with_heap_same. split; [reflexivity|exact I]. }
  destruct (for_each_shrinks mappings (loaded_libraries w) (with_heap w h1))
    as (libs' & h2 & Hrest & Hlibs).
  rewrite with_heap_twice in Hrest.
  erewrite bind_run; [|reflexivity| |reflexivity].
  2:{ eapply bind_run; [reflexivity| |reflexivity].
      cbv beta. eapply bind_run; [exact Hall| |reflexivity].
      eapply bind_run; [exact Hrest|reflexivity|reflexivity]. }
  unfold trace, world. cbn. auto.
Qed.

End RemapAll.

(** The asset of [one_local_asset] is gone once the library is destroyed. *)
Lemma save_handler_removed_with_library_witness :
  weak_ptr_lock (world (AssetLibrary_delete (result one_local_asset) (world one_local_asset)))
                1%positive = None.
Proof.
  destruct (save_handler_removed_with_library (Other := unit) (result one_local_asset)
              (world one_local_asset)) as (_ & _ & _ & _ & _ & Hrel).
  destruct (Hrel (proj1 (storage_steps_ok _ _ _ (storage_ok_new _ _ _ _ _))) 1%positive)
    as [_ Hexp].
  - apply (bool_decide_unpack _). vm_compute. exact I.
  - eapply Hexp; [vm_compute; reflexivity | reflexivity].
Defined.

Lemma remap_removes_unassigned_assets_witness :
  let r := remap_ids_and_remove_invalid (result one_local_asset) unassign_all
                                        (world one_local_asset) in
  trace r = [] /\ storage_ok (result r) (world r).
Proof.
  destruct (remap_removes_unassigned_assets (Other := unit) (result one_local_asset)
              unassign_all (world one_local_asset))
    as (Ht & _ & _ & _ & _ & Hok & _).
  - apply storage_steps_ok, storage_ok_new.
  - split; assumption.
Defined.

Lemma add_then_remove_restores_storage_witness :
  let lib := @AssetLibrary_new demo_external 1%positive ASSET_LIBRARY_CUSTOM
                               (str "lib") (str "/lib") in
  let added := @add_local_id_asset unit demo_external lib (str "Material/Gold") 5%positive
                                   demo_world in
  result (remove_asset (snd (result added)) (fst (result added)) (world added)) = (true, lib).
Proof.
  cbv zeta.
  destruct (add_then_remove_restores_storage (Other := unit)
              (@AssetLibrary_new demo_external 1%positive ASSET_LIBRARY_CUSTOM
                                 (str "lib") (str "/lib"))
              demo_world (storage_ok_new _ _ _ _ _)) as [_ Hlocal].
  destruct (Hlocal (str "Material/Gold") 5%positive) as [Hres _]. exact Hres.
Defined.

Lemma explode_stores_outside_buffer_witness :
  result (@AS_asset_full_path_explode_from_weak_ref unit demo_external
            (reference_of_type ASSET_LIBRARY_ESSENTIALS) (repeat "x"%char 1090)
            (Some None) (Some None) (Some None) demo_world) = None
  <-> FILE_MAX_LIBEXTRA <= 8.
Proof.
  apply (explode_stores_outside_buffer (Other := unit)
           (reference_of_type ASSET_LIBRARY_ESSENTIALS) (repeat "x"%char 1090)
           (Some None) (Some None) (Some None) demo_world
           {| full_path := str "Material/" ++ repeat "a"%char 1100;
              dir_component := [];
              group_component := str "Material";
              name_component := repeat "a"%char 1100 |});
    reflexivity.
Defined.

End AssetStorageFacts.
